(** * A caching proxy core: cache, worker pool and log sink

    Shallow embedding of [src/cache.c], [src/thread_pool.c] and [src/log.c].

    Conventions of the embedding.
    - [int] is a 32-bit and [time_t] a 64-bit two's complement integer, both
      carried as [Z] with the wrap-around written out ([wrap]).
    - [char] is signed, as on every target that has the one-argument
      [pthread_setname_np] the sources call; a byte of memory is a
      [Byte.byte] and [char_val] is the value a [char] read of it yields.
    - A buffer passed as pointer and length ([request], [request_len]) is the
      list of its [request_len] bytes.
    - C's [/] and [%] truncate toward zero: [Z.quot] and [Z.rem].
    - A call either returns ([Ok]), leaves defined behaviour ([Fault]: a
      NULL, freed or out-of-bounds access, the unlock of a lock nobody
      holds), waits for ever ([Blocked]) or loops for ever ([Diverge]).
    - One thread runs at a time, one call after the other; the clock
      reading and the success of [malloc] are arguments of the call that
      needs them. *)

From Stdlib Require Import ZArith Lia List String Ascii.
From Stdlib Require Import Strings.Byte.
From stdpp Require Import base option list.

Local Open Scope Z_scope.

(** ** Machine integers *)

Module CInt.

Definition wrap (bits : Z) (z : Z) : Z :=
  (z + 2 ^ (bits - 1)) mod 2 ^ bits - 2 ^ (bits - 1).

Definition int_min : Z := - 2 ^ 31.
Definition int_max : Z := 2 ^ 31 - 1.

Definition int_add (a b : Z) : Z := wrap 32 (a + b).
Definition int_mul (a b : Z) : Z := wrap 32 (a * b).

Definition int_sub (a b : Z) : Z := wrap 32 (a - b).

(** The conversion [(int) z]. *)
Definition int_cast (z : Z) : Z := wrap 32 z.

Definition long_add (a b : Z) : Z := wrap 64 (a + b).
Definition long_sub (a b : Z) : Z := wrap 64 (a - b).
Definition long_mul (a b : Z) : Z := wrap 64 (a * b).

(** The value of a [char] read of one byte of memory (sign extension). *)
Definition char_val (b : byte) : Z :=
  let u := Z.of_N (Byte.to_N b) in
  if u <? 128 then u else u - 256.

(** The same byte read as [unsigned char]. *)
Definition uchar_val (b : byte) : Z := Z.of_N (Byte.to_N b).

End CInt.

(** ** C strings *)

Module CString.
Import CInt.

(** The text [printf]'s [%s] shows for a buffer: its bytes up to the first
    NUL. *)
Fixpoint c_string (bytes : list byte) : list byte :=
  match bytes with
  | [] => []
  | c :: rest => if Byte.eqb c x00 then [] else c :: c_string rest
  end.

(** [strncmp(s1, s2, n)]; a read at the end of a list yields the NUL that
    terminates the C string. *)
Fixpoint strncmp (s1 s2 : list byte) (n : nat) : Z :=
  match n with
  | O => 0
  | S n' =>
      let c1 := hd x00 s1 in
      let c2 := hd x00 s2 in
      if negb (Byte.eqb c1 c2) then uchar_val c1 - uchar_val c2
      else if Byte.eqb c1 x00 then 0
      else strncmp (tl s1) (tl s2) n'
  end.

End CString.

(** ** The bucket hash ([cache.c], [hash]) *)

Module Hash.
Import CInt.

(** One round of the loop body
    [hash_value = (hash_value * 31 + request[i]) % size]. *)
Definition hash_step (size : Z) (hash_value : Z) (c : byte) : Z :=
  Z.rem (int_add (int_mul hash_value 31) (char_val c)) size.

(** [hash(request, request_len, size)]; [None] is the NULL pointer.  With
    [size = 0] the C code divides by zero; every caller indexes an array of
    [size] buckets with the result, so that case is caught there. *)
Definition hash (request : option (list byte)) (size : Z) : Z :=
  match request with
  | None => 0
  | Some bytes => fold_left (hash_step size) bytes 0
  end.

(** The fold of the specification, on the bytes as numbers 0..255 and with
    the mathematical [mod]. *)
Definition reference_hash (bytes : list byte) (capacity : Z) : Z :=
  fold_left (fun h b => (h * 31 + uchar_val b) mod capacity) bytes 0.

(** Largest bucket count for which [hash_value * 31 + request[i]] stays in
    the range of [int]. *)
Definition max_exact_capacity : Z := 69273662.

Definition ascii_only (bytes : list byte) : bool :=
  forallb (fun b => uchar_val b <? 128) bytes.

End Hash.

(** ** Outcomes of a call and the memory the cache works on *)

Inductive outcome (A : Type) : Type :=
| Ok (a : A)
| Fault
| Blocked
| Diverge.
Arguments Ok {A} a.
Arguments Fault {A}.
Arguments Blocked {A}.
Arguments Diverge {A}.

Module Cache.
Import CInt CString Hash.

Definition SUCCESS : Z := 0.
Definition ERROR : Z := -1.
Definition NOT_FOUND : Z := -2.

(** Addresses of cache nodes; a [cache_node_t *] is an [option addr]. *)
Abbreviation addr := nat.

Record timeval := { tv_sec : Z; tv_usec : Z }.

(** [cache_entry_t].  [request] stands for the pair ([request],
    [request_len]); [response] is the payload behind the [message_t]
    pointer; the mutex and the condition are not used by [cache.c]. *)
Record cache_entry_t := {
  request : list byte;
  response : list byte;
  deleted : bool
}.

(** A [pthread_rwlock_t]: how many read holds it carries and whether it is
    held for writing. *)
Record rwlock_t := { readers : nat; writer : bool }.

(** [cache_node_t] *)
Record cache_node_t := {
  entry : cache_entry_t;
  last_modified_time : timeval;
  rwlock : rwlock_t;
  next : option addr
}.

(** The fields of [struct cache_t] that stay fixed once the cache exists.
    The block [array] points to is part of the memory below. *)
Record cache_t := {
  capacity : Z;
  entry_expired_time_ms : Z;
  garbage_collector_running : bool
}.

(** The memory: the bucket array of the cache, the node store (a freed
    node leaves [None] at its address, which is not handed out again) and
    the messages passed to the log sink. *)
Record mem := {
  array : list (option addr);
  nodes : list (option cache_node_t);
  out : list string
}.

Definition with_array (m : mem) (a : list (option addr)) : mem :=
  {| array := a; nodes := nodes m; out := out m |}.

Definition with_nodes (m : mem) (ns : list (option cache_node_t)) : mem :=
  {| array := array m; nodes := ns; out := out m |}.

Definition with_out (m : mem) (o : list string) : mem :=
  {| array := array m; nodes := nodes m; out := o |}.

Definition M (A : Type) : Type := mem -> outcome (A * mem).

Definition ret {A} (a : A) : M A := fun m => Ok (a, m).

Definition bind {A B} (c : M A) (k : A -> M B) : M B :=
  fun m =>
    match c m with
    | Ok (a, m') => k a m'
    | Fault => Fault
    | Blocked => Blocked
    | Diverge => Diverge
    end.

Declare Scope cache_scope.
Delimit Scope cache_scope with cache.
Notation "x <- c ;; k" := (bind c (fun x => k))
  (at level 100, c at next level, right associativity) : cache_scope.
Notation "c ;; k" := (bind c (fun _ => k))
  (at level 100, right associativity) : cache_scope.
Local Open Scope cache_scope.

Definition fault {A} : M A := fun _ => Fault.
Definition blocked {A} : M A := fun _ => Blocked.
Definition diverge {A} : M A := fun _ => Diverge.

(** [log(msg)] as the cache sees it: one more message for the sink. *)
Definition log (msg : string) : M unit :=
  fun m => Ok (tt, with_out m (out m ++ [msg])).

(** Number of node addresses handed out so far: no chain without a cycle is
    longer, so this many rounds let any loop over a chain reach its end. *)
Definition node_count : M nat := fun m => Ok (length (nodes m), m).

(** Read of the node at [a]. *)
Definition load (a : addr) : M cache_node_t :=
  fun m =>
    match nodes m !! a with
    | Some (Some n) => Ok (n, m)
    | _ => Fault
    end.

(** Write of the node at [a]. *)
Definition store (a : addr) (n : cache_node_t) : M unit :=
  fun m =>
    match nodes m !! a with
    | Some (Some _) => Ok (tt, with_nodes m (<[a := Some n]> (nodes m)))
    | _ => Fault
    end.

(** [malloc] of a node that succeeds, with the fields the caller sets. *)
Definition alloc (n : cache_node_t) : M addr :=
  fun m =>
    Ok (length (nodes m), with_nodes m (nodes m ++ [Some n])).

(** [free(node)] *)
Definition free (a : addr) : M unit :=
  fun m =>
    match nodes m !! a with
    | Some (Some _) => Ok (tt, with_nodes m (<[a := None]> (nodes m)))
    | _ => Fault
    end.

(** [cache->array[index]] *)
Definition array_load (index : Z) : M (option addr) :=
  fun m =>
    if index <? 0 then Fault
    else match array m !! Z.to_nat index with
         | Some p => Ok (p, m)
         | None => Fault
         end.

(** [cache->array[index] = p] *)
Definition array_store (index : Z) (p : option addr) : M unit :=
  fun m =>
    if index <? 0 then Fault
    else match array m !! Z.to_nat index with
         | Some _ => Ok (tt, with_array m (<[Z.to_nat index := p]> (array m)))
         | None => Fault
         end.

Definition set_rwlock (n : cache_node_t) (l : rwlock_t) : cache_node_t :=
  {| entry := entry n; last_modified_time := last_modified_time n;
     rwlock := l; next := next n |}.

Definition set_last_modified_time (n : cache_node_t) (t : timeval) : cache_node_t :=
  {| entry := entry n; last_modified_time := t;
     rwlock := rwlock n; next := next n |}.

Definition set_next (n : cache_node_t) (p : option addr) : cache_node_t :=
  {| entry := entry n; last_modified_time := last_modified_time n;
     rwlock := rwlock n; next := p |}.

(** [pthread_rwlock_rdlock(&a->rwlock)]: granted unless the lock is held
    for writing. *)
Definition pthread_rwlock_rdlock (a : addr) : M unit :=
  n <- load a ;;
  if writer (rwlock n) then blocked
  else store a (set_rwlock n {| readers := S (readers (rwlock n)); writer := false |}).

(** [pthread_rwlock_wrlock(&a->rwlock)]: granted only when nobody holds the
    lock.  With a hold that is never released, the caller waits for ever. *)
Definition pthread_rwlock_wrlock (a : addr) : M unit :=
  n <- load a ;;
  if writer (rwlock n) then blocked
  else match readers (rwlock n) with
       | O => store a (set_rwlock n {| readers := O; writer := true |})
       | S _ => blocked
       end.

(** [pthread_rwlock_unlock(&a->rwlock)]: gives back the write hold, or one
    read hold; on a lock nobody holds the behaviour is undefined. *)
Definition pthread_rwlock_unlock (a : addr) : M unit :=
  n <- load a ;;
  if writer (rwlock n) then
    store a (set_rwlock n {| readers := readers (rwlock n); writer := false |})
  else match readers (rwlock n) with
       | O => fault
       | S r => store a (set_rwlock n {| readers := r; writer := false |})
       end.

(** The test both lookups make on a node:
    [curr->entry->request_len == request_len &&
     strncmp(curr->entry->request, request, request_len) == 0]. *)
Definition same_request (e : cache_entry_t) (request : list byte) : bool :=
  (length (Cache.request e) =? length request)%nat &&
  (strncmp (Cache.request e) request (length request) =? 0).

(** [cache_node_create]; [room] tells whether [malloc] finds memory, [now]
    is what [gettimeofday] reports. *)
Definition cache_node_create (room : bool) (now : timeval)
    (entry : cache_entry_t) : M (option addr) :=
  if room then
    node <- alloc {| entry := entry; last_modified_time := now;
                     rwlock := {| readers := O; writer := false |};
                     next := None |} ;;
    ret (Some node)
  else
    log "Cache node creation error: Cannot allocate memory" ;;
    ret None.

(** Modelled from the spec: [cache_entry_destroy], declared in [cache.h]
    and defined outside these sources.  It "reclaims the response buffer
    and coordinator" of the entry; neither is part of the memory the cache
    works on, so nothing the cache reads afterwards has changed. *)
Definition cache_entry_destroy (e : cache_entry_t) : M unit := ret tt.

(** [cache_node_destroy]; [pthread_rwlock_destroy] gives the lock back
    with the node. *)
Definition cache_node_destroy (node : option addr) : M unit :=
  match node with
  | None => log "Cache node destroying error: node is NULL"
  | Some a =>
      n <- load a ;;
      cache_entry_destroy (entry n) ;;
      free a
  end.

(** The [calloc] of [capacity] node pointers, followed by the loop that
    sets every bucket to NULL: the block that [cache->array] points to. *)
Definition calloc_array (capacity : Z) : M unit :=
  fun m => Ok (tt, with_array m (replicate (Z.to_nat capacity) None)).

(** [cache_create(capacity, cache_expired_time_ms)].  [room_cache] and
    [room_array] tell whether [malloc] and [calloc] find memory; a negative
    [capacity] reaches [calloc] as a [size_t] no memory can hold, so that
    request fails too.  Both failures leave [errno] at [ENOMEM].  The thread
    that [pthread_create] starts runs [garbage_collector_tick] over and
    over. *)
Definition cache_create (room_cache room_array : bool)
    (capacity cache_expired_time_ms : Z) : M (option cache_t) :=
  if room_cache then
    if room_array && (0 <=? capacity) then
      calloc_array capacity ;;
      ret (Some {| capacity := capacity;
                   entry_expired_time_ms := cache_expired_time_ms;
                   garbage_collector_running := true |})
    else
      log "Cache creation error: Cannot allocate memory" ;;
      ret None
  else
    log "Cache creation error: Cannot allocate memory" ;;
    ret None.

(** The [while (curr != NULL)] loop of [cache_get]. *)
Fixpoint cache_get_loop (fuel : nat) (now : timeval) (request : list byte)
    (curr : option addr) : M (option cache_entry_t) :=
  match curr with
  | None => ret None
  | Some c =>
      match fuel with
      | O => diverge
      | S fuel' =>
          pthread_rwlock_rdlock c ;;
          n <- load c ;;
          if same_request (entry n) request then
            store c (set_last_modified_time n now) ;;
            pthread_rwlock_unlock c ;;
            ret (Some (entry n))
          else
            pthread_rwlock_unlock c ;;
            cache_get_loop fuel' now request (next n)
      end
  end.

(** [cache_get(cache, request, request_len)] *)
Definition cache_get (now : timeval) (cache : option cache_t)
    (request : list byte) : M (option cache_entry_t) :=
  match cache with
  | None =>
      log "Cache getting error: cache is NULL" ;;
      ret None
  | Some cache =>
      let index := hash (Some request) (capacity cache) in
      curr <- array_load index ;;
      fuel <- node_count ;;
      cache_get_loop fuel now request curr
  end.

(** [cache_add(cache, entry)] *)
Definition cache_add (room : bool) (now : timeval) (cache : option cache_t)
    (entry : option cache_entry_t) : M Z :=
  match cache with
  | None =>
      log "Cache adding error: cache is NULL" ;;
      ret ERROR
  | Some cache =>
      match entry with
      | None =>
          log "Cache adding error: cache entry is NULL" ;;
          ret ERROR
      | Some entry =>
          node <- cache_node_create room now entry ;;
          match node with
          | None => ret ERROR
          | Some node =>
              let index := hash (Some (request entry)) (capacity cache) in
              pthread_rwlock_wrlock node ;;
              head <- array_load index ;;
              n <- load node ;;
              store node (set_next n head) ;;
              pthread_rwlock_unlock node ;;
              array_store index (Some node) ;;
              log "Add new cache entry" ;;
              ret SUCCESS
          end
      end
  end.

(** The [while (curr != NULL)] loop of [cache_delete]. *)
Fixpoint cache_delete_loop (fuel : nat) (index : Z) (request : list byte)
    (prev curr : option addr) : M Z :=
  match curr with
  | None => ret NOT_FOUND
  | Some c =>
      match fuel with
      | O => diverge
      | S fuel' =>
          pthread_rwlock_rdlock c ;;
          n <- load c ;;
          if same_request (entry n) request then
            match prev with
            | None =>
                match next n with
                | None => array_store index None
                | Some _ => ret tt
                end
            | Some p =>
                pthread_rwlock_wrlock p ;;
                pn <- load p ;;
                store p (set_next pn (next n)) ;;
                pthread_rwlock_unlock p
            end ;;
            pthread_rwlock_unlock c ;;
            cache_node_destroy (Some c) ;;
            log "Cache entry destroy" ;;
            ret SUCCESS
          else
            pthread_rwlock_unlock c ;;
            cache_delete_loop fuel' index request (Some c) (next n)
      end
  end.

(** [cache_delete(cache, request, request_len)] *)
Definition cache_delete (cache : option cache_t) (request : list byte) : M Z :=
  match cache with
  | None =>
      log "Cache deleting error: cache is NULL" ;;
      ret ERROR
  | Some cache =>
      let index := hash (Some request) (capacity cache) in
      curr <- array_load index ;;
      match curr with
      | None => ret NOT_FOUND
      | Some _ =>
          fuel <- node_count ;;
          cache_delete_loop fuel index request None curr
      end
  end.

(** The inner [while (curr != NULL)] loop of [cache_destroy]. *)
Fixpoint cache_destroy_chain (fuel : nat) (curr : option addr) : M unit :=
  match curr with
  | None => ret tt
  | Some c =>
      match fuel with
      | O => diverge
      | S fuel' =>
          n <- load c ;;
          log ("Delete entry: " ++ string_of_list_byte (c_string (request (entry n)))) ;;
          cache_node_destroy (Some c) ;;
          cache_destroy_chain fuel' (next n)
      end
  end.

(** [for (int i = 0; i < cache->capacity; i++)] of [cache_destroy], with
    [count] rounds left. *)
Fixpoint cache_destroy_buckets (count : nat) (i : Z) : M unit :=
  match count with
  | O => ret tt
  | S count' =>
      curr <- array_load i ;;
      fuel <- node_count ;;
      cache_destroy_chain fuel curr ;;
      cache_destroy_buckets count' (int_add i 1)
  end.

(** [free(cache->array)]: no bucket is left to index. *)
Definition free_array : M unit :=
  fun m => Ok (tt, with_array m []).

(** [cache_destroy(cache)].  The wait for the collector thread (at most
    five one-second naps) changes nothing the cache owns and is left out. *)
Definition cache_destroy (cache : option cache_t) : M unit :=
  match cache with
  | None => log "Cache destroying error: cache is NULL"
  | Some cache =>
      cache_destroy_buckets (Z.to_nat (capacity cache)) 0 ;;
      free_array
  end.

(** *** The collector thread ([garbage_collector_routine]) *)

(** [(curr_time.tv_sec - last.tv_sec) * 1000 +
     (curr_time.tv_usec - last.tv_usec) / 1000] *)
Definition age_ms (curr_time last : timeval) : Z :=
  long_add
    (long_mul (long_sub (tv_sec curr_time) (tv_sec last)) 1000)
    (Z.quot (int_sub (tv_usec curr_time) (tv_usec last)) 1000).

(** The argument of [usleep]:
    [MIN(1000 * cache->entry_expired_time_ms / 2, 1000000)], the macro
    being [(x < y) ? x : y]. *)
Definition gc_sleep_usec (cache : cache_t) : Z :=
  let x := Z.quot (long_mul 1000 (entry_expired_time_ms cache)) 2 in
  if x <? 1000000 then x else 1000000.

(** The inner [while (curr != NULL)] loop of the collector. *)
Fixpoint gc_scan_chain (fuel : nat) (cache : cache_t) (curr_time : timeval)
    (curr : option addr) : M unit :=
  match curr with
  | None => ret tt
  | Some c =>
      match fuel with
      | O => diverge
      | S fuel' =>
          n <- load c ;;
          let diff := age_ms curr_time (last_modified_time n) in
          if entry_expired_time_ms cache <=? diff then
            pthread_rwlock_rdlock c ;;
            n' <- load c ;;
            pthread_rwlock_unlock c ;;
            _ <- cache_delete (Some cache) (request (entry n')) ;;
            gc_scan_chain fuel' cache curr_time (next n')
          else
            pthread_rwlock_rdlock c ;;
            n' <- load c ;;
            pthread_rwlock_unlock c ;;
            gc_scan_chain fuel' cache curr_time (next n')
      end
  end.

(** The body of [for (int i = 0; i < cache->capacity; i++)] in the
    collector.  The read hold taken on the head of the bucket before the
    inner loop has no matching unlock. *)
Definition gc_scan_bucket (cache : cache_t) (curr_time : timeval) (i : Z)
    : M unit :=
  curr <- array_load i ;;
  match curr with
  | None => ret tt
  | Some c =>
      pthread_rwlock_rdlock c ;;
      fuel <- node_count ;;
      gc_scan_chain fuel cache curr_time curr
  end.

(** The [for] loop itself, with [count] rounds left. *)
Fixpoint gc_scan_buckets (count : nat) (cache : cache_t) (curr_time : timeval)
    (i : Z) : M unit :=
  match count with
  | O => ret tt
  | S count' =>
      gc_scan_bucket cache curr_time i ;;
      gc_scan_buckets count' cache curr_time (int_add i 1)
  end.

(** One round of [while (cache->garbage_collector_running)]: the nap, one
    reading [curr_time] of the clock, the scan.  The result is the length
    of the nap in microseconds. *)
Definition garbage_collector_tick (cache : cache_t) (curr_time : timeval) : M Z :=
  let nap := gc_sleep_usec cache in
  gc_scan_buckets (Z.to_nat (capacity cache)) cache curr_time 0 ;;
  ret nap.

(** *** Notions the properties are stated with *)

(** A node as it reads while one more read hold is on its lock. *)
Definition read_held (n : cache_node_t) : cache_node_t :=
  set_rwlock n {| readers := S (readers (rwlock n)); writer := false |}.

(** The addresses met from [p] along [next] down to NULL, when at most
    [fuel] live nodes lie on the way. *)
Fixpoint chain (fuel : nat) (ns : list (option cache_node_t))
    (p : option addr) : option (list addr) :=
  match p with
  | None => Some []
  | Some a =>
      match fuel with
      | O => None
      | S fuel' =>
          match ns !! a with
          | Some (Some n) => option_map (cons a) (chain fuel' ns (next n))
          | _ => None
          end
      end
  end.

(** The nodes linked in bucket [i]. *)
Definition bucket (m : mem) (i : nat) : option (list addr) :=
  match array m !! i with
  | Some head => chain (length (nodes m)) (nodes m) head
  | None => None
  end.

(** The first node along [l] whose request matches [req], with its
    predecessor ([prev] for the first node of [l]). *)
Fixpoint first_match (ns : list (option cache_node_t)) (req : list byte)
    (prev : option addr) (l : list addr)
    : option (option addr * addr * cache_node_t) :=
  match l with
  | [] => None
  | a :: l' =>
      match ns !! a with
      | Some (Some n) =>
          if same_request (entry n) req then Some (prev, a, n)
          else first_match ns req (Some a) l'
      | _ => None
      end
  end.

(** What [cache_delete] makes of bucket [k] once the first match is known:
    the node is always freed; a head is unlinked only when it has no
    successor; a node behind the head is unlinked through its predecessor,
    which takes that node's write lock. *)
Definition delete_effect (m : mem) (k : nat)
    (hit : option addr * addr * cache_node_t) : outcome (Z * mem) :=
  match hit with
  | (None, c, n) =>
      Ok (SUCCESS,
          {| array := match next n with
                      | None => <[k := None]> (array m)
                      | Some _ => array m
                      end;
             nodes := <[c := None]> (nodes m);
             out := out m ++ ["Cache entry destroy"%string] |})
  | (Some p, c, n) =>
      match nodes m !! p with
      | Some (Some pn) =>
          match readers (rwlock pn) with
          | O =>
              Ok (SUCCESS,
                  {| array := array m;
                     nodes := <[c := None]>
                                (<[p := Some (set_next pn (next n))]> (nodes m));
                     out := out m ++ ["Cache entry destroy"%string] |})
          | S _ => Blocked
          end
      | _ => Fault
      end
  end.

(** The test of the collector on a node: [diff >= entry_expired_time_ms]. *)
Definition aged (cache : cache_t) (curr_time : timeval) (n : cache_node_t) : bool :=
  entry_expired_time_ms cache <=? age_ms curr_time (last_modified_time n).

(** The node at [a] is live and not held for writing. *)
Definition readable (m : mem) (a : addr) : bool :=
  match nodes m !! a with
  | Some (Some n) => negb (writer (rwlock n))
  | _ => false
  end.

(** The node at [a] is live and passes the test of the collector. *)
Definition aged_at (cache : cache_t) (curr_time : timeval) (m : mem)
    (a : addr) : bool :=
  match nodes m !! a with
  | Some (Some n) => aged cache curr_time n
  | _ => false
  end.

(** The request of the node at [a] hashes to bucket [i]. *)
Definition files_under (cache : cache_t) (m : mem) (i : nat) (a : addr) : bool :=
  match nodes m !! a with
  | Some (Some n) =>
      hash (Some (request (entry n))) (capacity cache) =? Z.of_nat i
  | _ => false
  end.

(** Bucket [i] is a chain of readable nodes, and either none of them has
    aged or the bucket is one aged node filed under [i]. *)
Definition bucket_settled (cache : cache_t) (curr_time : timeval) (m : mem)
    (i : nat) : bool :=
  match bucket m i with
  | None => false
  | Some l =>
      forallb (readable m) l &&
      (forallb (fun a => negb (aged_at cache curr_time m a)) l
       || match l with
          | [a] => aged_at cache curr_time m a && files_under cache m i a
          | _ => false
          end)
  end.

(** Every bucket of the cache is settled, and the array has
    [capacity] buckets. *)
Definition gc_settled (cache : cache_t) (curr_time : timeval) (m : mem) : bool :=
  (0 <=? capacity cache) && (capacity cache <? 2 ^ 31) &&
  (length (array m) =? Z.to_nat (capacity cache))%nat &&
  forallb (bucket_settled cache curr_time m) (seq 0 (length (array m))).

(** [n'] is [n] up to the read holds on its lock. *)
Definition same_but_readers (n n' : cache_node_t) : Prop :=
  entry n' = entry n /\ last_modified_time n' = last_modified_time n /\
  next n' = next n /\ writer (rwlock n') = writer (rwlock n).

(** The node at [a] in [m] is still there in [m'], up to read holds. *)
Definition kept (m m' : mem) (a : addr) : Prop :=
  forall n, nodes m !! a = Some (Some n) ->
            exists n', nodes m' !! a = Some (Some n') /\ same_but_readers n n'.

(** The state [mk] of the collector that started in [m], once it has
    been through the buckets below [k]: [n], the node at [a] in [m], was
    destroyed as the aged node alone in one of these buckets. *)
Definition gone_by (cache : cache_t) (curr_time : timeval) (m : mem)
    (k : nat) (mk : mem) (a : addr) (n : cache_node_t) : Prop :=
  aged cache curr_time n = true /\ nodes mk !! a = Some None /\
  exists j, (j < k)%nat /\ bucket m j = Some [a].

(** What the collector has made of bucket [j]: left alone when no node
    had aged, emptied of its one node otherwise. *)
Definition bucket_done (cache : cache_t) (curr_time : timeval) (m mk : mem)
    (j : nat) : Prop :=
  match bucket m j with
  | Some l =>
      if forallb (fun a => negb (aged_at cache curr_time m a)) l
      then array mk !! j = array m !! j
      else forall a, l = [a] ->
                     nodes mk !! a = Some None /\ array mk !! j = Some None
  | None => True
  end.

(** The invariant of the loop over the buckets. *)
Record gc_inv (cache : cache_t) (curr_time : timeval) (m : mem)
    (k : nat) (mk : mem) : Prop := {
  inv_array_length : length (array mk) = length (array m);
  inv_nodes_length : length (nodes mk) = length (nodes m);
  inv_array_rest :
    forall j, (k <= j)%nat -> array mk !! j = array m !! j;
  inv_fate :
    forall a n, nodes m !! a = Some (Some n) ->
                (exists n', nodes mk !! a = Some (Some n') /\
                            same_but_readers n n') \/
                gone_by cache curr_time m k mk a n;
  inv_done :
    forall j, (j < k)%nat -> bucket_done cache curr_time m mk j
}.

(** The sentence "the expirer removes a node if and only if its age has
    reached [expiry_ms]", read on the nodes linked in the buckets before
    the tick. *)
Definition expirer_removes_exactly_aged : Prop :=
  forall cache curr_time m nap m',
    garbage_collector_tick cache curr_time m = Ok (nap, m') ->
    forall i l a n,
      bucket m i = Some l -> In a l -> nodes m !! a = Some (Some n) ->
      (nodes m' !! a = Some None <-> aged cache curr_time n = true).

(** No live node holds an entry whose [deleted] flag is up. *)
Definition no_entry_flagged (m : mem) : bool :=
  forallb (fun o => match o with
                    | Some n => negb (deleted (entry n))
                    | None => true
                    end) (nodes m).

(** The nodes a walk from [p] along [next] meets, for as long as they
    are live and for at most [fuel] steps. *)
Fixpoint walk (fuel : nat) (ns : list (option cache_node_t))
    (p : option addr) : list addr :=
  match p with
  | None => []
  | Some a =>
      match fuel with
      | O => []
      | S fuel' =>
          match ns !! a with
          | Some (Some n) => a :: walk fuel' ns (next n)
          | _ => []
          end
      end
  end.

(** The nodes the index references: those a walk from a bucket meets. *)
Definition linked (m : mem) : list addr :=
  flat_map (walk (length (nodes m)) (nodes m)) (array m).

(** The invariant of the data model on the [deleted] flag: an entry whose
    flag is up is referenced by no bucket. *)
Definition flagged_unlinked (m : mem) : bool :=
  forallb (fun a => match nodes m !! a with
                    | Some (Some n) => negb (deleted (entry n))
                    | _ => true
                    end) (linked m).

(** Every node of [m'] is a node of [m] with the entry it had there. *)
Definition no_new_entry (m m' : mem) : Prop :=
  forall a n', nodes m' !! a = Some (Some n') ->
               exists n, nodes m !! a = Some (Some n) /\ entry n' = entry n.

(** A [struct timeval] as [gettimeofday] fills it in. *)
Definition timeval_ok (t : timeval) : Prop :=
  0 <= tv_sec t < 2 ^ 40 /\ 0 <= tv_usec t < 1000000.

(** The time from [t] to [now], in microseconds. *)
Definition elapsed_usec (now t : timeval) : Z :=
  (tv_sec now - tv_sec t) * 1000000 + (tv_usec now - tv_usec t).

(** The sentence "a node becomes eligible for expiry exactly
    [expiry_ms] after its time stamp": the test of the collector passes
    exactly when that many milliseconds have gone by. *)
Definition eligible_exactly_at_expiry : Prop :=
  forall cache now n,
    timeval_ok now -> timeval_ok (last_modified_time n) ->
    (aged cache now n = true <->
     1000 * entry_expired_time_ms cache <= elapsed_usec now (last_modified_time n)).

(** Bucket [i] is a chain of readable nodes whose requests all hash
    to [i]. *)
Definition bucket_filed (cache : cache_t) (m : mem) (i : nat) : bool :=
  match bucket m i with
  | Some l => forallb (readable m) l && forallb (files_under cache m i) l
  | None => false
  end.

(** The cache as its operations build it: [capacity] buckets, each a chain
    of readable nodes filed under it. *)
Definition cache_wf (cache : cache_t) (m : mem) : bool :=
  (0 <=? capacity cache) && (capacity cache <? 2 ^ 31) &&
  (length (array m) =? Z.to_nat (capacity cache))%nat &&
  forallb (bucket_filed cache m) (seq 0 (length (array m))).

(** No byte of [s] is NUL. *)
Definition nul_free (s : list byte) : bool :=
  forallb (fun c => negb (Byte.eqb c x00)) s.

(** What a call leaves behind, for building examples. *)
Definition after {A} (c : M A) (m : mem) : mem :=
  match c m with
  | Ok (_, m') => m'
  | _ => m
  end.

(** A cache of [n] empty buckets and no node. *)
Definition empty_mem (n : nat) : mem :=
  {| array := replicate n None; nodes := []; out := [] |}.

End Cache.

(** ** The worker pool ([thread_pool.c]) *)

Module ThreadPool.
Import CInt.

(** [task_t]; a routine and its argument are opaque words. *)
Record task_t := { id : Z; routine : nat; arg : nat }.

(** [thread_pool_t] without the mutex, the conditions and the thread
    handles. *)
Record thread_pool_t := {
  tasks : list task_t;
  capacity : Z;
  size : Z;
  front : Z;
  rear : Z;
  num_executors : Z;
  shutdown : bool
}.

(** What lies outside the pool: the static [id_counter] and the messages
    passed to the log sink. *)
Record world := { id_counter : Z; out : list string }.

Definition log (w : world) (msg : string) : world :=
  {| id_counter := id_counter w; out := out w ++ [msg] |}.

(** The pool is shared with the executors and with whoever shuts it down.
    [views] lists the pool as the submitter finds it each time a blocking
    call of its own returns: first [pthread_mutex_lock], then each
    [pthread_cond_wait].  When the list runs out the call in progress never
    returns. *)

(** [while (pool->size == pool->capacity && !pool->shutdown)
      pthread_cond_wait(&pool->not_full_cond, &pool->mutex);] *)
Fixpoint wait_not_full (pool : thread_pool_t) (views : list thread_pool_t)
    : outcome thread_pool_t :=
  if (size pool =? capacity pool) && negb (shutdown pool) then
    match views with
    | [] => Blocked
    | pool' :: views' => wait_not_full pool' views'
    end
  else Ok pool.

(** The five assignments that put a task at [rear]. *)
Definition enqueue (pool : thread_pool_t) (routine arg : nat) (w : world)
    : outcome (thread_pool_t * world) :=
  if rear pool <? 0 then Fault
  else match tasks pool !! Z.to_nat (rear pool) with
       | None => Fault
       | Some _ =>
           let task := {| id := id_counter w; routine := routine; arg := arg |} in
           Ok ({| tasks := <[Z.to_nat (rear pool) := task]> (tasks pool);
                  capacity := capacity pool;
                  size := int_add (size pool) 1;
                  front := front pool;
                  rear := Z.rem (int_add (rear pool) 1) (capacity pool);
                  num_executors := num_executors pool;
                  shutdown := shutdown pool |},
               {| id_counter := long_add (id_counter w) 1; out := out w |})
       end.

(** [thread_pool_execute(pool, routine, arg)]: the pool as the caller
    leaves it, and the world. *)
Definition thread_pool_execute (pool : option thread_pool_t)
    (views : list thread_pool_t) (routine arg : nat) (w : world)
    : outcome (thread_pool_t * world) :=
  match pool with
  | None => Fault
  | Some pool =>
      if shutdown pool then
        Ok (pool, log w "Thread pool execution error: thread pool was shutdown")
      else
        match views with
        | [] => Blocked
        | locked :: views' =>
            match wait_not_full locked views' with
            | Ok pool' =>
                if shutdown pool' then Ok (pool', w)
                else enqueue pool' routine arg w
            | Fault => Fault
            | Blocked => Blocked
            | Diverge => Diverge
            end
        end
  end.

(** A slot of the block [calloc] hands out: every byte zero. *)
Definition zero_task : task_t := {| id := 0; routine := O; arg := O |}.

(** [thread_pool_create(executor_count, task_queue_capacity)].  The three
    flags tell whether the [malloc] and the two [calloc]s find memory; a
    negative count reaches [calloc] as a [size_t] no memory can hold, so
    that request fails too.  Each failure leaves [errno] at [ENOMEM].  The
    executors that [pthread_create] starts run [executor_round] over and
    over. *)
Definition thread_pool_create (room_pool room_tasks room_executors : bool)
    (executor_count task_queue_capacity : Z) (w : world)
    : option thread_pool_t * world :=
  let failed :=
    (None, log w "Thread pool creation error: Cannot allocate memory") in
  if room_pool then
    if room_tasks && (0 <=? task_queue_capacity) then
      if room_executors && (0 <=? executor_count) then
        (Some {| tasks := replicate (Z.to_nat task_queue_capacity) zero_task;
                 capacity := task_queue_capacity;
                 size := 0;
                 front := 0;
                 rear := 0;
                 num_executors := executor_count;
                 shutdown := false |}, w)
      else failed
    else failed
  else failed.

(** [while (pool->size == 0 && !pool->shutdown)
      pthread_cond_wait(&pool->not_empty_cond, &pool->mutex);] *)
Fixpoint wait_not_empty (pool : thread_pool_t) (views : list thread_pool_t)
    : outcome thread_pool_t :=
  if (size pool =? 0) && negb (shutdown pool) then
    match views with
    | [] => Blocked
    | pool' :: views' => wait_not_empty pool' views'
    end
  else Ok pool.

(** The three statements that take the task at [front]. *)
Definition dequeue (pool : thread_pool_t) : outcome (task_t * thread_pool_t) :=
  if front pool <? 0 then Fault
  else match tasks pool !! Z.to_nat (front pool) with
       | None => Fault
       | Some task =>
           Ok (task,
               {| tasks := tasks pool;
                  capacity := capacity pool;
                  size := int_sub (size pool) 1;
                  front := Z.rem (int_add (front pool) 1) (capacity pool);
                  rear := rear pool;
                  num_executors := num_executors pool;
                  shutdown := shutdown pool |})
       end.

(** One round of [while (1)] in [executor_routine], from
    [pthread_mutex_lock] to [pthread_mutex_unlock]: [None] when the
    executor leaves through [pthread_exit], otherwise the task it goes on
    to run between its two log lines.  [views] is read as for the
    submitter. *)
Definition executor_round (views : list thread_pool_t)
    : outcome (option task_t * thread_pool_t) :=
  match views with
  | [] => Blocked
  | locked :: views' =>
      match wait_not_empty locked views' with
      | Ok pool =>
          if shutdown pool then Ok (None, pool)
          else match dequeue pool with
               | Ok (task, pool') => Ok (Some task, pool')
               | Fault => Fault
               | Blocked => Blocked
               | Diverge => Diverge
               end
      | Fault => Fault
      | Blocked => Blocked
      | Diverge => Diverge
      end
  end.

(** The ring: a block of [capacity] slots, [size] of them taken, from
    [front] round to [rear]. *)
Definition ring_ok (p : thread_pool_t) : Prop :=
  0 < capacity p < 2 ^ 31 /\
  length (tasks p) = Z.to_nat (capacity p) /\
  0 <= size p <= capacity p /\
  0 <= front p < capacity p /\
  rear p = (front p + size p) mod capacity p.

(** The tasks waiting in the ring, oldest first. *)
Definition queue (p : thread_pool_t) : list task_t :=
  map (fun i => nth (Z.to_nat ((front p + Z.of_nat i) mod capacity p))
                    (tasks p) zero_task)
      (seq 0 (Z.to_nat (size p))).

(** The pool in which the submitter reads the shutdown flag for the last
    time before it decides: the argument itself when the flag is already
    up on entry, otherwise the pool found once the mutex is held and the
    wait on [not_full] is over. *)
Definition deciding_view (pool : thread_pool_t) (views : list thread_pool_t)
    : outcome thread_pool_t :=
  if shutdown pool then Ok pool
  else match views with
       | [] => Blocked
       | locked :: views' => wait_not_full locked views'
       end.

(** Two views of the pool with the same queue: stored tasks, capacity,
    count, front and rear. *)
Definition same_queue (p q : thread_pool_t) : Prop :=
  tasks q = tasks p /\ capacity q = capacity p /\ size q = size p /\
  front q = front p /\ rear q = rear p.

End ThreadPool.

(** ** The log sink ([log.c]) *)

Module Log.
Import CInt CString.

Definition MAX_LOG_MESSAGE_LENGTH : nat := 1024.

(** The fields of [struct tm] the sink prints. *)
Record tm := {
  tm_year : Z;
  tm_mon : Z;
  tm_mday : Z;
  tm_hour : Z;
  tm_min : Z;
  tm_sec : Z
}.

Definition LF : byte := x0a.
Definition CR : byte := x0d.
Definition SP : byte := x20.

Definition digit (d : Z) : byte :=
  match d with
  | 0 => x30 | 1 => x31 | 2 => x32 | 3 => x33 | 4 => x34
  | 5 => x35 | 6 => x36 | 7 => x37 | 8 => x38 | _ => x39
  end.

(** Decimal digits of [z >= 0], most significant first, in front of [acc]. *)
Fixpoint digits (fuel : nat) (z : Z) (acc : list byte) : list byte :=
  match fuel with
  | O => acc
  | S fuel' =>
      let acc' := digit (z mod 10) :: acc in
      if z <? 10 then acc' else digits fuel' (z / 10) acc'
  end.

(** [printf]'s [%0<width>d] for an [int]. *)
Definition printf_0d (width : nat) (z : Z) : list byte :=
  if z <? 0 then
    let ds := digits 10 (- z) [] in
    x2d :: repeat x30 (width - 1 - length ds) ++ ds
  else
    let ds := digits 10 z [] in
    repeat x30 (width - length ds) ++ ds.

(** [printf]'s [%<width>s]: the string, after as many blanks as it takes to
    fill [width] columns; a longer string is printed whole. *)
Definition printf_s (width : nat) (s : list byte) : list byte :=
  let text := c_string s in
  repeat SP (width - length text) ++ text.

(** [vsnprintf(text, size, format, args)] given [rendered], the expansion
    of the format: at most [size - 1] bytes of it are kept. *)
Definition vsnprintf (size : nat) (rendered : list byte) : list byte :=
  c_string (take (size - 1) rendered).

(** The loop over [text] that overwrites every line feed and every
    carriage return with a blank. *)
Definition blank_line_breaks (text : list byte) : list byte :=
  map (fun c => if Byte.eqb c LF || Byte.eqb c CR then SP else c) text.

(** The text of the message as [printf] receives it. *)
Definition message_text (rendered : list byte) : list byte :=
  blank_line_breaks (vsnprintf MAX_LOG_MESSAGE_LENGTH rendered).

(** The date and the time of day, to the millisecond. *)
Definition time_stamp (usec : Z) (t : tm) : list byte :=
  printf_0d 4 (int_add (tm_year t) 1900) ++ [x2d] ++
  printf_0d 2 (int_add (tm_mon t) 1) ++ [x2d] ++
  printf_0d 2 (tm_mday t) ++ [SP] ++
  printf_0d 2 (tm_hour t) ++ [x3a] ++
  printf_0d 2 (tm_min t) ++ [x3a] ++
  printf_0d 2 (tm_sec t) ++ [x2e] ++
  printf_0d 3 (int_cast (Z.quot usec 1000)).

(** Everything of the line in front of the message. *)
Definition line_head (usec : Z) (t : tm) (thread_name : list byte) : list byte :=
  time_stamp usec t ++
  list_byte_of_string " --- [" ++
  printf_s 15 thread_name ++
  list_byte_of_string "] : ".

(** [log(format, ...)]: the bytes written to standard output.  [usec] is
    the [tv_usec] of [gettimeofday], [t] the broken-down local time,
    [thread_name] what [pthread_getname_np] stores, [rendered] the
    expansion of [format] with its arguments. *)
Definition log (usec : Z) (t : tm) (thread_name rendered : list byte) : list byte :=
  line_head usec t thread_name ++ message_text rendered ++ [LF].

(** The control characters of the C locale ([iscntrl]). *)
Definition is_control (c : byte) : bool :=
  (uchar_val c <? 32) || (uchar_val c =? 127).

(** [c] does not occur in [s]. *)
Definition free_of (c : byte) (s : list byte) : bool :=
  forallb (fun x => negb (Byte.eqb x c)) s.

(** What [localtime] yields in the years 1000 to 9999. *)
Definition tm_ok (t : tm) : Prop :=
  1000 <= tm_year t + 1900 <= 9999 /\ 0 <= tm_mon t <= 11 /\
  1 <= tm_mday t <= 31 /\ 0 <= tm_hour t <= 23 /\
  0 <= tm_min t <= 59 /\ 0 <= tm_sec t <= 60.

(** The value of a decimal digit. *)
Definition digit_value (c : byte) : option Z :=
  match c with
  | x30 => Some 0 | x31 => Some 1 | x32 => Some 2 | x33 => Some 3
  | x34 => Some 4 | x35 => Some 5 | x36 => Some 6 | x37 => Some 7
  | x38 => Some 8 | x39 => Some 9 | _ => None
  end.

(** The number that [acc] followed by the decimal digits [s] reads as. *)
Fixpoint decimal_from (acc : Z) (s : list byte) : option Z :=
  match s with
  | [] => Some acc
  | c :: s' =>
      match digit_value c with
      | Some d => decimal_from (10 * acc + d) s'
      | None => None
      end
  end.

(** The number a run of decimal digits reads as, leading zeros allowed;
    [None] for the empty run and for a run with another byte in it. *)
Definition decimal (s : list byte) : option Z :=
  match s with
  | [] => None
  | _ => decimal_from 0 s
  end.

(** The sentence "every control character of the message has been
    substituted with a space". *)
Definition blanks_every_control : Prop :=
  forall rendered c, In c (message_text rendered) -> is_control c = false.

End Log.

(** ** Concrete caches used as examples *)

Module CacheExamples.
Import Cache.

Definition one_bucket : cache_t :=
  {| capacity := 1; entry_expired_time_ms := 1000;
     garbage_collector_running := true |}.

Definition two_buckets : cache_t :=
  {| capacity := 2; entry_expired_time_ms := 1000;
     garbage_collector_running := true |}.

(** The caches of the scenarios E1 and E3. *)
Definition four_buckets : cache_t :=
  {| capacity := 4; entry_expired_time_ms := 60000;
     garbage_collector_running := true |}.

Definition short_lived : cache_t :=
  {| capacity := 2; entry_expired_time_ms := 100;
     garbage_collector_running := true |}.

Definition entry_X : cache_entry_t :=
  {| request := [x58]; response := []; deleted := false |}.

Definition entry_A : cache_entry_t :=
  {| request := [x41]; response := [x31]; deleted := false |}.
Definition entry_A' : cache_entry_t :=
  {| request := [x41]; response := [x32]; deleted := false |}.
Definition entry_B : cache_entry_t :=
  {| request := [x42]; response := [x33]; deleted := false |}.
Definition entry_C : cache_entry_t :=
  {| request := [x43]; response := [x34]; deleted := false |}.

Definition early : timeval := {| tv_sec := 100; tv_usec := 0 |}.
Definition late : timeval := {| tv_sec := 200; tv_usec := 0 |}.
Definition later : timeval := {| tv_sec := 200; tv_usec := 500 |}.

(** 300 ms after [early]. *)
Definition early_300ms : timeval := {| tv_sec := 100; tv_usec := 300000 |}.

(** One bucket holding A. *)
Definition mem_A : mem :=
  Eval vm_compute in
    after (cache_add true early (Some one_bucket) (Some entry_A)) (empty_mem 1).

(** A added, then B: the chain reads B, A. *)
Definition mem_A_then_B : mem :=
  Eval vm_compute in
    after (cache_add true early (Some one_bucket) (Some entry_B)) mem_A.

(** B added, then A: the chain reads A, B. *)
Definition mem_B_then_A : mem :=
  Eval vm_compute in
    after (cache_add true early (Some one_bucket) (Some entry_A))
      (after (cache_add true early (Some one_bucket) (Some entry_B)) (empty_mem 1)).

(** A added early and A' (same request) added late: the chain reads A', A. *)
Definition mem_twice_A : mem :=
  Eval vm_compute in
    after (cache_add true late (Some one_bucket) (Some entry_A')) mem_A.

(** Two buckets: B alone and early in bucket 0; C, A late in bucket 1. *)
Definition mem_two_buckets : mem :=
  Eval vm_compute in
    after (cache_add true late (Some two_buckets) (Some entry_C))
      (after (cache_add true late (Some two_buckets) (Some entry_A))
         (after (cache_add true early (Some two_buckets) (Some entry_B))
            (empty_mem 2))).

(** 1.5 s and 2 s after [early]. *)
Definition early_1500ms : timeval := {| tv_sec := 101; tv_usec := 500000 |}.
Definition early_2s : timeval := {| tv_sec := 102; tv_usec := 0 |}.

(** One bucket: B stamped 1.5 s after [early], then A, added later but
    carrying the stamp [early]: the chain reads A, B and A is the older. *)
Definition mem_old_A_new_B : mem :=
  Eval vm_compute in
    after (cache_add true early (Some one_bucket) (Some entry_A))
      (after (cache_add true early_1500ms (Some one_bucket) (Some entry_B))
         (empty_mem 1)).

(** One bucket: A stamped [early], then B stamped 1.5 s later: the chain
    reads B, A, and A, right behind the head, is the older. *)
Definition mem_aged_behind_head : mem :=
  Eval vm_compute in
    after (cache_add true early_1500ms (Some one_bucket) (Some entry_B))
      (after (cache_add true early (Some one_bucket) (Some entry_A))
         (empty_mem 1)).

(** One bucket: X stamped [early], then A and B stamped 1.5 s later: the
    chain reads B, A, X, and X, two links behind the head, is the older. *)
Definition mem_aged_third : mem :=
  Eval vm_compute in
    after (cache_add true early_1500ms (Some one_bucket) (Some entry_B))
      (after (cache_add true early_1500ms (Some one_bucket) (Some entry_A))
         (after (cache_add true early (Some one_bucket) (Some entry_X))
            (empty_mem 1))).

End CacheExamples.

(** ** Concrete pools used as examples *)

Module PoolExamples.
Import ThreadPool.

Definition idle_task : task_t := {| id := 0; routine := O; arg := O |}.

(** A pool of two slots, both taken. *)
Definition full_pool : thread_pool_t :=
  {| tasks := [idle_task; idle_task]; capacity := 2; size := 2;
     front := 0; rear := 0; num_executors := 1; shutdown := false |}.

(** The same pool once [thread_pool_shutdown] has raised the flag. *)
Definition full_pool_down : thread_pool_t :=
  {| tasks := [idle_task; idle_task]; capacity := 2; size := 2;
     front := 0; rear := 0; num_executors := 1; shutdown := true |}.

Definition some_world : world := {| id_counter := 7; out := [] |}.

Definition task_a : task_t := {| id := 5; routine := 1%nat; arg := 10%nat |}.
Definition task_b : task_t := {| id := 6; routine := 2%nat; arg := 20%nat |}.

(** A ring of three slots holding [task_a] and [task_b], in that order;
    the next task goes to slot 0. *)
Definition ring_of_two : thread_pool_t :=
  {| tasks := [zero_task; task_a; task_b]; capacity := 3; size := 2;
     front := 1; rear := 0; num_executors := 1; shutdown := false |}.


End PoolExamples.

(** ** A concrete call of the log sink *)

Module LogExamples.
Import Log.

(** 30 October 2026, 07:05:09. *)
Definition a_morning : tm :=
  {| tm_year := 126; tm_mon := 9; tm_mday := 30;
     tm_hour := 7; tm_min := 5; tm_sec := 9 |}.

(** The name the collector thread gives itself, 17 bytes long. *)
Definition collector_name : list byte :=
  list_byte_of_string "garbage-collector".

(** A message with a tab, a line feed and a carriage return in it. *)
Definition three_controls : list byte := [x61; x09; x62; x0a; x63; x0d].

(** A thread name of 13 bytes. *)
Definition pool_name : list byte := list_byte_of_string "thread-pool-0".

(** A message without NUL, line feed or carriage return. *)
Definition plain_text : list byte := list_byte_of_string "Add new cache entry".

End LogExamples.

(** * Facts about machine integers *)

Module CIntFacts.
Import CInt.

Lemma wrap_small bits z :
  0 < bits -> - 2 ^ (bits - 1) <= z < 2 ^ (bits - 1) -> wrap bits z = z.
Proof.
  intros Hb Hz. unfold wrap.
  replace (2 ^ bits) with (2 * 2 ^ (bits - 1)).
  - rewrite Z.mod_small; lia.
  - rewrite <- Z.pow_succ_r by lia. f_equal. lia.
Qed.

Lemma int_add_small a b :
  int_min <= a + b <= int_max -> int_add a b = a + b.
Proof.
  unfold int_add, int_min, int_max. intros H.
  apply wrap_small; [lia|]. change (2 ^ (32 - 1)) with (2 ^ 31). lia.
Qed.

Lemma int_mul_small a b :
  int_min <= a * b <= int_max -> int_mul a b = a * b.
Proof.
  unfold int_mul, int_min, int_max. intros H.
  apply wrap_small; [lia|]. change (2 ^ (32 - 1)) with (2 ^ 31). lia.
Qed.

Lemma uchar_val_range b : 0 <= uchar_val b <= 255.
Proof.
  unfold uchar_val. pose proof (Byte.to_N_bounded b). lia.
Qed.

Lemma char_val_range b : -128 <= char_val b <= 127.
Proof.
  unfold char_val. pose proof (uchar_val_range b) as H. unfold uchar_val in H.
  destruct (Z.ltb_spec (Z.of_N (Byte.to_N b)) 128); lia.
Qed.

Lemma char_val_ascii b : uchar_val b < 128 -> char_val b = uchar_val b.
Proof.
  unfold char_val, uchar_val. intros H.
  destruct (Z.ltb_spec (Z.of_N (Byte.to_N b)) 128); lia.
Qed.

Lemma long_small z : - 2 ^ 63 <= z < 2 ^ 63 -> wrap 64 z = z.
Proof.
  intros H. apply wrap_small; [lia|].
  change (2 ^ (64 - 1)) with (2 ^ 63). exact H.
Qed.

Lemma int_small z : - 2 ^ 31 <= z < 2 ^ 31 -> wrap 32 z = z.
Proof.
  intros H. apply wrap_small; [lia|].
  change (2 ^ (32 - 1)) with (2 ^ 31). exact H.
Qed.

End CIntFacts.

(** * Facts about the bucket hash *)

Module HashFacts.
Import CInt CIntFacts Hash.

Lemma hash_step_magnitude size h c :
  0 < size -> - size < hash_step size h c < size.
Proof.
  intros Hs. unfold hash_step.
  assert (Hb := Z.rem_bound_abs (int_add (int_mul h 31) (char_val c)) size).
  lia.
Qed.

Lemma hash_step_exact size h c :
  0 < size <= max_exact_capacity -> 0 <= h < size -> uchar_val c < 128 ->
  hash_step size h c = (h * 31 + uchar_val c) mod size /\
  0 <= hash_step size h c < size.
Proof.
  unfold max_exact_capacity. intros Hs Hh Hc.
  pose proof (uchar_val_range c) as Hu.
  unfold hash_step. rewrite (char_val_ascii c Hc).
  rewrite int_mul_small by (unfold int_min, int_max; lia).
  rewrite int_add_small by (unfold int_min, int_max; lia).
  rewrite Z.rem_mod_nonneg by lia.
  split; [reflexivity|]. apply Z.mod_pos_bound. lia.
Qed.

Lemma hash_fold_exact size bytes h :
  0 < size <= max_exact_capacity -> 0 <= h < size ->
  ascii_only bytes = true ->
  fold_left (hash_step size) bytes h =
    fold_left (fun h b => (h * 31 + uchar_val b) mod size) bytes h /\
  0 <= fold_left (hash_step size) bytes h < size.
Proof.
  intros Hs. revert h. induction bytes as [|c bytes IH]; intros h Hh Ha.
  - simpl. split; [reflexivity | exact Hh].
  - simpl in Ha. apply andb_true_iff in Ha as [Hc Ha].
    apply Z.ltb_lt in Hc.
    destruct (hash_step_exact size h c Hs Hh Hc) as [Heq Hr].
    simpl. rewrite <- Heq. apply IH; assumption.
Qed.

(** X1.  On fingerprints of 7-bit bytes and with at most
    [max_exact_capacity] buckets, [hash] computes the fold
    [(h * 31 + byte) mod capacity] over the bytes, and the result is a
    bucket index: it lies in [0, capacity). *)
Lemma hash_ascii_reference bytes capacity :
  0 < capacity <= max_exact_capacity -> ascii_only bytes = true ->
  hash (Some bytes) capacity = reference_hash bytes capacity /\
  0 <= hash (Some bytes) capacity < capacity.
Proof.
  intros Hc Ha. unfold hash, reference_hash.
  apply hash_fold_exact; [assumption | lia | assumption].
Qed.

(** X2.  Whatever the bytes of the fingerprint, the result of [hash] is
    smaller than the bucket count in magnitude: an index the callers use is
    never [capacity] or more, and never below [1 - capacity]. *)
Lemma hash_magnitude bytes capacity :
  0 < capacity -> - capacity < hash (Some bytes) capacity < capacity.
Proof.
  intros Hc. unfold hash.
  assert (Hgen : forall h, - capacity < h < capacity ->
            - capacity < fold_left (hash_step capacity) bytes h < capacity).
  { induction bytes as [|c bytes IH]; intros h Hh; simpl; [exact Hh|].
    apply IH. apply hash_step_magnitude. exact Hc. }
  apply Hgen. lia.
Qed.

(** A single byte from 0x80 up is hashed to a negative index as soon as
    there are more than 128 buckets. *)
Lemma hash_single_high_byte b capacity :
  128 < capacity -> 128 <= uchar_val b ->
  hash (Some [b]) capacity = uchar_val b - 256 /\
  hash (Some [b]) capacity < 0.
Proof.
  intros Hc Hb. pose proof (uchar_val_range b) as Hr.
  assert (Hv : char_val b = uchar_val b - 256).
  { unfold char_val, uchar_val in *.
    destruct (Z.ltb_spec (Z.of_N (Byte.to_N b)) 128); lia. }
  unfold hash. cbn [fold_left]. unfold hash_step.
  rewrite int_mul_small by (unfold int_min, int_max; lia).
  rewrite int_add_small by (unfold int_min, int_max; lia).
  rewrite Hv. replace (0 * 31 + (uchar_val b - 256)) with (uchar_val b - 256) by lia.
  assert (Hrem : Z.rem (uchar_val b - 256) capacity = uchar_val b - 256).
  { rewrite <- (Z.opp_involutive (uchar_val b - 256)).
    rewrite Z.rem_opp_l by lia. rewrite Z.rem_small by lia. reflexivity. }
  rewrite Hrem. split; [reflexivity | lia].
Qed.

(** C4.  The hash is not the reference fold on every fingerprint: with ten
    buckets the one-byte fingerprint 0xFF is read as the [char] -1, the
    remainder of -1 by 10 is -1, and the function returns -1, outside
    [0, capacity), where the reference fold gives 5. *)
Theorem hash_high_byte_is_negative :
  hash (Some [xff]) 10 = -1 /\
  reference_hash [xff] 10 = 5 /\
  ~ (0 <= hash (Some [xff]) 10 < 10).
Proof.
  assert (H : hash (Some [xff]) 10 = -1) by (vm_compute; reflexivity).
  split; [exact H|]. split; [vm_compute; reflexivity|].
  rewrite H. lia.
Qed.

Lemma hash_ascii_reference_witness :
  hash (Some [x47; x45; x54; x20; x2f]) 16
    = reference_hash [x47; x45; x54; x20; x2f] 16 /\
  0 <= hash (Some [x47; x45; x54; x20; x2f]) 16 < 16.
Proof.
  apply hash_ascii_reference; [unfold max_exact_capacity; lia | reflexivity].
Defined.

Lemma hash_magnitude_witness :
  - 1000 < hash (Some [xff; x80; x41]) 1000 < 1000.
Proof. exact (hash_magnitude [xff; x80; x41] 1000 ltac:(lia)). Defined.

End HashFacts.

(** * Facts about the cache *)

Module CacheFacts.
Import CInt CString Hash Cache.
Local Open Scope cache_scope.

Lemma with_nodes_id m : with_nodes m (nodes m) = m.
Proof. destruct m; reflexivity. Qed.

Lemma nodes_with_nodes m ns : nodes (with_nodes m ns) = ns.
Proof. reflexivity. Qed.

Lemma with_nodes_twice m ns ns' :
  with_nodes (with_nodes m ns) ns' = with_nodes m ns'.
Proof. reflexivity. Qed.

Lemma strncmp_refl s n : strncmp s s n = 0.
Proof.
  revert s. induction n as [|n IH]; intros s; simpl; [reflexivity|].
  rewrite (byte_dec_lb (eq_refl (hd x00 s))). simpl.
  destruct (Byte.eqb (hd x00 s) x00); [reflexivity | apply IH].
Qed.

Lemma same_request_refl e : same_request e (request e) = true.
Proof.
  unfold same_request. rewrite Nat.eqb_refl, strncmp_refl. reflexivity.
Qed.

Lemma load_eq m a n : nodes m !! a = Some (Some n) -> load a m = Ok (n, m).
Proof. intros H. unfold load. rewrite H. reflexivity. Qed.

Lemma store_eq m a n n' :
  nodes m !! a = Some (Some n) ->
  store a n' m = Ok (tt, with_nodes m (<[a := Some n']> (nodes m))).
Proof. intros H. unfold store. rewrite H. reflexivity. Qed.

Lemma lookup_stored m a (v : option cache_node_t) n :
  nodes m !! a = Some (Some n) ->
  nodes (with_nodes m (<[a := v]> (nodes m))) !! a = Some v.
Proof.
  intros H. cbn. apply list_lookup_insert_eq. eapply lookup_lt_Some, H.
Qed.

Lemma rdlock_eq m a n :
  nodes m !! a = Some (Some n) -> writer (rwlock n) = false ->
  pthread_rwlock_rdlock a m =
    Ok (tt, with_nodes m (<[a := Some (read_held n)]> (nodes m))).
Proof.
  intros H Hw. unfold pthread_rwlock_rdlock, bind.
  rewrite (load_eq _ _ _ H), Hw. apply (store_eq _ _ _ _ H).
Qed.

Lemma unlock_read_held_eq m a n v :
  nodes m !! a = Some (Some n) -> writer (rwlock n) = false ->
  rwlock v = rwlock n ->
  pthread_rwlock_unlock a (with_nodes m (<[a := Some (read_held v)]> (nodes m))) =
    Ok (tt, with_nodes m (<[a := Some v]> (nodes m))).
Proof.
  intros H Hw Hv. unfold pthread_rwlock_unlock, bind.
  assert (H1 : nodes (with_nodes m (<[a := Some (read_held v)]> (nodes m))) !! a
               = Some (Some (read_held v)))
    by (apply (lookup_stored _ _ _ _ H)).
  rewrite (load_eq _ _ _ H1). cbn [read_held set_rwlock rwlock writer readers].
  rewrite (store_eq _ _ _ _ H1).
  rewrite with_nodes_twice, nodes_with_nodes, list_insert_insert_eq.
  do 4 f_equal.
  destruct v as [e t l nx]; cbn in *. subst l. unfold set_rwlock; cbn.
  destruct (rwlock n) as [r w]; cbn in *. subst w. reflexivity.
Qed.

Lemma cache_get_loop_step fuel now req c m n :
  nodes m !! c = Some (Some n) -> writer (rwlock n) = false ->
  cache_get_loop (S fuel) now req (Some c) m =
    if same_request (entry n) req then
      Ok (Some (entry n),
          with_nodes m (<[c := Some (set_last_modified_time n now)]> (nodes m)))
    else cache_get_loop fuel now req (next n) m.
Proof.
  intros H Hw. cbn [cache_get_loop]. unfold bind at 1.
  rewrite (rdlock_eq _ _ _ H Hw). unfold bind at 1.
  rewrite (load_eq _ _ (read_held n)) by (apply (lookup_stored _ _ _ _ H)).
  cbn [read_held set_rwlock entry next].
  destruct (same_request (entry n) req).
  - unfold bind at 1.
    rewrite (store_eq _ _ (read_held n)) by (apply (lookup_stored _ _ _ _ H)).
    rewrite with_nodes_twice, nodes_with_nodes, list_insert_insert_eq.
    unfold bind.
    change (set_last_modified_time (read_held n) now)
      with (read_held (set_last_modified_time n now)).
    rewrite (unlock_read_held_eq m c n _ H Hw) by reflexivity.
    reflexivity.
  - unfold bind at 1.
    rewrite (unlock_read_held_eq m c n n H Hw) by reflexivity.
    rewrite (list_insert_id _ _ _ H), with_nodes_id. reflexivity.
Qed.

Lemma cache_get_loop_stuck fuel now req c m r :
  cache_get_loop fuel now req (Some c) m = Ok r ->
  exists n, nodes m !! c = Some (Some n) /\ writer (rwlock n) = false /\
            fuel <> O.
Proof.
  destruct fuel as [|fuel]; [discriminate|].
  intros H.
  cbn [cache_get_loop] in H.
  unfold bind at 1, pthread_rwlock_rdlock, bind, load in H.
  destruct (nodes m !! c) as [[n|]|] eqn:Hc; try discriminate.
  exists n. destruct (writer (rwlock n)) eqn:Hw; [discriminate|].
  auto.
Qed.

(** What a lookup that finds an entry has done: the entry is that of a
    live node with a matching request, and that node alone was written,
    its time stamp becoming [now]. *)
Lemma cache_get_loop_hit fuel now req curr m e m' :
  cache_get_loop fuel now req curr m = Ok (Some e, m') ->
  exists a n,
    nodes m !! a = Some (Some n) /\ entry n = e /\
    same_request e req = true /\
    m' = with_nodes m (<[a := Some (set_last_modified_time n now)]> (nodes m)).
Proof.
  revert curr. induction fuel as [|fuel IH]; intros curr H.
  - destruct curr; discriminate.
  - destruct curr as [c|]; [|discriminate].
    destruct (cache_get_loop_stuck _ _ _ _ _ _ H) as (n & Hc & Hw & _).
    rewrite (cache_get_loop_step _ _ _ _ _ _ Hc Hw) in H.
    destruct (same_request (entry n) req) eqn:Hs.
    + inversion H; subst. exists c, n. auto.
    + apply IH in H. exact H.
Qed.

Lemma cache_get_hit now cache req m e m' :
  cache_get now (Some cache) req m = Ok (Some e, m') ->
  exists a n,
    nodes m !! a = Some (Some n) /\ entry n = e /\
    same_request e req = true /\
    m' = with_nodes m (<[a := Some (set_last_modified_time n now)]> (nodes m)).
Proof.
  unfold cache_get, bind, array_load, node_count. intros H.
  destruct (hash (Some req) (capacity cache) <? 0); [discriminate|].
  destruct (array m !! Z.to_nat (hash (Some req) (capacity cache)));
    [|discriminate].
  eapply cache_get_loop_hit, H.
Qed.

Lemma lookup_fresh (ns : list (option cache_node_t)) v :
  (ns ++ [v]) !! length ns = Some v.
Proof. apply list_lookup_middle. reflexivity. Qed.

Lemma insert_fresh (ns : list (option cache_node_t)) v v' :
  <[length ns := v']> (ns ++ [v]) = ns ++ [v'].
Proof.
  rewrite insert_app_r_alt by lia. rewrite Nat.sub_diag. reflexivity.
Qed.

(** What a successful [cache_add] has done. *)
Lemma cache_add_ok room now cache e m m' :
  cache_add room now (Some cache) (Some e) m = Ok (SUCCESS, m') ->
  exists head,
    room = true /\
    0 <= hash (Some (request e)) (capacity cache) /\
    array m !! Z.to_nat (hash (Some (request e)) (capacity cache)) = Some head /\
    m' = {| array := <[Z.to_nat (hash (Some (request e)) (capacity cache))
                        := Some (length (nodes m))]> (array m);
            nodes := nodes m ++
                     [Some {| entry := e; last_modified_time := now;
                              rwlock := {| readers := O; writer := false |};
                              next := head |}];
            out := out m ++ ["Add new cache entry"%string] |}.
Proof.
  unfold cache_add, cache_node_create. destruct room.
  2:{ unfold bind, log, ret. cbn. discriminate. }
  unfold bind at 1. unfold bind at 1. unfold alloc, ret.
  set (idx := hash (Some (request e)) (capacity cache)).
  set (n0 := {| entry := e; last_modified_time := now;
                rwlock := {| readers := O; writer := false |}; next := None |}).
  unfold bind at 1. unfold pthread_rwlock_wrlock, bind at 1.
  set (m1 := with_nodes m (nodes m ++ [Some n0])).
  assert (H1 : nodes m1 !! length (nodes m) = Some (Some n0))
    by apply lookup_fresh.
  rewrite (load_eq _ _ _ H1). cbn [n0 rwlock writer readers].
  rewrite (store_eq _ _ _ _ H1). fold n0.
  unfold m1 at 1 2. rewrite with_nodes_twice, nodes_with_nodes, insert_fresh.
  unfold bind at 1, array_load. cbn [array with_nodes].
  destruct (Z.ltb_spec idx 0) as [Hneg|Hpos]; [discriminate|].
  destruct (array m !! Z.to_nat idx) as [head|] eqn:Hhead; [|discriminate].
  set (n1 := set_rwlock n0 {| readers := O; writer := true |}).
  set (m2 := with_nodes m (nodes m ++ [Some n1])).
  assert (H2 : nodes m2 !! length (nodes m) = Some (Some n1))
    by apply lookup_fresh.
  unfold bind at 1. rewrite (load_eq _ _ _ H2).
  unfold bind at 1. rewrite (store_eq _ _ _ _ H2).
  unfold m2 at 1 2. rewrite with_nodes_twice, nodes_with_nodes, insert_fresh.
  set (m3 := with_nodes m (nodes m ++ [Some (set_next n1 head)])).
  assert (H3 : nodes m3 !! length (nodes m) = Some (Some (set_next n1 head)))
    by apply lookup_fresh.
  unfold bind at 1, pthread_rwlock_unlock, bind at 1.
  rewrite (load_eq _ _ _ H3). cbn [n1 n0 set_next set_rwlock rwlock writer readers].
  rewrite (store_eq _ _ _ _ H3).
  unfold m3 at 1 2. rewrite with_nodes_twice, nodes_with_nodes, insert_fresh.
  unfold bind at 1, array_store. cbn [array with_nodes].
  destruct (Z.ltb_spec idx 0) as [Hneg|_]; [lia|].
  rewrite Hhead. unfold bind, log, ret. cbn.
  intros H. inversion H. exists head. auto.
Qed.

(** ** Lookup after insertion, and what a lookup writes *)

(** C6.  Right after [cache_add(cache, e)] has returned [SUCCESS],
    [cache_get(cache, e.request, e.request_len)] returns [e] itself: the new
    node heads its bucket and the lookup starts at the head, so the entry
    added last wins over any older entry with the same request. *)
Theorem cache_add_then_get room now now' cache e m m' :
  cache_add room now (Some cache) (Some e) m = Ok (SUCCESS, m') ->
  exists m'', cache_get now' (Some cache) (request e) m' = Ok (Some e, m'').
Proof.
  intros H. destruct (cache_add_ok _ _ _ _ _ _ H) as (head & _ & Hidx & Hhead & ->).
  unfold cache_get, bind at 1, array_load. cbn [array].
  destruct (Z.ltb_spec (hash (Some (request e)) (capacity cache)) 0); [lia|].
  rewrite list_lookup_insert_eq by (eapply lookup_lt_Some, Hhead).
  unfold bind at 1, node_count. cbn [nodes].
  rewrite length_app. cbn [length]. rewrite Nat.add_1_r.
  erewrite cache_get_loop_step;
    [| cbn [nodes]; apply lookup_fresh | reflexivity].
  cbn [entry]. rewrite same_request_refl. eexists. reflexivity.
Qed.

Lemma cache_add_then_get_witness :
  cache_add true CacheExamples.late (Some CacheExamples.one_bucket)
    (Some CacheExamples.entry_A') CacheExamples.mem_A
    = Ok (SUCCESS, CacheExamples.mem_twice_A) /\
  exists m'',
    cache_get CacheExamples.later (Some CacheExamples.one_bucket)
      (request CacheExamples.entry_A') CacheExamples.mem_twice_A
      = Ok (Some CacheExamples.entry_A', m'').
Proof.
  split; [vm_compute; reflexivity|].
  apply (cache_add_then_get true CacheExamples.late CacheExamples.later
           CacheExamples.one_bucket CacheExamples.entry_A'
           CacheExamples.mem_A CacheExamples.mem_twice_A).
  vm_compute; reflexivity.
Defined.

(** C7.  A [cache_get] that returns an entry has set the time stamp of the
    node it matched to the clock reading [now] of that call; the entry, the
    link and the lock of that node, every other node and the bucket array
    are as before.  From then on the age test of the collector on that
    node counts from [now]. *)
Theorem cache_get_stamps_matched_node now cache req m e m' :
  cache_get now (Some cache) req m = Ok (Some e, m') ->
  exists a n n',
    nodes m !! a = Some (Some n) /\ entry n = e /\
    same_request e req = true /\
    nodes m' !! a = Some (Some n') /\
    last_modified_time n' = now /\
    entry n' = e /\ next n' = next n /\ rwlock n' = rwlock n /\
    (forall b, b <> a -> nodes m' !! b = nodes m !! b) /\
    array m' = array m /\
    (forall c t, aged c t n' = (entry_expired_time_ms c <=? age_ms t now)).
Proof.
  intros H. destruct (cache_get_hit _ _ _ _ _ _ H) as (a & n & Ha & He & Hs & ->).
  exists a, n, (set_last_modified_time n now).
  repeat split; try assumption.
  - apply (lookup_stored _ _ _ _ Ha).
  - intros b Hb. cbn. apply list_lookup_insert_ne. congruence.
Qed.

Lemma cache_get_stamps_matched_node_witness :
  cache_get CacheExamples.later (Some CacheExamples.one_bucket) [x41]
    CacheExamples.mem_A
  = Ok (Some CacheExamples.entry_A,
        after (cache_get CacheExamples.later (Some CacheExamples.one_bucket) [x41])
          CacheExamples.mem_A) /\
  exists a n n',
    nodes CacheExamples.mem_A !! a = Some (Some n) /\
    entry n = CacheExamples.entry_A /\
    same_request CacheExamples.entry_A [x41] = true /\
    nodes (after (cache_get CacheExamples.later (Some CacheExamples.one_bucket) [x41])
             CacheExamples.mem_A) !! a = Some (Some n') /\
    last_modified_time n' = CacheExamples.later /\
    entry n' = CacheExamples.entry_A /\ next n' = next n /\
    rwlock n' = rwlock n /\
    (forall b, b <> a ->
       nodes (after (cache_get CacheExamples.later (Some CacheExamples.one_bucket) [x41])
                CacheExamples.mem_A) !! b
       = nodes CacheExamples.mem_A !! b) /\
    array (after (cache_get CacheExamples.later (Some CacheExamples.one_bucket) [x41])
             CacheExamples.mem_A)
    = array CacheExamples.mem_A /\
    (forall c t,
       aged c t n' = (entry_expired_time_ms c <=? age_ms t CacheExamples.later)).
Proof.
  split; [vm_compute; reflexivity|].
  apply (cache_get_stamps_matched_node CacheExamples.later
           CacheExamples.one_bucket [x41] CacheExamples.mem_A).
  vm_compute; reflexivity.
Defined.

(** ** Deleting the head of a chain *)

(** C1.  With one bucket, B added and then A, the chain reads A, B.
    [cache_delete] of A returns [SUCCESS] and destroys the node of A, but
    the bucket keeps pointing at the destroyed node: only the case "no
    successor" resets [array[index]].  The chain of the bucket is broken
    and the [cache_get] of B that follows reads freed memory.  In the
    other order (A added, then B) the node of A has a predecessor, is
    unlinked through it, and B stays retrievable. *)
Theorem cache_delete_head_keeps_bucket_pointer :
  bucket CacheExamples.mem_B_then_A 0 = Some [1%nat; 0%nat] /\
  (exists m',
     cache_delete (Some CacheExamples.one_bucket) [x41] CacheExamples.mem_B_then_A
       = Ok (SUCCESS, m') /\
     nodes m' !! 1%nat = Some None /\
     array m' !! 0%nat = Some (Some 1%nat) /\
     bucket m' 0 = None /\
     cache_get CacheExamples.later (Some CacheExamples.one_bucket) [x42] m' = Fault) /\
  (exists m',
     cache_delete (Some CacheExamples.one_bucket) [x41] CacheExamples.mem_A_then_B
       = Ok (SUCCESS, m') /\
     bucket m' 0 = Some [1%nat] /\
     exists m'',
       cache_get CacheExamples.later (Some CacheExamples.one_bucket) [x42] m'
         = Ok (Some CacheExamples.entry_B, m'')).
Proof.
  split; [vm_compute; reflexivity|]. split.
  - eexists. split; [vm_compute; reflexivity|].
    repeat split; vm_compute; reflexivity.
  - eexists. split; [vm_compute; reflexivity|].
    split; [vm_compute; reflexivity|].
    eexists. vm_compute; reflexivity.
Qed.

(** The same defect on any cache: when the first match heads a chain and
    has a successor, the call succeeds, frees the node and leaves the
    bucket array as it was. *)
Lemma cache_delete_head_with_successor cache m (k : nat) a n b :
  array m !! k = Some (Some a) ->
  nodes m !! a = Some (Some n) ->
  next n = Some b -> writer (rwlock n) = false ->
  hash (Some (request (entry n))) (capacity cache) = Z.of_nat k ->
  cache_delete (Some cache) (request (entry n)) m =
    Ok (SUCCESS,
        {| array := array m;
           nodes := <[a := None]> (nodes m);
           out := out m ++ ["Cache entry destroy"%string] |}).
Proof.
  intros Hk Ha Hnext Hw Hhash.
  unfold cache_delete. rewrite Hhash.
  unfold bind at 1, array_load.
  destruct (Z.ltb_spec (Z.of_nat k) 0); [lia|]. rewrite Nat2Z.id, Hk.
  unfold bind at 1, node_count.
  assert (Hlen : (a < length (nodes m))%nat) by (eapply lookup_lt_Some, Ha).
  destruct (length (nodes m)) as [|f] eqn:Hf; [lia|].
  cbn [cache_delete_loop].
  unfold bind at 1. rewrite (rdlock_eq _ _ _ Ha Hw).
  unfold bind at 1.
  rewrite (load_eq _ _ (read_held n)) by (apply (lookup_stored _ _ _ _ Ha)).
  cbn [read_held set_rwlock entry next]. rewrite same_request_refl, Hnext.
  unfold bind at 1, ret at 1. unfold bind at 1.
  rewrite (unlock_read_held_eq _ a n n Ha Hw) by reflexivity.
  rewrite (list_insert_id _ _ _ Ha), with_nodes_id.
  unfold bind at 1, cache_node_destroy, bind at 1.
  rewrite (load_eq _ _ _ Ha). unfold cache_entry_destroy, bind at 1, ret at 1.
  unfold free. rewrite Ha.
  unfold bind, log, ret. reflexivity.
Qed.

(** After it, every lookup in that bucket starts at the freed node. *)
Lemma cache_get_from_freed_head now cache m (k : nat) a req :
  array m !! k = Some (Some a) ->
  nodes m !! a = Some None ->
  hash (Some req) (capacity cache) = Z.of_nat k ->
  cache_get now (Some cache) req m = Fault.
Proof.
  intros Hk Ha Hhash. unfold cache_get. rewrite Hhash.
  unfold bind at 1, array_load.
  destruct (Z.ltb_spec (Z.of_nat k) 0); [lia|]. rewrite Nat2Z.id, Hk.
  unfold bind at 1, node_count.
  assert (Hlen : (a < length (nodes m))%nat) by (eapply lookup_lt_Some, Ha).
  destruct (length (nodes m)) as [|f] eqn:Hf; [lia|].
  cbn [cache_get_loop].
  unfold bind at 1, pthread_rwlock_rdlock, bind at 1, load. rewrite Ha.
  reflexivity.
Qed.

(** ** The age the collector computes *)

(** On time stamps as [gettimeofday] yields them nothing wraps around. *)
Lemma age_ms_exact now t :
  timeval_ok now -> timeval_ok t ->
  age_ms now t =
    (tv_sec now - tv_sec t) * 1000 + Z.quot (tv_usec now - tv_usec t) 1000.
Proof.
  unfold timeval_ok, age_ms, long_add, long_sub, long_mul, int_sub.
  intros [Hs Hu] [Hs' Hu'].
  change (2 ^ 40) with 1099511627776 in *.
  assert (Hq : -1000 < Z.quot (tv_usec now - tv_usec t) 1000 < 1000).
  { split.
    - apply Z.lt_le_trans with (Z.quot (-999999) 1000); [reflexivity|].
      apply Z.quot_le_mono; lia.
    - apply Z.le_lt_trans with (Z.quot 999999 1000); [|reflexivity].
      apply Z.quot_le_mono; lia. }
  rewrite (CIntFacts.int_small (tv_usec now - tv_usec t))
    by (change (2 ^ 31) with 2147483648; lia).
  rewrite (CIntFacts.long_small (tv_sec now - tv_sec t))
    by (change (2 ^ 63) with 9223372036854775808; lia).
  rewrite (CIntFacts.long_small ((tv_sec now - tv_sec t) * 1000))
    by (change (2 ^ 63) with 9223372036854775808; lia).
  apply CIntFacts.long_small. change (2 ^ 63) with 9223372036854775808. lia.
Qed.

(** The computed age is the elapsed time in whole milliseconds, rounded
    toward zero on the microsecond part alone: never below the true
    figure rounded down, and less than one millisecond above it. *)
Lemma age_ms_bounds now t :
  timeval_ok now -> timeval_ok t ->
  1000 * age_ms now t <= elapsed_usec now t + 999 /\
  elapsed_usec now t - 999 <= 1000 * age_ms now t.
Proof.
  intros Hn Ht. rewrite (age_ms_exact _ _ Hn Ht). unfold elapsed_usec.
  set (ds := tv_sec now - tv_sec t). set (du := tv_usec now - tv_usec t).
  pose proof (Z.quot_rem' du 1000) as Hqr.
  assert (Hr : -1000 < Z.rem du 1000 < 1000).
  { assert (Hb := Z.rem_bound_abs du 1000). lia. }
  lia.
Qed.

(** C10, as stated, fails: a node stamped at 0 s 999999 us passes the test
    of a collector with [expiry_ms = 1000] at 1 s 999000 us, 999.001 ms
    after its insertion. *)
Lemma aged_before_expiry : ~ eligible_exactly_at_expiry.
Proof.
  intros Hclaim.
  specialize (Hclaim CacheExamples.one_bucket
                {| tv_sec := 1; tv_usec := 999000 |}
                {| entry := CacheExamples.entry_A;
                   last_modified_time := {| tv_sec := 0; tv_usec := 999999 |};
                   rwlock := {| readers := O; writer := false |};
                   next := None |}).
  assert (H : 1000 * entry_expired_time_ms CacheExamples.one_bucket <=
              elapsed_usec {| tv_sec := 1; tv_usec := 999000 |}
                           {| tv_sec := 0; tv_usec := 999999 |}).
  { apply Hclaim.
    - unfold timeval_ok; cbn; lia.
    - unfold timeval_ok; cbn; lia.
    - vm_compute; reflexivity. }
  vm_compute in H. apply H. reflexivity.
Qed.

(** C10, amended.  The node [cache_add] creates carries the clock reading
    of the call as its time stamp.  Measured from that reading, the node
    passes the test of the collector at every instant from [expiry_ms] on,
    and at no instant up to [expiry_ms - 1] milliseconds; in the
    millisecond between, the test passes or not according to the rounding
    of the microsecond difference. *)
Theorem fresh_node_ages_from_insertion room t_ins cache e m m' :
  cache_add room t_ins (Some cache) (Some e) m = Ok (SUCCESS, m') ->
  exists a n,
    array m' !! Z.to_nat (hash (Some (request e)) (capacity cache)) = Some (Some a) /\
    nodes m' !! a = Some (Some n) /\
    entry n = e /\
    last_modified_time n = t_ins /\
    forall now,
      timeval_ok t_ins -> timeval_ok now ->
      (1000 * entry_expired_time_ms cache <= elapsed_usec now t_ins ->
       aged cache now n = true) /\
      (aged cache now n = true ->
       1000 * (entry_expired_time_ms cache - 1) < elapsed_usec now t_ins).
Proof.
  intros H. destruct (cache_add_ok _ _ _ _ _ _ H) as (head & _ & Hidx & Hhead & ->).
  eexists (length (nodes m)), _. cbn [array nodes].
  split; [apply list_lookup_insert_eq; eapply lookup_lt_Some, Hhead|].
  split; [apply lookup_fresh|].
  split; [reflexivity|]. split; [reflexivity|].
  intros now Ht Hn. unfold aged. cbn [last_modified_time].
  destruct (age_ms_bounds now t_ins Hn Ht) as [Hup Hlow].
  split; intros Hx.
  - apply Z.leb_le. lia.
  - apply Z.leb_le in Hx. lia.
Qed.

Lemma fresh_node_ages_from_insertion_witness :
  cache_add true CacheExamples.late (Some CacheExamples.one_bucket)
    (Some CacheExamples.entry_A') CacheExamples.mem_A
    = Ok (SUCCESS, CacheExamples.mem_twice_A) /\
  exists a n,
    array CacheExamples.mem_twice_A
      !! Z.to_nat (hash (Some (request CacheExamples.entry_A'))
                     (capacity CacheExamples.one_bucket)) = Some (Some a) /\
    nodes CacheExamples.mem_twice_A !! a = Some (Some n) /\
    entry n = CacheExamples.entry_A' /\
    last_modified_time n = CacheExamples.late /\
    forall now,
      timeval_ok CacheExamples.late -> timeval_ok now ->
      (1000 * entry_expired_time_ms CacheExamples.one_bucket
         <= elapsed_usec now CacheExamples.late ->
       aged CacheExamples.one_bucket now n = true) /\
      (aged CacheExamples.one_bucket now n = true ->
       1000 * (entry_expired_time_ms CacheExamples.one_bucket - 1)
         < elapsed_usec now CacheExamples.late).
Proof.
  split; [vm_compute; reflexivity|].
  apply (fresh_node_ages_from_insertion true CacheExamples.late
           CacheExamples.one_bucket CacheExamples.entry_A'
           CacheExamples.mem_A CacheExamples.mem_twice_A).
  vm_compute; reflexivity.
Defined.

(** ** The collector on a settled cache *)

Lemma same_but_readers_refl n : same_but_readers n n.
Proof. unfold same_but_readers. auto. Qed.

Lemma same_but_readers_trans n1 n2 n3 :
  same_but_readers n1 n2 -> same_but_readers n2 n3 -> same_but_readers n1 n3.
Proof.
  unfold same_but_readers. intros (? & ? & ? & ?) (? & ? & ? & ?).
  repeat split; congruence.
Qed.

Lemma same_but_readers_read_held n :
  writer (rwlock n) = false -> same_but_readers n (read_held n).
Proof. unfold same_but_readers. cbn. auto. Qed.

Lemma chain_None fuel ns : chain fuel ns None = Some [].
Proof. destruct fuel; reflexivity. Qed.

Lemma chain_cons fuel ns p a l :
  chain fuel ns p = Some (a :: l) ->
  exists f n, fuel = S f /\ p = Some a /\ ns !! a = Some (Some n) /\
              chain f ns (next n) = Some l.
Proof.
  destruct p as [c|]; [|rewrite chain_None; discriminate].
  destruct fuel as [|f]; cbn; [discriminate|].
  destruct (ns !! c) as [[n|]|] eqn:E; try discriminate.
  destruct (chain f ns (next n)) as [l'|] eqn:E'; [|discriminate].
  cbn. intros H. inversion H; subst. exists f, n. auto.
Qed.

Lemma chain_nil fuel ns p : chain fuel ns p = Some [] -> p = None.
Proof.
  destruct p as [c|]; [|reflexivity].
  destruct fuel as [|f]; cbn; [discriminate|].
  destruct (ns !! c) as [[n|]|]; try discriminate.
  destruct (chain f ns (next n)); discriminate.
Qed.

Lemma chain_length fuel ns p l :
  chain fuel ns p = Some l -> (length l <= fuel)%nat.
Proof.
  revert p l. induction fuel as [|f IH]; intros p l H.
  - destruct p; [discriminate|]. inversion H. cbn. lia.
  - destruct l as [|a l]; [cbn; lia|].
    destruct (chain_cons _ _ _ _ _ H) as (f' & n & Hf & _ & _ & Hrest).
    inversion Hf; subst f'. apply IH in Hrest. cbn. lia.
Qed.

(** A chain is read off the links of its own nodes. *)
Lemma chain_transfer fuel ns ns' p l :
  chain fuel ns p = Some l ->
  (forall a n, In a l -> ns !! a = Some (Some n) ->
     exists n', ns' !! a = Some (Some n') /\ next n' = next n) ->
  chain fuel ns' p = Some l.
Proof.
  revert p l. induction fuel as [|f IH]; intros p l H Hsame.
  - destruct p; [discriminate|]. exact H.
  - destruct l as [|a l].
    + rewrite (chain_nil _ _ _ H). apply chain_None.
    + destruct (chain_cons _ _ _ _ _ H) as (f' & n & Hf & -> & Ha & Hrest).
      inversion Hf; subst f'.
      destruct (Hsame a n (or_introl eq_refl) Ha) as (n' & Ha' & Hnext).
      cbn. rewrite Ha', Hnext.
      rewrite (IH _ _ Hrest); [reflexivity|].
      intros b nb Hb. apply Hsame. right. exact Hb.
Qed.

Lemma readable_live m a :
  readable m a = true ->
  exists n, nodes m !! a = Some (Some n) /\ writer (rwlock n) = false.
Proof.
  unfold readable. destruct (nodes m !! a) as [[n|]|]; try discriminate.
  intros H. exists n. split; [reflexivity|]. apply negb_true_iff, H.
Qed.

Lemma readable_kept m m' a :
  readable m a = true -> kept m m' a -> readable m' a = true.
Proof.
  intros H Hk. destruct (readable_live _ _ H) as (n & Ha & Hw).
  destruct (Hk n Ha) as (n' & Ha' & _ & _ & _ & Hw').
  unfold readable. rewrite Ha'. apply negb_true_iff. congruence.
Qed.

Lemma aged_at_kept cache now m m' a n :
  nodes m !! a = Some (Some n) -> kept m m' a ->
  aged_at cache now m' a = aged cache now n.
Proof.
  intros Ha Hk. destruct (Hk n Ha) as (n' & Ha' & _ & Ht & _ & _).
  unfold aged_at. rewrite Ha'. unfold aged. rewrite Ht. reflexivity.
Qed.

(** The three calls the collector makes on a node to read its link. *)
Lemma gc_visit (k : cache_node_t -> M unit) m c n :
  nodes m !! c = Some (Some n) -> writer (rwlock n) = false ->
  (pthread_rwlock_rdlock c ;;
   n' <- load c ;;
   pthread_rwlock_unlock c ;;
   k n') m = k (read_held n) m.
Proof.
  intros H Hw. unfold bind at 1. rewrite (rdlock_eq _ _ _ H Hw).
  unfold bind at 1.
  rewrite (load_eq _ _ (read_held n)) by (apply (lookup_stored _ _ _ _ H)).
  unfold bind at 1.
  rewrite (unlock_read_held_eq m c n n H Hw) by reflexivity.
  rewrite (list_insert_id _ _ _ H), with_nodes_id. reflexivity.
Qed.

(** One round of the inner loop: [cache_delete] is called on the request
    of the node exactly when the node passes the age test; either way the
    loop goes on with the link read before the call. *)
Lemma gc_scan_chain_step cache now f c n m :
  nodes m !! c = Some (Some n) -> writer (rwlock n) = false ->
  gc_scan_chain (S f) cache now (Some c) m =
    if aged cache now n
    then (_ <- cache_delete (Some cache) (request (entry n)) ;;
          gc_scan_chain f cache now (next n)) m
    else gc_scan_chain f cache now (next n) m.
Proof.
  intros Hc Hw. cbn [gc_scan_chain]. unfold bind at 1.
  rewrite (load_eq _ _ _ Hc). unfold aged.
  destruct (entry_expired_time_ms cache <=? age_ms now (last_modified_time n)).
  - rewrite (gc_visit
               (fun n' => _ <- cache_delete (Some cache) (request (entry n')) ;;
                          gc_scan_chain f cache now (next n')) m c n Hc Hw).
    reflexivity.
  - rewrite (gc_visit (fun n' => gc_scan_chain f cache now (next n')) m c n Hc Hw).
    reflexivity.
Qed.

(** A chain without an aged node is walked to its end and left as it is. *)
Lemma gc_scan_chain_young cache now fuel : forall l m curr,
  chain fuel (nodes m) curr = Some l ->
  forallb (readable m) l = true ->
  forallb (fun a => negb (aged_at cache now m a)) l = true ->
  gc_scan_chain fuel cache now curr m = Ok (tt, m).
Proof.
  induction fuel as [|f IH]; intros l m curr Hchain Hread Hyoung.
  - destruct curr; [discriminate|]. reflexivity.
  - destruct l as [|c l].
    + rewrite (chain_nil _ _ _ Hchain). reflexivity.
    + destruct (chain_cons _ _ _ _ _ Hchain) as (f' & n & Hf & -> & Hc & Hrest).
      inversion Hf; subst f'.
      cbn [forallb] in Hread, Hyoung.
      apply andb_true_iff in Hread as [Hrc Hread].
      apply andb_true_iff in Hyoung as [Hyc Hyoung].
      destruct (readable_live _ _ Hrc) as (n0 & Hc0 & Hw).
      rewrite Hc in Hc0. inversion Hc0; subst n0.
      unfold aged_at in Hyc. rewrite Hc in Hyc. apply negb_true_iff in Hyc.
      unfold aged in Hyc.
      rewrite (gc_scan_chain_step _ _ _ _ _ _ Hc Hw). unfold aged.
      rewrite Hyc. apply (IH l); assumption.
Qed.

Lemma array_load_eq m (k : nat) p :
  array m !! k = Some p -> array_load (Z.of_nat k) m = Ok (p, m).
Proof.
  intros H. unfold array_load.
  destruct (Z.ltb_spec (Z.of_nat k) 0); [lia|].
  rewrite Nat2Z.id, H. reflexivity.
Qed.

Lemma array_store_eq m (k : nat) p q :
  array m !! k = Some p ->
  array_store (Z.of_nat k) q m = Ok (tt, with_array m (<[k := q]> (array m))).
Proof.
  intros H. unfold array_store.
  destruct (Z.ltb_spec (Z.of_nat k) 0); [lia|].
  rewrite Nat2Z.id, H. reflexivity.
Qed.

(** [cache_delete] of the request of a node that is alone in its bucket:
    the bucket is emptied and the node destroyed. *)
Lemma cache_delete_single cache m (k : nat) a n :
  array m !! k = Some (Some a) ->
  nodes m !! a = Some (Some n) ->
  next n = None -> writer (rwlock n) = false ->
  hash (Some (request (entry n))) (capacity cache) = Z.of_nat k ->
  cache_delete (Some cache) (request (entry n)) m =
    Ok (SUCCESS,
        {| array := <[k := None]> (array m);
           nodes := <[a := None]> (nodes m);
           out := out m ++ ["Cache entry destroy"%string] |}).
Proof.
  intros Hk Ha Hnext Hw Hhash.
  unfold cache_delete. rewrite Hhash.
  unfold bind at 1. rewrite (array_load_eq _ _ _ Hk).
  unfold bind at 1, node_count.
  assert (Hlen : (a < length (nodes m))%nat) by (eapply lookup_lt_Some, Ha).
  destruct (length (nodes m)) as [|f] eqn:Hf; [lia|].
  cbn [cache_delete_loop].
  unfold bind at 1. rewrite (rdlock_eq _ _ _ Ha Hw).
  unfold bind at 1.
  rewrite (load_eq _ _ (read_held n)) by (apply (lookup_stored _ _ _ _ Ha)).
  cbn [read_held set_rwlock entry next]. rewrite same_request_refl, Hnext.
  unfold bind at 1.
  rewrite (array_store_eq _ k (Some a)) by exact Hk.
  unfold bind at 1.
  change (with_array (with_nodes m ?ns) ?arr)
    with (with_nodes (with_array m arr) ns).
  change (array (with_nodes m ?ns)) with (array m).
  assert (Ha' : nodes (with_array m (<[k:=None]> (array m))) !! a = Some (Some n))
    by exact Ha.
  change (<[a:=Some (read_held n)]> (nodes m))
    with (<[a:=Some (read_held n)]> (nodes (with_array m (<[k:=None]> (array m))))).
  rewrite (unlock_read_held_eq _ a n n Ha' Hw) by reflexivity.
  rewrite (list_insert_id _ _ _ Ha'), with_nodes_id.
  unfold bind at 1, cache_node_destroy, bind at 1.
  rewrite (load_eq _ _ _ Ha'). unfold cache_entry_destroy, bind at 1, ret at 1.
  unfold free. rewrite Ha'.
  unfold bind, log, ret. reflexivity.
Qed.

(** The round of the collector on an empty bucket. *)
Lemma gc_scan_bucket_empty cache now m (k : nat) :
  array m !! k = Some None ->
  gc_scan_bucket cache now (Z.of_nat k) m = Ok (tt, m).
Proof.
  intros Hk. unfold gc_scan_bucket, bind at 1.
  rewrite (array_load_eq _ _ _ Hk). reflexivity.
Qed.

Lemma kept_after_read_hold m h n a :
  nodes m !! h = Some (Some n) -> writer (rwlock n) = false ->
  kept m (with_nodes m (<[h := Some (read_held n)]> (nodes m))) a.
Proof.
  intros Hh Hw n0 Ha. destruct (Nat.eq_dec a h) as [->|Hne].
  - rewrite Hh in Ha. inversion Ha; subst n0.
    exists (read_held n). split; [apply (lookup_stored _ _ _ _ Hh)|].
    apply same_but_readers_read_held, Hw.
  - exists n0. split; [|apply same_but_readers_refl].
    cbn. rewrite list_lookup_insert_ne by congruence. exact Ha.
Qed.

Lemma chain_kept fuel m m' p l :
  chain fuel (nodes m) p = Some l ->
  (forall a, In a l -> kept m m' a) ->
  chain fuel (nodes m') p = Some l.
Proof.
  intros Hchain Hkept. apply (chain_transfer _ _ _ _ _ Hchain).
  intros a n Hin Ha. destruct (Hkept a Hin n Ha) as (n' & Ha' & _ & _ & Hn & _).
  exists n'. auto.
Qed.

Lemma readable_all_kept m m' l :
  forallb (readable m) l = true ->
  (forall a, In a l -> kept m m' a) ->
  forallb (readable m') l = true.
Proof.
  rewrite !forallb_forall. intros H Hkept a Hin.
  apply (readable_kept m); auto.
Qed.

Lemma young_all_kept cache now m m' l :
  forallb (readable m) l = true ->
  forallb (fun a => negb (aged_at cache now m a)) l = true ->
  (forall a, In a l -> kept m m' a) ->
  forallb (fun a => negb (aged_at cache now m' a)) l = true.
Proof.
  rewrite !forallb_forall. intros Hread H Hkept a Hin.
  destruct (readable_live _ _ (Hread a Hin)) as (n & Ha & _).
  rewrite (aged_at_kept cache now m m' a n Ha (Hkept a Hin)).
  specialize (H a Hin). unfold aged_at in H. rewrite Ha in H. exact H.
Qed.

(** The round of the collector on a bucket without an aged node: the head
    keeps one read hold more, nothing else changes. *)
Lemma gc_scan_bucket_young cache now m (k : nat) h n l :
  array m !! k = Some (Some h) ->
  nodes m !! h = Some (Some n) ->
  chain (length (nodes m)) (nodes m) (Some h) = Some l ->
  forallb (readable m) l = true ->
  forallb (fun a => negb (aged_at cache now m a)) l = true ->
  gc_scan_bucket cache now (Z.of_nat k) m =
    Ok (tt, with_nodes m (<[h := Some (read_held n)]> (nodes m))).
Proof.
  intros Hk Hh Hchain Hread Hyoung.
  destruct l as [|a l']; [apply chain_nil in Hchain; discriminate|].
  destruct (chain_cons _ _ _ _ _ Hchain) as (f & n0 & _ & Hp & _ & _).
  inversion Hp; subst a.
  assert (Hw : writer (rwlock n) = false).
  { cbn [forallb] in Hread. apply andb_true_iff in Hread as [Hrh _].
    destruct (readable_live _ _ Hrh) as (n1 & Hh1 & Hw).
    rewrite Hh in Hh1. inversion Hh1; subst n1. exact Hw. }
  unfold gc_scan_bucket, bind at 1. rewrite (array_load_eq _ _ _ Hk).
  unfold bind at 1. rewrite (rdlock_eq _ _ _ Hh Hw).
  unfold bind at 1, node_count.
  set (m1 := with_nodes m (<[h:=Some (read_held n)]> (nodes m))).
  assert (Hkept : forall a, In a (h :: l') -> kept m m1 a)
    by (intros a _; apply kept_after_read_hold; assumption).
  apply (gc_scan_chain_young cache now _ (h :: l')).
  - unfold m1 at 1. rewrite nodes_with_nodes, length_insert.
    apply (chain_kept _ m); assumption.
  - apply (readable_all_kept m); assumption.
  - apply (young_all_kept cache now m); assumption.
Qed.

(** The round of the collector on a bucket that is one aged node: the
    node is destroyed through [cache_delete] and the bucket emptied. *)
Lemma gc_scan_bucket_aged cache now m (k : nat) a n :
  array m !! k = Some (Some a) ->
  nodes m !! a = Some (Some n) ->
  next n = None -> writer (rwlock n) = false ->
  aged cache now n = true ->
  hash (Some (request (entry n))) (capacity cache) = Z.of_nat k ->
  gc_scan_bucket cache now (Z.of_nat k) m =
    Ok (tt,
        {| array := <[k := None]> (array m);
           nodes := <[a := None]> (nodes m);
           out := out m ++ ["Cache entry destroy"%string] |}).
Proof.
  intros Hk Ha Hnext Hw Haged Hhash.
  unfold gc_scan_bucket, bind at 1. rewrite (array_load_eq _ _ _ Hk).
  unfold bind at 1. rewrite (rdlock_eq _ _ _ Ha Hw).
  unfold bind at 1, node_count.
  set (m1 := with_nodes m (<[a:=Some (read_held n)]> (nodes m))).
  assert (Ha1 : nodes m1 !! a = Some (Some (read_held n)))
    by (apply (lookup_stored _ _ _ _ Ha)).
  assert (Hlen : (a < length (nodes m1))%nat) by (eapply lookup_lt_Some, Ha1).
  destruct (length (nodes m1)) as [|f] eqn:Hf; [lia|].
  cbn [gc_scan_chain]. unfold bind at 1. rewrite (load_eq _ _ _ Ha1).
  cbn [read_held set_rwlock last_modified_time].
  unfold aged in Haged. rewrite Haged.
  rewrite (gc_visit
             (fun n' => _ <- cache_delete (Some cache) (request (entry n')) ;;
                        gc_scan_chain f cache now (next n'))
             m1 a (read_held n) Ha1 eq_refl).
  cbn [read_held set_rwlock entry next]. unfold bind at 1.
  change (entry n) with (entry (read_held n)).
  rewrite (cache_delete_single cache m1 k a (read_held n) Hk Ha1 Hnext eq_refl Hhash).
  rewrite Hnext. destruct f; cbn [gc_scan_chain]; unfold ret;
    unfold m1; cbn [array nodes out with_nodes];
    rewrite list_insert_insert_eq; reflexivity.
Qed.

(** *** The loop over the buckets *)

Lemma bucket_settled_cases cache now m k :
  bucket_settled cache now m k = true ->
  exists head l,
    array m !! k = Some head /\
    chain (length (nodes m)) (nodes m) head = Some l /\
    forallb (readable m) l = true /\
    (forallb (fun a => negb (aged_at cache now m a)) l = true \/
     exists a, l = [a] /\ aged_at cache now m a = true /\
               files_under cache m k a = true).
Proof.
  unfold bucket_settled, bucket.
  destruct (array m !! k) as [head|]; [|discriminate].
  destruct (chain (length (nodes m)) (nodes m) head) as [l|] eqn:Hchain;
    [|discriminate].
  intros H. apply andb_true_iff in H as [Hread H].
  exists head, l. split; [reflexivity|]. split; [exact Hchain|].
  split; [exact Hread|].
  apply orb_true_iff in H as [H|H]; [left; exact H|right].
  destruct l as [|a [|b l]]; try discriminate.
  apply andb_true_iff in H as [H1 H2]. exists a. auto.
Qed.

Lemma aged_at_live cache now m a :
  aged_at cache now m a = true ->
  exists n, nodes m !! a = Some (Some n) /\ aged cache now n = true.
Proof.
  unfold aged_at. destruct (nodes m !! a) as [[n|]|]; try discriminate.
  intros H. exists n. auto.
Qed.

Lemma files_under_live cache m k a n :
  nodes m !! a = Some (Some n) -> files_under cache m k a = true ->
  hash (Some (request (entry n))) (capacity cache) = Z.of_nat k.
Proof.
  unfold files_under. intros ->. apply Z.eqb_eq.
Qed.

Lemma gone_by_step cache now m k mk mk' a n :
  gone_by cache now m k mk a n ->
  nodes mk' !! a = nodes mk !! a ->
  gone_by cache now m (S k) mk' a n.
Proof.
  intros (Haged & Hgone & j & Hj & Hb) Heq. split; [exact Haged|].
  split; [congruence|]. exists j. split; [lia | exact Hb].
Qed.

Section SettledCache.

Variables (cache : cache_t) (now : timeval) (m : mem).

Hypothesis Hsettled :
  forall k, (k < length (array m))%nat -> bucket_settled cache now m k = true.

(** A node that has not aged is never destroyed. *)
Lemma young_is_kept k mk a n :
  gc_inv cache now m k mk ->
  nodes m !! a = Some (Some n) -> aged cache now n = false ->
  exists n', nodes mk !! a = Some (Some n') /\ same_but_readers n n'.
Proof.
  intros Hinv Ha Hyoung.
  destruct (inv_fate _ _ _ _ _ Hinv a n Ha) as [Hk|(Haged & _)];
    [exact Hk | congruence].
Qed.

Lemma young_chain_kept k mk l :
  gc_inv cache now m k mk ->
  forallb (readable m) l = true ->
  forallb (fun a => negb (aged_at cache now m a)) l = true ->
  forall a, In a l -> kept m mk a.
Proof.
  rewrite !forallb_forall. intros Hinv Hread Hyoung a Hin n Ha.
  apply (young_is_kept k mk a n Hinv Ha).
  specialize (Hyoung a Hin). unfold aged_at in Hyoung. rewrite Ha in Hyoung.
  apply negb_true_iff, Hyoung.
Qed.

(** The aged node alone in a bucket still to come has not been destroyed
    on behalf of an earlier bucket: it is filed under one bucket only. *)
Lemma aged_single_is_kept k mk a n :
  gc_inv cache now m k mk -> (k < length (array m))%nat ->
  nodes m !! a = Some (Some n) ->
  files_under cache m k a = true ->
  exists n', nodes mk !! a = Some (Some n') /\ same_but_readers n n'.
Proof.
  intros Hinv Hk Ha Hfile.
  destruct (inv_fate _ _ _ _ _ Hinv a n Ha) as [Hkept|(Haged & _ & j & Hj & Hb)];
    [exact Hkept|exfalso].
  assert (Hsj := Hsettled j ltac:(lia)).
  destruct (bucket_settled_cases _ _ _ _ Hsj)
    as (head & l & Hhead & Hchain & _ & Hcase).
  unfold bucket in Hb. rewrite Hhead, Hchain in Hb. inversion Hb; subst l.
  destruct Hcase as [Hyoung|(b & Hb' & _ & Hfile')].
  - cbn in Hyoung. unfold aged_at in Hyoung. rewrite Ha, Haged in Hyoung.
    discriminate.
  - inversion Hb'; subst b.
    apply (files_under_live _ _ _ _ _ Ha) in Hfile, Hfile'. lia.
Qed.

Lemma gc_inv_start : gc_inv cache now m 0 m.
Proof.
  split.
  - reflexivity.
  - reflexivity.
  - intros j _. reflexivity.
  - intros a n Ha. left. exists n. split; [exact Ha|].
    apply same_but_readers_refl.
  - intros j Hj. lia.
Qed.

(** One round of the loop keeps the invariant. *)
Lemma gc_scan_bucket_inv k mk :
  gc_inv cache now m k mk -> (k < length (array m))%nat ->
  exists mk',
    gc_scan_bucket cache now (Z.of_nat k) mk = Ok (tt, mk') /\
    gc_inv cache now m (S k) mk'.
Proof.
  intros Hinv Hk.
  destruct (bucket_settled_cases _ _ _ _ (Hsettled k Hk))
    as (head & l & Hhead & Hchain & Hread & Hcase).
  assert (Hheadk : array mk !! k = Some head)
    by (rewrite (inv_array_rest _ _ _ _ _ Hinv k); [exact Hhead | lia]).
  assert (Hbucket : bucket m k = Some l)
    by (unfold bucket; rewrite Hhead; exact Hchain).
  destruct Hcase as [Hyoung|(a & -> & Haged & Hfile)].
  - (* no aged node in the bucket *)
    assert (Hkept := young_chain_kept k mk l Hinv Hread Hyoung).
    destruct head as [h|].
    + destruct l as [|a l']; [apply chain_nil in Hchain; discriminate|].
      destruct (chain_cons _ _ _ _ _ Hchain) as (f & n & _ & Hp & Hh & _).
      inversion Hp; subst a.
      destruct (Hkept h (or_introl eq_refl) n Hh) as (nk & Hhk & Hsame).
      assert (Hwk : writer (rwlock nk) = false).
      { assert (Hr : readable mk h = true).
        { apply (readable_kept m); [|apply Hkept; left; reflexivity].
          cbn [forallb] in Hread. apply andb_true_iff in Hread. tauto. }
        destruct (readable_live _ _ Hr) as (n1 & H1 & Hw).
        rewrite Hhk in H1. inversion H1; subst n1. exact Hw. }
      eexists. split.
      * apply (gc_scan_bucket_young cache now mk k h nk (h :: l')).
        -- exact Hheadk.
        -- exact Hhk.
        -- rewrite (inv_nodes_length _ _ _ _ _ Hinv).
           apply (chain_kept _ m); assumption.
        -- apply (readable_all_kept m); assumption.
        -- apply (young_all_kept cache now m); assumption.
      * split; cbn [array nodes with_nodes].
        -- apply (inv_array_length _ _ _ _ _ Hinv).
        -- rewrite length_insert. apply (inv_nodes_length _ _ _ _ _ Hinv).
        -- intros j Hj. apply (inv_array_rest _ _ _ _ _ Hinv). lia.
        -- intros b nb Hb. destruct (Nat.eq_dec b h) as [->|Hne].
           ++ left. rewrite Hh in Hb. inversion Hb; subst nb.
              exists (read_held nk).
              split; [apply list_lookup_insert_eq; eapply lookup_lt_Some, Hhk|].
              apply (same_but_readers_trans _ nk); [exact Hsame|].
              apply same_but_readers_read_held, Hwk.
           ++ destruct (inv_fate _ _ _ _ _ Hinv b nb Hb) as [(n' & Hb' & Hs)|Hgone].
              ** left. exists n'. split; [|exact Hs].
                 rewrite list_lookup_insert_ne by congruence. exact Hb'.
              ** right. apply (gone_by_step _ _ _ _ mk); [exact Hgone|].
                 cbn. apply list_lookup_insert_ne. congruence.
        -- intros j Hj. destruct (Nat.eq_dec j k) as [->|Hne].
           ++ unfold bucket_done. rewrite Hbucket, Hyoung.
              cbn [array with_nodes].
              apply (inv_array_rest _ _ _ _ _ Hinv). lia.
           ++ assert (Hdone := inv_done _ _ _ _ _ Hinv j ltac:(lia)).
              unfold bucket_done in *. destruct (bucket m j) as [lj|]; [|exact I].
              destruct (forallb _ lj); [exact Hdone|].
              intros b Hb. destruct (Hdone b Hb) as [Hgone Harr].
              split; [|exact Harr]. cbn.
              rewrite list_lookup_insert_ne; [exact Hgone|].
              intros ->. congruence.
    + rewrite (chain_None) in Hchain. inversion Hchain; subst l.
      exists mk. split; [apply gc_scan_bucket_empty, Hheadk|].
      split.
      * apply (inv_array_length _ _ _ _ _ Hinv).
      * apply (inv_nodes_length _ _ _ _ _ Hinv).
      * intros j Hj. apply (inv_array_rest _ _ _ _ _ Hinv). lia.
      * intros b nb Hb.
        destruct (inv_fate _ _ _ _ _ Hinv b nb Hb) as [Hk'|Hgone];
          [left; exact Hk'|right].
        apply (gone_by_step _ _ _ _ mk); [exact Hgone | reflexivity].
      * intros j Hj. destruct (Nat.eq_dec j k) as [->|Hne].
        -- unfold bucket_done. rewrite Hbucket. cbn.
           apply (inv_array_rest _ _ _ _ _ Hinv). lia.
        -- apply (inv_done _ _ _ _ _ Hinv). lia.
  - (* one aged node alone in the bucket *)
    destruct (aged_at_live _ _ _ _ Haged) as (n & Ha & Hagedn).
    destruct (chain_cons _ _ _ _ _ Hchain) as (f & n0 & _ & -> & Ha0 & Hrest).
    rewrite Ha in Ha0. inversion Ha0; subst n0.
    apply chain_nil in Hrest.
    destruct (aged_single_is_kept k mk a n Hinv Hk Ha Hfile)
      as (nk & Hak & He & Ht & Hn & Hw).
    assert (Hwn : writer (rwlock n) = false).
    { cbn [forallb] in Hread. apply andb_true_iff in Hread as [Hr _].
      destruct (readable_live _ _ Hr) as (n1 & H1 & Hw1).
      rewrite Ha in H1. inversion H1; subst n1. exact Hw1. }
    eexists. split.
    + apply (gc_scan_bucket_aged cache now mk k a nk Hheadk Hak).
      * congruence.
      * congruence.
      * unfold aged in *. rewrite Ht. exact Hagedn.
      * rewrite He. apply (files_under_live _ _ _ _ _ Ha Hfile).
    + assert (Hka : (k < length (array mk))%nat)
        by (eapply lookup_lt_Some, Hheadk).
      assert (Haa : (a < length (nodes mk))%nat)
        by (eapply lookup_lt_Some, Hak).
      split; cbn [array nodes].
      * rewrite length_insert. apply (inv_array_length _ _ _ _ _ Hinv).
      * rewrite length_insert. apply (inv_nodes_length _ _ _ _ _ Hinv).
      * intros j Hj. rewrite list_lookup_insert_ne by lia.
        apply (inv_array_rest _ _ _ _ _ Hinv). lia.
      * intros b nb Hb. destruct (Nat.eq_dec b a) as [->|Hne].
        -- right. rewrite Ha in Hb. inversion Hb; subst nb.
           split; [exact Hagedn|]. split.
           ++ cbn. apply list_lookup_insert_eq, Haa.
           ++ exists k. split; [lia | exact Hbucket].
        -- destruct (inv_fate _ _ _ _ _ Hinv b nb Hb) as [(n' & Hb' & Hs)|Hgone].
           ++ left. exists n'. split; [|exact Hs].
              rewrite list_lookup_insert_ne by congruence. exact Hb'.
           ++ right. apply (gone_by_step _ _ _ _ mk); [exact Hgone|].
              cbn. apply list_lookup_insert_ne. congruence.
      * intros j Hj. destruct (Nat.eq_dec j k) as [->|Hne].
        -- unfold bucket_done. rewrite Hbucket. cbn [forallb].
           rewrite Haged. cbn. intros b Hb. inversion Hb; subst b.
           split; apply list_lookup_insert_eq; assumption.
        -- assert (Hdone := inv_done _ _ _ _ _ Hinv j ltac:(lia)).
           unfold bucket_done in *. destruct (bucket m j) as [lj|]; [|exact I].
           cbn [array nodes]. rewrite list_lookup_insert_ne by congruence.
           destruct (forallb _ lj); [exact Hdone|].
           intros b Hb. destruct (Hdone b Hb) as [Hgone Harr].
           split; [|exact Harr].
           rewrite list_lookup_insert_ne; [exact Hgone|].
           intros ->. congruence.
Qed.

Hypothesis Hrange31 : Z.of_nat (length (array m)) < 2 ^ 31.

(** The loop over the buckets, from bucket [k] on. *)
Lemma gc_scan_buckets_inv count : forall k mk,
  (k + count = length (array m))%nat ->
  gc_inv cache now m k mk ->
  exists m',
    gc_scan_buckets count cache now (Z.of_nat k) mk = Ok (tt, m') /\
    gc_inv cache now m (length (array m)) m'.
Proof.
  induction count as [|count IH]; intros k mk Hsum Hinv.
  - exists mk. split; [reflexivity|].
    replace (length (array m)) with k by lia. exact Hinv.
  - destruct (gc_scan_bucket_inv k mk Hinv ltac:(lia)) as (mk' & Hstep & Hinv').
    destruct (IH (S k) mk' ltac:(lia) Hinv') as (m' & Hloop & Hfinal).
    exists m'. split; [|exact Hfinal].
    cbn [gc_scan_buckets]. unfold bind. rewrite Hstep.
    rewrite CIntFacts.int_add_small
      by (unfold int_min, int_max; change (2 ^ 31) with 2147483648 in *; lia).
    replace (Z.of_nat k + 1) with (Z.of_nat (S k)) by lia.
    exact Hloop.
Qed.

End SettledCache.

(** *** The tick *)

(** The nap is half the expiry time, at most one second. *)
Lemma gc_sleep_usec_min cache :
  0 <= entry_expired_time_ms cache < 2 ^ 53 ->
  gc_sleep_usec cache = Z.min (500 * entry_expired_time_ms cache) 1000000.
Proof.
  intros He. unfold gc_sleep_usec, long_mul.
  change (2 ^ 53) with 9007199254740992 in He.
  rewrite CIntFacts.long_small by (change (2 ^ 63) with 9223372036854775808; lia).
  replace (1000 * entry_expired_time_ms cache)
    with (500 * entry_expired_time_ms cache * 2) by lia.
  rewrite Z.quot_mul by lia.
  destruct (Z.ltb_spec (500 * entry_expired_time_ms cache) 1000000); lia.
Qed.

Lemma gc_settled_buckets cache now m :
  gc_settled cache now m = true ->
  Z.of_nat (length (array m)) < 2 ^ 31 /\
  length (array m) = Z.to_nat (capacity cache) /\
  forall k, (k < length (array m))%nat -> bucket_settled cache now m k = true.
Proof.
  unfold gc_settled. intros H.
  apply andb_true_iff in H as [H Hall].
  apply andb_true_iff in H as [H Hlen].
  apply andb_true_iff in H as [Hlow Hhigh].
  apply Z.leb_le in Hlow. apply Z.ltb_lt in Hhigh. apply Nat.eqb_eq in Hlen.
  split; [lia|]. split; [exact Hlen|].
  intros k Hk. rewrite forallb_forall in Hall. apply Hall.
  apply in_seq. lia.
Qed.

(** Removal goes by request: with two nodes of the same request in a
    bucket (which callers avoid by a [cache_get] before [cache_add]), the
    aged one makes the collector call [cache_delete], which destroys the
    first node with that request, the young one, and keeps the aged
    one. *)
Lemma collector_destroys_young_duplicate : ~ expirer_removes_exactly_aged.
Proof.
  intros Hclaim.
  specialize (Hclaim CacheExamples.one_bucket CacheExamples.later
                CacheExamples.mem_twice_A 500000
                (after (garbage_collector_tick CacheExamples.one_bucket
                          CacheExamples.later) CacheExamples.mem_twice_A)
                ltac:(vm_compute; reflexivity)
                0%nat [1%nat; 0%nat] 1%nat
                {| entry := CacheExamples.entry_A';
                   last_modified_time := CacheExamples.late;
                   rwlock := {| readers := O; writer := false |};
                   next := Some 0%nat |}
                ltac:(vm_compute; reflexivity)
                ltac:(left; reflexivity)
                ltac:(vm_compute; reflexivity)).
  destruct Hclaim as [Hgone _].
  assert (H : aged CacheExamples.one_bucket CacheExamples.later
                {| entry := CacheExamples.entry_A';
                   last_modified_time := CacheExamples.late;
                   rwlock := {| readers := O; writer := false |};
                   next := Some 0%nat |} = true)
    by (apply Hgone; vm_compute; reflexivity).
  vm_compute in H. discriminate H.
Qed.

(** Where the collector does what is asked of it.  A tick naps
    [min(expiry_ms / 2, 1000)] milliseconds,
    takes one reading of the clock and scans every bucket; the age of a
    node is [age_ms] of that reading and its time stamp, and
    [cache_delete] is called on the request of a node exactly when its age
    has reached [expiry_ms] (last part of the statement).  On a cache in
    which every such node is alone in its bucket, the tick returns,
    destroys and unlinks exactly these nodes, and leaves every younger
    node in place with its entry, its time stamp and its link. *)
Lemma collector_tick_on_settled_cache cache now m :
  gc_settled cache now m = true ->
  0 <= entry_expired_time_ms cache < 2 ^ 53 ->
  exists m',
    garbage_collector_tick cache now m =
      Ok (Z.min (500 * entry_expired_time_ms cache) 1000000, m') /\
    length (array m') = length (array m) /\
    (forall i l a n,
       bucket m i = Some l -> In a l -> nodes m !! a = Some (Some n) ->
       if aged cache now n then
         nodes m' !! a = Some None /\ array m' !! i = Some None
       else
         array m' !! i = array m !! i /\
         exists n', nodes m' !! a = Some (Some n') /\ same_but_readers n n') /\
    (forall f c n mc,
       nodes mc !! c = Some (Some n) -> writer (rwlock n) = false ->
       gc_scan_chain (S f) cache now (Some c) mc =
         if aged cache now n
         then (_ <- cache_delete (Some cache) (request (entry n)) ;;
               gc_scan_chain f cache now (next n)) mc
         else gc_scan_chain f cache now (next n) mc).
Proof.
  intros Hs He.
  destruct (gc_settled_buckets _ _ _ Hs) as (Hrange & Hlen & Hsettled).
  destruct (gc_scan_buckets_inv cache now m Hsettled Hrange
              (length (array m)) 0%nat m eq_refl (gc_inv_start cache now m))
    as (m' & Hloop & Hinv).
  exists m'. split; [|split; [|split]].
  4:{ intros f c n mc. apply gc_scan_chain_step. }
  - unfold garbage_collector_tick, bind. rewrite <- Hlen.
    change 0 with (Z.of_nat 0). rewrite Hloop.
    unfold ret. rewrite (gc_sleep_usec_min _ He). reflexivity.
  - apply (inv_array_length _ _ _ _ _ Hinv).
  - intros i l a n Hbucket Hin Ha.
    assert (Hi : (i < length (array m))%nat).
    { unfold bucket in Hbucket.
      destruct (array m !! i) eqn:E; [|discriminate].
      eapply lookup_lt_Some, E. }
    destruct (bucket_settled_cases _ _ _ _ (Hsettled i Hi))
      as (head & l0 & Hhead & Hchain & Hread & Hcase).
    assert (l0 = l).
    { unfold bucket in Hbucket. rewrite Hhead, Hchain in Hbucket.
      congruence. }
    subst l0.
    assert (Hdone := inv_done _ _ _ _ _ Hinv i Hi).
    unfold bucket_done in Hdone. rewrite Hbucket in Hdone.
    destruct Hcase as [Hyoung|(a0 & -> & Haged & _)].
    + rewrite Hyoung in Hdone.
      rewrite forallb_forall in Hyoung. specialize (Hyoung a Hin).
      unfold aged_at in Hyoung. rewrite Ha in Hyoung.
      apply negb_true_iff in Hyoung. rewrite Hyoung.
      split; [exact Hdone|].
      apply (young_is_kept cache now m _ m' a n Hinv Ha Hyoung).
    + destruct Hin as [<-|[]].
      unfold aged_at in Haged. rewrite Ha in Haged. rewrite Haged.
      cbn [forallb] in Hdone. unfold aged_at in Hdone.
      rewrite Ha, Haged in Hdone. cbn in Hdone.
      apply Hdone. reflexivity.
Qed.

Lemma collector_tick_on_settled_cache_witness :
  gc_settled CacheExamples.two_buckets CacheExamples.later
    CacheExamples.mem_two_buckets = true /\
  0 <= entry_expired_time_ms CacheExamples.two_buckets < 2 ^ 53 /\
  exists m',
    garbage_collector_tick CacheExamples.two_buckets CacheExamples.later
      CacheExamples.mem_two_buckets =
      Ok (Z.min (500 * entry_expired_time_ms CacheExamples.two_buckets) 1000000,
          m') /\
    length (array m') = length (array CacheExamples.mem_two_buckets) /\
    (forall i l a n,
       bucket CacheExamples.mem_two_buckets i = Some l -> In a l ->
       nodes CacheExamples.mem_two_buckets !! a = Some (Some n) ->
       if aged CacheExamples.two_buckets CacheExamples.later n then
         nodes m' !! a = Some None /\ array m' !! i = Some None
       else
         array m' !! i = array CacheExamples.mem_two_buckets !! i /\
         exists n', nodes m' !! a = Some (Some n') /\ same_but_readers n n') /\
    (forall f c n mc,
       nodes mc !! c = Some (Some n) -> writer (rwlock n) = false ->
       gc_scan_chain (S f) CacheExamples.two_buckets CacheExamples.later (Some c) mc =
         if aged CacheExamples.two_buckets CacheExamples.later n
         then (_ <- cache_delete (Some CacheExamples.two_buckets)
                      (request (entry n)) ;;
               gc_scan_chain f CacheExamples.two_buckets CacheExamples.later
                 (next n)) mc
         else gc_scan_chain f CacheExamples.two_buckets CacheExamples.later
                (next n) mc).
Proof.
  split; [vm_compute; reflexivity|].
  split; [vm_compute; split; [discriminate | reflexivity]|].
  apply (collector_tick_on_settled_cache CacheExamples.two_buckets
           CacheExamples.later CacheExamples.mem_two_buckets).
  - vm_compute; reflexivity.
  - vm_compute; split; [discriminate | reflexivity].
Defined.

(** ** One lookup and one deletion on a whole chain *)

(** [cache_get] returns the entry of the first node of the chain whose
    request matches, and NULL when there is none. *)
Lemma cache_get_loop_chain now req fuel : forall l m curr prev,
  chain fuel (nodes m) curr = Some l ->
  forallb (readable m) l = true ->
  cache_get_loop fuel now req curr m =
    match first_match (nodes m) req prev l with
    | Some (_, a, n) =>
        Ok (Some (entry n),
            with_nodes m (<[a := Some (set_last_modified_time n now)]> (nodes m)))
    | None => Ok (None, m)
    end.
Proof.
  induction fuel as [|f IH]; intros l m curr prev Hchain Hread.
  - destruct curr; [discriminate|]. inversion Hchain. reflexivity.
  - destruct l as [|c l].
    + rewrite (chain_nil _ _ _ Hchain). reflexivity.
    + destruct (chain_cons _ _ _ _ _ Hchain) as (f' & n & Hf & -> & Hc & Hrest).
      inversion Hf; subst f'.
      cbn [forallb] in Hread. apply andb_true_iff in Hread as [Hrc Hread].
      destruct (readable_live _ _ Hrc) as (n0 & Hc0 & Hw).
      rewrite Hc in Hc0. inversion Hc0; subst n0.
      rewrite (cache_get_loop_step _ _ _ _ _ _ Hc Hw).
      cbn [first_match]. rewrite Hc.
      destruct (same_request (entry n) req); [reflexivity|].
      apply IH; assumption.
Qed.

(** [cache_get] on a bucket of readable nodes. *)
Lemma cache_get_first_match now cache req m (k : nat) l :
  hash (Some req) (capacity cache) = Z.of_nat k ->
  bucket m k = Some l ->
  forallb (readable m) l = true ->
  cache_get now (Some cache) req m =
    match first_match (nodes m) req None l with
    | Some (_, a, n) =>
        Ok (Some (entry n),
            with_nodes m (<[a := Some (set_last_modified_time n now)]> (nodes m)))
    | None => Ok (None, m)
    end.
Proof.
  intros Hhash Hbucket Hread. unfold bucket in Hbucket.
  destruct (array m !! k) as [head|] eqn:Hk; [|discriminate].
  unfold cache_get. rewrite Hhash. unfold bind at 1.
  rewrite (array_load_eq _ _ _ Hk). unfold bind at 1, node_count.
  apply cache_get_loop_chain; assumption.
Qed.

Lemma chain_no_self_loop fuel ns a n : forall l,
  chain fuel ns (Some a) = Some l -> ns !! a = Some (Some n) ->
  next n <> Some a.
Proof.
  induction fuel as [|f IH]; intros l H Ha Hn; [discriminate|].
  cbn in H. rewrite Ha, Hn in H.
  destruct (chain f ns (Some a)) as [l'|] eqn:E; [|discriminate].
  apply (IH l' eq_refl Ha Hn).
Qed.

Lemma unlock_read_eq m a v r :
  nodes m !! a = Some (Some v) ->
  rwlock v = {| readers := S r; writer := false |} ->
  pthread_rwlock_unlock a m =
    Ok (tt, with_nodes m
              (<[a := Some (set_rwlock v {| readers := r; writer := false |})]>
                 (nodes m))).
Proof.
  intros Ha Hl. unfold pthread_rwlock_unlock, bind.
  rewrite (load_eq _ _ _ Ha), Hl. cbn [writer readers].
  apply (store_eq _ _ _ _ Ha).
Qed.

(** The four calls that relink the predecessor. *)
Lemma relink_eq m p pn q :
  nodes m !! p = Some (Some pn) ->
  writer (rwlock pn) = false -> readers (rwlock pn) = O ->
  (pthread_rwlock_wrlock p ;;
   pn' <- load p ;;
   store p (set_next pn' q) ;;
   pthread_rwlock_unlock p) m =
    Ok (tt, with_nodes m (<[p := Some (set_next pn q)]> (nodes m))).
Proof.
  intros Hp Hw Hr. unfold bind at 1, pthread_rwlock_wrlock, bind at 1.
  rewrite (load_eq _ _ _ Hp), Hw, Hr. rewrite (store_eq _ _ _ _ Hp).
  set (held := set_rwlock pn {| readers := O; writer := true |}).
  assert (H1 : nodes (with_nodes m (<[p := Some held]> (nodes m))) !! p
               = Some (Some held)) by (apply (lookup_stored _ _ _ _ Hp)).
  unfold bind at 1. rewrite (load_eq _ _ _ H1).
  unfold bind at 1. rewrite (store_eq _ _ _ _ H1).
  rewrite with_nodes_twice, nodes_with_nodes, list_insert_insert_eq.
  assert (H2 : nodes (with_nodes m (<[p := Some (set_next held q)]> (nodes m))) !! p
               = Some (Some (set_next held q)))
    by (apply (lookup_stored _ _ _ _ Hp)).
  unfold pthread_rwlock_unlock, bind. rewrite (load_eq _ _ _ H2).
  cbn [held set_next set_rwlock rwlock writer readers].
  rewrite (store_eq _ _ _ _ H2).
  rewrite with_nodes_twice, nodes_with_nodes, list_insert_insert_eq.
  do 4 f_equal. destruct pn as [e t [r w] nx]; cbn in *. subst. reflexivity.
Qed.

Lemma relink_blocked m p pn q r :
  nodes m !! p = Some (Some pn) ->
  writer (rwlock pn) = false -> readers (rwlock pn) = S r ->
  (pthread_rwlock_wrlock p ;;
   pn' <- load p ;;
   store p (set_next pn' q) ;;
   pthread_rwlock_unlock p) m = Blocked.
Proof.
  intros Hp Hw Hr. unfold bind at 1, pthread_rwlock_wrlock, bind at 1.
  rewrite (load_eq _ _ _ Hp), Hw, Hr. reflexivity.
Qed.

(** [cache_delete] on a chain of readable nodes: what it returns and what
    it leaves. *)
Lemma cache_delete_loop_chain (k : nat) req head fuel : forall l m prev curr,
  array m !! k = Some head ->
  chain fuel (nodes m) curr = Some l ->
  forallb (readable m) l = true ->
  match prev with
  | None => True
  | Some p => readable m p = true /\ curr <> Some p
  end ->
  cache_delete_loop fuel (Z.of_nat k) req prev curr m =
    match first_match (nodes m) req prev l with
    | Some hit => delete_effect m k hit
    | None => Ok (NOT_FOUND, m)
    end.
Proof.
  induction fuel as [|f IH]; intros l m prev curr Hk Hchain Hread Hprev.
  - destruct curr; [discriminate|]. inversion Hchain. reflexivity.
  - destruct l as [|c l].
    + rewrite (chain_nil _ _ _ Hchain). reflexivity.
    + destruct (chain_cons _ _ _ _ _ Hchain) as (f' & n & Hf & -> & Hc & Hrest).
      inversion Hf; subst f'.
      cbn [forallb] in Hread. apply andb_true_iff in Hread as [Hrc Hread].
      destruct (readable_live _ _ Hrc) as (n0 & Hc0 & Hw).
      rewrite Hc in Hc0. inversion Hc0; subst n0.
      cbn [cache_delete_loop first_match]. rewrite Hc.
      unfold bind at 1. rewrite (rdlock_eq _ _ _ Hc Hw).
      unfold bind at 1.
      rewrite (load_eq _ _ (read_held n)) by (apply (lookup_stored _ _ _ _ Hc)).
      cbn [read_held set_rwlock entry next].
      destruct (same_request (entry n) req) eqn:Hsame.
      * (* the node at [c] is the first match *)
        destruct prev as [p|]; cbn [delete_effect].
        -- destruct Hprev as [Hrp Hne].
           assert (Hpc : p <> c) by congruence.
           destruct (readable_live _ _ Hrp) as (pn & Hp & Hwp).
           rewrite Hp.
           set (m1 := with_nodes m (<[c:=Some (read_held n)]> (nodes m))).
           assert (Hp1 : nodes m1 !! p = Some (Some pn)).
           { unfold m1. rewrite nodes_with_nodes.
             rewrite list_lookup_insert_ne by congruence. exact Hp. }
           destruct (readers (rwlock pn)) as [|r] eqn:Hr.
           ++ unfold bind at 1.
              rewrite (relink_eq m1 p pn (next n) Hp1 Hwp Hr).
              unfold m1 at 1 2. rewrite with_nodes_twice, nodes_with_nodes.
              rewrite list_insert_insert_ne by congruence.
              set (m2 := with_nodes m (<[p:=Some (set_next pn (next n))]> (nodes m))).
              assert (Hc2 : nodes m2 !! c = Some (Some n)).
              { unfold m2. rewrite nodes_with_nodes.
                rewrite list_lookup_insert_ne by congruence. exact Hc. }
              change (with_nodes m
                        (<[c:=Some (read_held n)]>
                           (<[p:=Some (set_next pn (next n))]> (nodes m))))
                with (with_nodes m2 (<[c:=Some (read_held n)]> (nodes m2))).
              unfold bind at 1.
              rewrite (unlock_read_held_eq m2 c n n Hc2 Hw) by reflexivity.
              rewrite (list_insert_id _ _ _ Hc2), with_nodes_id.
              unfold bind at 1, cache_node_destroy, bind at 1.
              rewrite (load_eq _ _ _ Hc2).
              unfold cache_entry_destroy, bind at 1, ret at 1.
              unfold free. rewrite Hc2.
              unfold bind, log, ret. reflexivity.
           ++ unfold bind at 1.
              rewrite (relink_blocked m1 p pn (next n) r Hp1 Hwp Hr).
              reflexivity.
        -- destruct (next n) as [b|] eqn:Hnext.
           ++ unfold bind at 1, ret at 1. unfold bind at 1.
              rewrite (unlock_read_held_eq _ c n n Hc Hw) by reflexivity.
              rewrite (list_insert_id _ _ _ Hc), with_nodes_id.
              unfold bind at 1, cache_node_destroy, bind at 1.
              rewrite (load_eq _ _ _ Hc).
              unfold cache_entry_destroy, bind at 1, ret at 1.
              unfold free. rewrite Hc.
              unfold bind, log, ret. reflexivity.
           ++ unfold bind at 1.
              rewrite (array_store_eq _ k head) by exact Hk.
              unfold bind at 1.
              change (with_array (with_nodes m ?ns) ?arr)
                with (with_nodes (with_array m arr) ns).
              change (array (with_nodes m ?ns)) with (array m).
              assert (Hc' : nodes (with_array m (<[k:=None]> (array m))) !! c
                            = Some (Some n)) by exact Hc.
              change (<[c:=Some (read_held n)]> (nodes m))
                with (<[c:=Some (read_held n)]>
                        (nodes (with_array m (<[k:=None]> (array m))))).
              rewrite (unlock_read_held_eq _ c n n Hc' Hw) by reflexivity.
              rewrite (list_insert_id _ _ _ Hc'), with_nodes_id.
              unfold bind at 1, cache_node_destroy, bind at 1.
              rewrite (load_eq _ _ _ Hc').
              unfold cache_entry_destroy, bind at 1, ret at 1.
              unfold free. rewrite Hc'.
              unfold bind, log, ret. reflexivity.
      * (* no match at [c]: on to the next node *)
        unfold bind at 1.
        rewrite (unlock_read_held_eq m c n n Hc Hw) by reflexivity.
        rewrite (list_insert_id _ _ _ Hc), with_nodes_id.
        apply (IH l m (Some c) (next n) Hk Hrest Hread).
        split; [exact Hrc|].
        apply (chain_no_self_loop _ _ _ _ _ Hchain Hc).
Qed.

(** [cache_delete] on a bucket of readable nodes. *)
Lemma cache_delete_first_match cache req m (k : nat) l :
  hash (Some req) (capacity cache) = Z.of_nat k ->
  bucket m k = Some l ->
  forallb (readable m) l = true ->
  cache_delete (Some cache) req m =
    match first_match (nodes m) req None l with
    | Some hit => delete_effect m k hit
    | None => Ok (NOT_FOUND, m)
    end.
Proof.
  intros Hhash Hbucket Hread. unfold bucket in Hbucket.
  destruct (array m !! k) as [head|] eqn:Hk; [|discriminate].
  unfold cache_delete. rewrite Hhash. unfold bind at 1.
  rewrite (array_load_eq _ _ _ Hk).
  destruct head as [h|].
  - unfold bind at 1, node_count.
    apply (cache_delete_loop_chain k req (Some h)); auto.
  - rewrite chain_None in Hbucket. inversion Hbucket. reflexivity.
Qed.

(** ** The chain after a deletion behind the head *)

Lemma chain_Some f ns a :
  chain (S f) ns (Some a) =
    match ns !! a with
    | Some (Some n) => option_map (cons a) (chain f ns (next n))
    | _ => None
    end.
Proof. reflexivity. Qed.

Lemma chain_more_fuel f ns : forall f' p l,
  chain f ns p = Some l -> (f <= f')%nat -> chain f' ns p = Some l.
Proof.
  induction f as [|f IH]; intros f' p l H Hle.
  - destruct p; [discriminate|]. inversion H. apply chain_None.
  - destruct l as [|a l].
    + rewrite (chain_nil _ _ _ H). apply chain_None.
    + destruct (chain_cons _ _ _ _ _ H) as (f0 & n & Hf & -> & Ha & Hrest).
      inversion Hf; subst f0.
      destruct f' as [|f']; [lia|]. cbn. rewrite Ha.
      rewrite (IH f' _ _ Hrest) by lia. reflexivity.
Qed.

Lemma chain_fuel_indep f1 ns : forall f2 p l1 l2,
  chain f1 ns p = Some l1 -> chain f2 ns p = Some l2 -> l1 = l2.
Proof.
  induction f1 as [|f1 IH]; intros f2 p l1 l2 H1 H2.
  - destruct p; [discriminate|]. cbn in H1. rewrite chain_None in H2. congruence.
  - destruct l1 as [|a l1].
    + rewrite (chain_nil _ _ _ H1), chain_None in H2. congruence.
    + destruct (chain_cons _ _ _ _ _ H1) as (f0 & n & Hf & -> & Ha & Hrest).
      inversion Hf; subst f0.
      destruct f2 as [|f2]; [discriminate|]. cbn in H2. rewrite Ha in H2.
      destruct (chain f2 ns (next n)) as [l2'|] eqn:E; [|discriminate].
      inversion H2. f_equal. apply (IH f2 (next n)); assumption.
Qed.

Lemma chain_suffix ns l1 : forall f p a l2,
  chain f ns p = Some (l1 ++ a :: l2) ->
  exists f', chain f' ns (Some a) = Some (a :: l2).
Proof.
  induction l1 as [|b l1 IH]; intros f p a l2 H.
  - destruct (chain_cons _ _ _ _ _ H) as (f0 & n & _ & -> & _ & _).
    exists f. exact H.
  - destruct (chain_cons _ _ _ _ _ H) as (f0 & n & _ & _ & _ & Hrest).
    apply (IH _ _ _ _ Hrest).
Qed.

(** A chain that reaches NULL visits no node twice. *)
Lemma chain_NoDup ns l : forall f p, chain f ns p = Some l -> NoDup l.
Proof.
  induction l as [|a l IH]; intros f p H; [apply NoDup_nil_2|].
  destruct (chain_cons _ _ _ _ _ H) as (f0 & n & Hf & -> & Ha & Hrest).
  apply NoDup_cons_2; [|apply (IH _ _ Hrest)].
  intros Hin. apply list_elem_of_In, in_split in Hin as (l1 & l2 & ->).
  destruct (chain_suffix _ _ _ _ _ _ Hrest) as (f' & Hsuf).
  assert (Heq := chain_fuel_indep _ _ _ _ _ _ H Hsuf).
  apply (f_equal (@length _)) in Heq.
  cbn [length] in Heq. rewrite length_app in Heq. cbn [length] in Heq. lia.
Qed.

(** Where the first match sits in the chain. *)
Lemma first_match_place ns req l : forall prev p c n,
  first_match ns req prev l = Some (Some p, c, n) ->
  (prev = Some p /\ exists l2, l = c :: l2) \/
  (exists l1 l2, l = l1 ++ p :: c :: l2).
Proof.
  induction l as [|a l IH]; intros prev p c n H; [discriminate|].
  cbn in H. destruct (ns !! a) as [[na|]|]; try discriminate.
  destruct (same_request (entry na) req).
  - inversion H; subst. left. split; [reflexivity|]. exists l. reflexivity.
  - destruct (IH _ _ _ _ H) as [(Hp & l2 & ->)|(l1 & l2 & ->)].
    + inversion Hp; subst a. right. exists [], l2. reflexivity.
    + right. exists (a :: l1), l2. reflexivity.
Qed.

Lemma first_match_live ns req l : forall prev hit,
  first_match ns req prev l = Some hit ->
  ns !! (snd (fst hit)) = Some (Some (snd hit)) /\
  same_request (entry (snd hit)) req = true /\ In (snd (fst hit)) l.
Proof.
  induction l as [|a l IH]; intros prev hit H; [discriminate|].
  cbn in H. destruct (ns !! a) as [[na|]|] eqn:Ha; try discriminate.
  destruct (same_request (entry na) req) eqn:Hs.
  - inversion H; subst. cbn. auto.
  - destruct (IH _ _ H) as (H1 & H2 & H3). cbn. auto.
Qed.

(** Relinking [p] past [c] and freeing [c] takes [c] out of the chain and
    leaves the rest in order. *)
Lemma chain_unlink ns p pn c n l2 l1 : forall f curr,
  chain f ns curr = Some (l1 ++ p :: c :: l2) ->
  ns !! p = Some (Some pn) -> ns !! c = Some (Some n) ->
  chain f (<[c := None]> (<[p := Some (set_next pn (next n))]> ns)) curr
    = Some (l1 ++ p :: l2).
Proof.
  induction l1 as [|a l1 IH]; intros f curr H Hp Hc.
  - cbn [app] in *. assert (Hnd := chain_NoDup _ _ _ _ H).
    destruct (chain_cons _ _ _ _ _ H) as (f0 & pn0 & -> & -> & Hp0 & Hrest).
    rewrite Hp in Hp0. inversion Hp0; subst pn0.
    destruct (chain_cons _ _ _ _ _ Hrest) as (f1 & n0 & -> & Hnext & Hc0 & Hrest').
    rewrite Hc in Hc0. inversion Hc0; subst n0.
    apply NoDup_cons_1_1 in Hnd as Hp_notin.
    apply NoDup_cons_1_2, NoDup_cons_1_1 in Hnd as Hc_notin.
    assert (Hpc : p <> c) by (intros ->; apply Hp_notin; left).
    rewrite chain_Some.
    rewrite list_lookup_insert_ne by congruence.
    rewrite list_lookup_insert_eq by (eapply lookup_lt_Some, Hp).
    cbn [set_next next].
    assert (Htail : chain (S f1)
                      (<[c:=None]> (<[p:=Some (set_next pn (next n))]> ns))
                      (next n) = Some l2).
    { apply (chain_more_fuel f1); [|lia].
      apply (chain_transfer _ ns _ _ _ Hrest').
      intros a na Hin Ha. exists na. split; [|reflexivity].
      rewrite !list_lookup_insert_ne; [exact Ha| |].
      - intros ->. apply Hp_notin. right. apply list_elem_of_In, Hin.
      - intros ->. apply Hc_notin. apply list_elem_of_In, Hin. }
    rewrite Htail. reflexivity.
  - cbn [app] in *. assert (Hnd := chain_NoDup _ _ _ _ H).
    destruct (chain_cons _ _ _ _ _ H) as (f0 & na & -> & -> & Ha & Hrest).
    apply NoDup_cons_1_1 in Hnd as Ha_notin.
    assert (Hap : a <> p).
    { intros ->. apply Ha_notin, list_elem_of_In, in_or_app. right. left.
      reflexivity. }
    assert (Hac : a <> c).
    { intros ->. apply Ha_notin, list_elem_of_In, in_or_app. right. right.
      left. reflexivity. }
    rewrite chain_Some. rewrite !list_lookup_insert_ne by congruence.
    rewrite Ha. rewrite (IH _ _ Hrest Hp Hc). reflexivity.
Qed.

(** X8.  [cache_delete] of a request whose first match has a predecessor with a
    free lock: the call succeeds, the bucket afterwards is the old chain
    without the node, and every other node of the cache is as it was but
    for the link of the predecessor. *)
Lemma cache_delete_behind_head cache req m (k : nat) l p c n :
  hash (Some req) (capacity cache) = Z.of_nat k ->
  bucket m k = Some l ->
  forallb (readable m) l = true ->
  first_match (nodes m) req None l = Some (Some p, c, n) ->
  (exists pn, nodes m !! p = Some (Some pn) /\ readers (rwlock pn) = O) ->
  exists m' l1 l2,
    cache_delete (Some cache) req m = Ok (SUCCESS, m') /\
    l = l1 ++ p :: c :: l2 /\
    bucket m' k = Some (l1 ++ p :: l2) /\
    nodes m' !! c = Some None /\
    array m' = array m /\
    forall a na, a <> c -> a <> p -> nodes m !! a = Some (Some na) ->
                 nodes m' !! a = Some (Some na).
Proof.
  intros Hhash Hbucket Hread Hhit (pn & Hp & Hfree).
  destruct (first_match_place _ _ _ _ _ _ _ Hhit)
    as [(Habs & _)|(l1 & l2 & ->)]; [discriminate|].
  destruct (first_match_live _ _ _ _ _ Hhit) as (Hc & _ & _). cbn in Hc.
  eexists _, l1, l2. split.
  - rewrite (cache_delete_first_match cache req m k _ Hhash Hbucket Hread).
    rewrite Hhit. cbn [delete_effect]. rewrite Hp, Hfree. reflexivity.
  - split; [reflexivity|]. cbn [array nodes].
    unfold bucket in *. cbn [array nodes].
    destruct (array m !! k) as [head|]; [|discriminate].
    split; [|split; [|split]].
    + rewrite !length_insert. apply (chain_unlink _ _ _ _ _ _ _ _ _ Hbucket Hp Hc).
    + apply list_lookup_insert_eq. rewrite length_insert.
      eapply lookup_lt_Some, Hc.
    + reflexivity.
    + intros a na Hac Hap Ha.
      rewrite !list_lookup_insert_ne by congruence. exact Ha.
Qed.

(** ** The scenarios E1, E2 and E3 *)

(** E1: a miss, an insertion, a hit that stamps the node. *)
Example scenario_miss_then_hit :
  cache_get CacheExamples.early (Some CacheExamples.four_buckets) [x41]
    (empty_mem 4) = Ok (None, empty_mem 4) /\
  exists m1 m2 n,
    cache_add true CacheExamples.early (Some CacheExamples.four_buckets)
      (Some CacheExamples.entry_A) (empty_mem 4) = Ok (SUCCESS, m1) /\
    cache_get CacheExamples.late (Some CacheExamples.four_buckets) [x41] m1
      = Ok (Some CacheExamples.entry_A, m2) /\
    nodes m2 !! 0%nat = Some (Some n) /\
    last_modified_time n = CacheExamples.late.
Proof.
  split; [vm_compute; reflexivity|].
  do 3 eexists. split; [vm_compute; reflexivity|].
  split; [vm_compute; reflexivity|].
  split; vm_compute; reflexivity.
Qed.

(** E2: two requests in one bucket, both found; without A, B is still
    found. *)
Example scenario_collision_chain :
  exists mA mB mdel,
    cache_get CacheExamples.later (Some CacheExamples.one_bucket) [x41]
      CacheExamples.mem_A_then_B = Ok (Some CacheExamples.entry_A, mA) /\
    cache_get CacheExamples.later (Some CacheExamples.one_bucket) [x42]
      CacheExamples.mem_A_then_B = Ok (Some CacheExamples.entry_B, mB) /\
    cache_delete (Some CacheExamples.one_bucket) [x41]
      CacheExamples.mem_A_then_B = Ok (SUCCESS, mdel) /\
    exists mB',
      cache_get CacheExamples.later (Some CacheExamples.one_bucket) [x42] mdel
        = Ok (Some CacheExamples.entry_B, mB') /\
      cache_get CacheExamples.later (Some CacheExamples.one_bucket) [x41] mdel
        = Ok (None, mdel).
Proof.
  do 3 eexists. split; [vm_compute; reflexivity|].
  split; [vm_compute; reflexivity|].
  split; [vm_compute; reflexivity|].
  eexists. split; vm_compute; reflexivity.
Qed.

(** E3: an entry alone in its bucket is gone after the tick that finds it
    300 ms old in a cache with an expiry of 100 ms. *)
Example scenario_eviction :
  exists m1 m2,
    cache_add true CacheExamples.early (Some CacheExamples.short_lived)
      (Some CacheExamples.entry_X) (empty_mem 2) = Ok (SUCCESS, m1) /\
    garbage_collector_tick CacheExamples.short_lived
      CacheExamples.early_300ms m1 = Ok (50000, m2) /\
    cache_get CacheExamples.early_300ms (Some CacheExamples.short_lived)
      [x58] m2 = Ok (None, m2).
Proof.
  do 2 eexists. split; [vm_compute; reflexivity|].
  split; vm_compute; reflexivity.
Qed.

(** ** The comparison of two requests *)

Lemma uchar_val_inj c1 c2 : uchar_val c1 = uchar_val c2 -> c1 = c2.
Proof.
  unfold uchar_val. intros H. apply N2Z.inj in H.
  assert (H' : Some c1 = Some c2)
    by (rewrite <- (Byte.of_to_N c1), <- (Byte.of_to_N c2), H; reflexivity).
  congruence.
Qed.

Lemma byte_eqb_neq (c1 c2 : byte) : Byte.eqb c1 c2 = false -> c1 <> c2.
Proof.
  intros H ->. rewrite (byte_dec_lb (eq_refl c2)) in H. discriminate.
Qed.

(** Over [n] bytes on both sides, [strncmp] finds no difference exactly
    when the two buffers agree up to their first NUL. *)
Lemma strncmp_zero_iff n : forall s1 s2,
  length s1 = n -> length s2 = n ->
  (strncmp s1 s2 n = 0 <-> c_string s1 = c_string s2).
Proof.
  induction n as [|n IH]; intros s1 s2 H1 H2.
  - destruct s1, s2; try discriminate. cbn. tauto.
  - destruct s1 as [|c1 s1], s2 as [|c2 s2]; try discriminate.
    cbn [strncmp hd tl c_string].
    destruct (Byte.eqb c1 c2) eqn:E12; cbn [negb].
    + apply byte_dec_bl in E12. subst c2.
      destruct (Byte.eqb c1 x00); [tauto|].
      rewrite (IH s1 s2) by (cbn in *; lia).
      split; [intros ->; reflexivity | intros H; inversion H; reflexivity].
    + apply byte_eqb_neq in E12.
      split.
      * intros H. exfalso. apply E12, uchar_val_inj. lia.
      * intros H. exfalso.
        destruct (Byte.eqb c1 x00) eqn:E1, (Byte.eqb c2 x00) eqn:E2;
          try discriminate.
        -- apply byte_dec_bl in E1, E2. congruence.
        -- inversion H. contradiction.
Qed.

Lemma c_string_le s : (length (c_string s) <= length s)%nat.
Proof.
  induction s as [|c s IH]; cbn; [lia|].
  destruct (Byte.eqb c x00); cbn; lia.
Qed.

Lemma c_string_whole s : length (c_string s) = length s -> c_string s = s.
Proof.
  induction s as [|c s IH]; cbn; [reflexivity|].
  destruct (Byte.eqb c x00); cbn; [discriminate|].
  intros H. f_equal. apply IH. lia.
Qed.

Lemma c_string_nul_free s : nul_free s = true -> c_string s = s.
Proof.
  induction s as [|c s IH]; cbn; [reflexivity|].
  destruct (Byte.eqb c x00); cbn; [discriminate|].
  intros H. f_equal. apply IH, H.
Qed.

(** X3.  The test both lookups make on a node, [request_len] equal and
    [strncmp] zero, holds exactly when the two requests have the same
    length and the same bytes up to their first NUL; against a request
    without a NUL byte it holds exactly when the two requests are equal. *)
Theorem same_request_compares_up_to_nul e req :
  (same_request e req = true <->
   length (request e) = length req /\
   c_string (request e) = c_string req) /\
  (nul_free req = true ->
   (same_request e req = true <-> request e = req)).
Proof.
  assert (Hiff : same_request e req = true <->
                 length (request e) = length req /\
                 c_string (request e) = c_string req).
  { unfold same_request. rewrite andb_true_iff, Nat.eqb_eq, Z.eqb_eq.
    split; intros [Hl H]; (split; [exact Hl|]);
      apply (strncmp_zero_iff (length req)); auto. }
  split; [exact Hiff|].
  intros Hn. rewrite Hiff. rewrite (c_string_nul_free _ Hn).
  split.
  - intros [Hl Hc]. rewrite <- Hc. symmetry. apply c_string_whole.
    rewrite Hc. symmetry. exact Hl.
  - intros <-. split; [reflexivity|].
    apply c_string_nul_free, Hn.
Qed.

(** ** What the calls return and what they leave *)

Lemma bind_ok {A B} (c : M A) (k : A -> M B) m r :
  bind c k m = Ok r -> exists a m1, c m = Ok (a, m1) /\ k a m1 = Ok r.
Proof.
  unfold bind. destruct (c m) as [[a m1]| | |]; try discriminate.
  intros H. exists a, m1. auto.
Qed.

Lemma rdlock_ok m a m1 :
  pthread_rwlock_rdlock a m = Ok (tt, m1) ->
  exists n, nodes m !! a = Some (Some n) /\ writer (rwlock n) = false /\
            m1 = with_nodes m (<[a := Some (read_held n)]> (nodes m)).
Proof.
  intros H. unfold pthread_rwlock_rdlock, bind, load in H.
  destruct (nodes m !! a) as [[n|]|] eqn:Ha; try discriminate.
  destruct (writer (rwlock n)) eqn:Hw; [discriminate|].
  exists n. unfold store in H. rewrite Ha in H. inversion H. auto.
Qed.

Lemma cache_get_loop_miss fuel now req : forall curr m m',
  cache_get_loop fuel now req curr m = Ok (None, m') -> m' = m.
Proof.
  induction fuel as [|fuel IH]; intros curr m m' H.
  - destruct curr; [discriminate|]. inversion H. reflexivity.
  - destruct curr as [c|]; [|inversion H; reflexivity].
    destruct (cache_get_loop_stuck _ _ _ _ _ _ H) as (n & Hc & Hw & _).
    rewrite (cache_get_loop_step _ _ _ _ _ _ Hc Hw) in H.
    destruct (same_request (entry n) req); [discriminate|].
    apply (IH _ _ _ H).
Qed.

Lemma cache_get_miss now cache req m m' :
  cache_get now (Some cache) req m = Ok (None, m') -> m' = m.
Proof.
  intros H. unfold cache_get in H.
  apply bind_ok in H as (curr & m1 & Hload & H).
  unfold array_load in Hload.
  destruct (hash (Some req) (capacity cache) <? 0); [discriminate|].
  destruct (array m !! Z.to_nat (hash (Some req) (capacity cache)));
    [|discriminate].
  inversion Hload; subst.
  apply bind_ok in H as (fuel & m2 & Hcount & H).
  unfold node_count in Hcount. inversion Hcount; subst.
  apply (cache_get_loop_miss _ _ _ _ _ _ H).
Qed.

(** X4.  A [cache_get] that returns NULL has written nothing to the
    cache: the bucket array and every node, time stamps and locks
    included, are as before, and with a cache that is not NULL the log is
    untouched as well. *)
Theorem cache_get_miss_changes_nothing now cache req m m' :
  cache_get now cache req m = Ok (None, m') ->
  array m' = array m /\ nodes m' = nodes m /\
  (cache <> None -> m' = m).
Proof.
  destruct cache as [cache|]; intros H.
  - rewrite (cache_get_miss _ _ _ _ _ H). auto.
  - cbn in H. inversion H. cbn. split; [reflexivity|].
    split; [reflexivity|]. intros Hc. contradiction.
Qed.

Lemma cache_get_miss_changes_nothing_witness :
  array CacheExamples.mem_A_then_B = array CacheExamples.mem_A_then_B /\
  nodes CacheExamples.mem_A_then_B = nodes CacheExamples.mem_A_then_B /\
  (Some CacheExamples.one_bucket <> None ->
   CacheExamples.mem_A_then_B = CacheExamples.mem_A_then_B).
Proof.
  apply (cache_get_miss_changes_nothing CacheExamples.late
           (Some CacheExamples.one_bucket) [x43]).
  vm_compute; reflexivity.
Defined.

Lemma cache_delete_loop_outcome fuel idx req : forall prev curr m r m',
  cache_delete_loop fuel idx req prev curr m = Ok (r, m') ->
  r = SUCCESS \/ (r = NOT_FOUND /\ m' = m).
Proof.
  induction fuel as [|fuel IH]; intros prev curr m r m' H.
  - destruct curr; [discriminate|]. inversion H. auto.
  - destruct curr as [c|]; [|inversion H; auto].
    cbn [cache_delete_loop] in H.
    apply bind_ok in H as ([] & m1 & Hlock & H).
    destruct (rdlock_ok _ _ _ Hlock) as (n & Hc & Hw & ->).
    apply bind_ok in H as (n1 & m2 & Hload & H).
    rewrite (load_eq _ _ (read_held n)) in Hload
      by (apply (lookup_stored _ _ _ _ Hc)).
    inversion Hload; subst n1 m2. clear Hload.
    cbn [read_held set_rwlock entry next] in H.
    destruct (same_request (entry n) req).
    + left.
      apply bind_ok in H as (? & m3 & _ & H).
      apply bind_ok in H as (? & m4 & _ & H).
      apply bind_ok in H as (? & m5 & _ & H).
      apply bind_ok in H as (? & m6 & _ & H).
      inversion H. reflexivity.
    + apply bind_ok in H as ([] & m3 & Hunlock & H).
      rewrite (unlock_read_held_eq m c n n Hc Hw) in Hunlock by reflexivity.
      rewrite (list_insert_id _ _ _ Hc), with_nodes_id in Hunlock.
      inversion Hunlock; subst m3.
      apply (IH _ _ _ _ _ H).
Qed.

(** X6.  A [cache_delete] on a cache that is not NULL returns SUCCESS or
    NOT_FOUND, never ERROR; when it returns NOT_FOUND it has left the
    bucket array, every node with its lock, and the log as they were. *)
Theorem cache_delete_not_found_changes_nothing cache req m r m' :
  cache_delete (Some cache) req m = Ok (r, m') ->
  r = SUCCESS \/ (r = NOT_FOUND /\ m' = m).
Proof.
  intros H. unfold cache_delete in H.
  apply bind_ok in H as (curr & m1 & Hload & H).
  unfold array_load in Hload.
  destruct (hash (Some req) (capacity cache) <? 0); [discriminate|].
  destruct (array m !! Z.to_nat (hash (Some req) (capacity cache)));
    [|discriminate].
  inversion Hload; subst. destruct curr as [c|].
  - apply bind_ok in H as (fuel & m2 & Hcount & H).
    unfold node_count in Hcount. inversion Hcount; subst.
    apply (cache_delete_loop_outcome _ _ _ _ _ _ _ _ H).
  - inversion H. auto.
Qed.

Lemma cache_delete_not_found_changes_nothing_witness :
  NOT_FOUND = SUCCESS \/
  (NOT_FOUND = NOT_FOUND /\
   CacheExamples.mem_A_then_B = CacheExamples.mem_A_then_B).
Proof.
  apply (cache_delete_not_found_changes_nothing CacheExamples.one_bucket [x43]).
  vm_compute; reflexivity.
Defined.

Lemma first_match_absent ns req l : forall prev,
  (forall a, In a l -> exists n, ns !! a = Some (Some n)) ->
  (first_match ns req prev l = None <->
   forall a n, In a l -> ns !! a = Some (Some n) ->
               same_request (entry n) req = false).
Proof.
  induction l as [|c l IH]; intros prev Hlive.
  - cbn. split; [intros _ a n []|reflexivity].
  - destruct (Hlive c (or_introl eq_refl)) as (nc & Hc).
    cbn [first_match]. rewrite Hc.
    destruct (same_request (entry nc) req) eqn:Hs.
    + split; [discriminate|].
      intros H. rewrite (H c nc (or_introl eq_refl) Hc) in Hs. discriminate.
    + rewrite IH by (intros a Ha; apply Hlive; right; exact Ha).
      split.
      * intros H a n [<-|Hin] Ha; [|apply (H a n Hin Ha)].
        rewrite Hc in Ha. inversion Ha; subst. exact Hs.
      * intros H a n Hin. apply H. right. exact Hin.
Qed.

Lemma readable_all_live m l :
  forallb (readable m) l = true ->
  forall a, In a l -> exists n, nodes m !! a = Some (Some n).
Proof.
  rewrite forallb_forall. intros H a Hin.
  destruct (readable_live _ _ (H a Hin)) as (n & Ha & _). exists n. exact Ha.
Qed.

Lemma delete_effect_not_found m k hit m' :
  delete_effect m k hit <> Ok (NOT_FOUND, m').
Proof.
  destruct hit as [[[p|] c] n]; cbn.
  - destruct (nodes m !! p) as [[pn|]|]; try discriminate.
    destruct (readers (rwlock pn)); discriminate.
  - discriminate.
Qed.

(** X7.  On a bucket that is a chain of readable nodes, [cache_delete]
    returns NOT_FOUND, with the memory as it was, exactly when no node of
    the bucket holds a request that matches. *)
Theorem cache_delete_not_found_iff_absent cache req m (k : nat) l :
  hash (Some req) (capacity cache) = Z.of_nat k ->
  bucket m k = Some l ->
  forallb (readable m) l = true ->
  (cache_delete (Some cache) req m = Ok (NOT_FOUND, m) <->
   forall a n, In a l -> nodes m !! a = Some (Some n) ->
               same_request (entry n) req = false).
Proof.
  intros Hhash Hbucket Hread.
  rewrite (cache_delete_first_match cache req m k l Hhash Hbucket Hread).
  rewrite <- (first_match_absent (nodes m) req l None
                (readable_all_live m l Hread)).
  destruct (first_match (nodes m) req None l) as [hit|].
  - split; [|discriminate].
    intros H. exfalso. apply (delete_effect_not_found _ _ _ _ H).
  - split; reflexivity.
Qed.

Lemma cache_delete_not_found_iff_absent_witness :
  cache_delete (Some CacheExamples.one_bucket) [x43]
    CacheExamples.mem_A_then_B = Ok (NOT_FOUND, CacheExamples.mem_A_then_B) <->
  forall a n, In a [1; 0]%nat ->
              nodes CacheExamples.mem_A_then_B !! a = Some (Some n) ->
              same_request (entry n) [x43] = false.
Proof.
  apply (cache_delete_not_found_iff_absent CacheExamples.one_bucket [x43]
           CacheExamples.mem_A_then_B 0);
    vm_compute; reflexivity.
Defined.

Lemma first_match_at ns req l1 a n l2 : forall prev,
  (forall b, In b l1 -> exists nb, ns !! b = Some (Some nb)) ->
  (forall b nb, In b l1 -> ns !! b = Some (Some nb) ->
                same_request (entry nb) req = false) ->
  ns !! a = Some (Some n) -> same_request (entry n) req = true ->
  exists prev', first_match ns req prev (l1 ++ a :: l2) = Some (prev', a, n).
Proof.
  induction l1 as [|b l1 IH]; intros prev Hlive Hdiff Ha Hs.
  - exists prev. cbn. rewrite Ha, Hs. reflexivity.
  - destruct (Hlive b (or_introl eq_refl)) as (nb & Hb).
    cbn [app first_match]. rewrite Hb, (Hdiff b nb (or_introl eq_refl) Hb).
    apply IH; auto.
    + intros c Hc. apply Hlive. right. exact Hc.
    + intros c nc Hc. apply Hdiff. right. exact Hc.
Qed.

(** X5.  On a bucket that is a chain of readable nodes, [cache_get]
    returns NULL, with the memory as it was, exactly when no node of the
    bucket holds a request that matches; otherwise it returns the entry
    of the first node of the chain that matches, and the one thing it has
    written is the time stamp of that node, now the clock reading. *)
Theorem cache_get_returns_first_match now cache req m (k : nat) l :
  hash (Some req) (capacity cache) = Z.of_nat k ->
  bucket m k = Some l ->
  forallb (readable m) l = true ->
  (cache_get now (Some cache) req m = Ok (None, m) <->
   forall a n, In a l -> nodes m !! a = Some (Some n) ->
               same_request (entry n) req = false) /\
  (forall l1 a l2 n,
     l = l1 ++ a :: l2 ->
     (forall b nb, In b l1 -> nodes m !! b = Some (Some nb) ->
                   same_request (entry nb) req = false) ->
     nodes m !! a = Some (Some n) ->
     same_request (entry n) req = true ->
     cache_get now (Some cache) req m =
       Ok (Some (entry n),
           with_nodes m
             (<[a := Some (set_last_modified_time n now)]> (nodes m)))).
Proof.
  intros Hhash Hbucket Hread.
  rewrite (cache_get_first_match now cache req m k l Hhash Hbucket Hread).
  split.
  - rewrite <- (first_match_absent (nodes m) req l None
                  (readable_all_live m l Hread)).
    destruct (first_match (nodes m) req None l) as [[[p a] n]|].
    + split; discriminate.
    + split; reflexivity.
  - intros l1 a l2 n -> Hdiff Ha Hs.
    destruct (first_match_at (nodes m) req l1 a n l2 None) as (prev' & ->);
      auto.
    intros b Hb. apply (readable_all_live m _ Hread).
    apply in_or_app. left. exact Hb.
Qed.

Lemma cache_get_returns_first_match_witness :
  (cache_get CacheExamples.late (Some CacheExamples.one_bucket) [x41]
     CacheExamples.mem_A_then_B = Ok (None, CacheExamples.mem_A_then_B) <->
   forall a n, In a [1; 0]%nat ->
               nodes CacheExamples.mem_A_then_B !! a = Some (Some n) ->
               same_request (entry n) [x41] = false) /\
  (forall l1 a l2 n,
     [1; 0]%nat = l1 ++ a :: l2 ->
     (forall b nb, In b l1 ->
                   nodes CacheExamples.mem_A_then_B !! b = Some (Some nb) ->
                   same_request (entry nb) [x41] = false) ->
     nodes CacheExamples.mem_A_then_B !! a = Some (Some n) ->
     same_request (entry n) [x41] = true ->
     cache_get CacheExamples.late (Some CacheExamples.one_bucket) [x41]
       CacheExamples.mem_A_then_B =
       Ok (Some (entry n),
           with_nodes CacheExamples.mem_A_then_B
             (<[a := Some (set_last_modified_time n CacheExamples.late)]>
                (nodes CacheExamples.mem_A_then_B)))).
Proof.
  apply (cache_get_returns_first_match CacheExamples.late
           CacheExamples.one_bucket [x41] CacheExamples.mem_A_then_B 0);
    vm_compute; reflexivity.
Defined.

Lemma cache_delete_behind_head_witness :
  exists m' l1 l2,
    cache_delete (Some CacheExamples.one_bucket) [x41]
      CacheExamples.mem_A_then_B = Ok (SUCCESS, m') /\
    [1; 0]%nat = l1 ++ 1%nat :: 0%nat :: l2 /\
    bucket m' 0 = Some (l1 ++ 1%nat :: l2) /\
    nodes m' !! 0%nat = Some None /\
    array m' = array CacheExamples.mem_A_then_B /\
    forall a na, a <> 0%nat -> a <> 1%nat ->
                 nodes CacheExamples.mem_A_then_B !! a = Some (Some na) ->
                 nodes m' !! a = Some (Some na).
Proof.
  destruct (nodes CacheExamples.mem_A_then_B !! 0%nat) as [[n|]|] eqn:Hn;
    try (vm_compute in Hn; discriminate).
  apply (cache_delete_behind_head CacheExamples.one_bucket [x41]
           CacheExamples.mem_A_then_B 0 [1; 0]%nat 1%nat 0%nat n).
  - vm_compute; reflexivity.
  - vm_compute; reflexivity.
  - vm_compute; reflexivity.
  - vm_compute in Hn. inversion Hn. vm_compute; reflexivity.
  - eexists. split; vm_compute; reflexivity.
Defined.

(** ** Well-formed caches: creation, insertion, lookup *)

Lemma cache_wf_intro cache m :
  0 <= capacity cache < 2 ^ 31 ->
  length (array m) = Z.to_nat (capacity cache) ->
  (forall i, (i < length (array m))%nat -> bucket_filed cache m i = true) ->
  cache_wf cache m = true.
Proof.
  intros [H0 H1] Hlen Hall. unfold cache_wf.
  rewrite !andb_true_iff. repeat split.
  - apply Z.leb_le, H0.
  - apply Z.ltb_lt, H1.
  - apply Nat.eqb_eq, Hlen.
  - apply forallb_forall. intros i Hi. apply Hall.
    apply in_seq in Hi. lia.
Qed.

Lemma cache_wf_elim cache m :
  cache_wf cache m = true ->
  0 <= capacity cache < 2 ^ 31 /\
  length (array m) = Z.to_nat (capacity cache) /\
  (forall i, (i < length (array m))%nat -> bucket_filed cache m i = true).
Proof.
  unfold cache_wf. rewrite !andb_true_iff.
  intros [[[H0 H1] Hlen] Hall].
  apply Z.leb_le in H0. apply Z.ltb_lt in H1. apply Nat.eqb_eq in Hlen.
  repeat split; try assumption.
  intros i Hi. rewrite forallb_forall in Hall. apply Hall, in_seq. lia.
Qed.

Lemma bucket_filed_elim cache m i :
  bucket_filed cache m i = true ->
  exists l, bucket m i = Some l /\ forallb (readable m) l = true /\
            forallb (files_under cache m i) l = true.
Proof.
  unfold bucket_filed. destruct (bucket m i) as [l|]; [|discriminate].
  rewrite andb_true_iff. intros [H1 H2]. exists l. auto.
Qed.

Lemma bucket_filed_intro cache m i l :
  bucket m i = Some l -> forallb (readable m) l = true ->
  forallb (files_under cache m i) l = true ->
  bucket_filed cache m i = true.
Proof.
  intros Hb H1 H2. unfold bucket_filed. rewrite Hb, H1, H2. reflexivity.
Qed.

Lemma readable_same m m' a :
  nodes m' !! a = nodes m !! a -> readable m' a = readable m a.
Proof. unfold readable. intros ->. reflexivity. Qed.

Lemma files_under_same cache m m' i a :
  nodes m' !! a = nodes m !! a ->
  files_under cache m' i a = files_under cache m i a.
Proof. unfold files_under. intros ->. reflexivity. Qed.

(** The forward reading of [cache_add] when memory is found and the hash
    is a bucket index. *)
Lemma cache_add_eq now cache e m (k : nat) head :
  hash (Some (request e)) (capacity cache) = Z.of_nat k ->
  array m !! k = Some head ->
  cache_add true now (Some cache) (Some e) m =
    Ok (SUCCESS,
        {| array := <[k := Some (length (nodes m))]> (array m);
           nodes := nodes m ++
                    [Some {| entry := e; last_modified_time := now;
                             rwlock := {| readers := O; writer := false |};
                             next := head |}];
           out := out m ++ ["Add new cache entry"%string] |}).
Proof.
  intros Hhash Hhead.
  unfold cache_add, cache_node_create. rewrite Hhash.
  unfold bind at 1. unfold bind at 1. unfold alloc, ret.
  set (n0 := {| entry := e; last_modified_time := now;
                rwlock := {| readers := O; writer := false |}; next := None |}).
  unfold bind at 1. unfold pthread_rwlock_wrlock, bind at 1.
  set (m1 := with_nodes m (nodes m ++ [Some n0])).
  assert (H1 : nodes m1 !! length (nodes m) = Some (Some n0))
    by apply lookup_fresh.
  rewrite (load_eq _ _ _ H1). cbn [n0 rwlock writer readers].
  rewrite (store_eq _ _ _ _ H1). fold n0.
  unfold m1 at 1 2. rewrite with_nodes_twice, nodes_with_nodes, insert_fresh.
  set (n1 := set_rwlock n0 {| readers := O; writer := true |}).
  set (m2 := with_nodes m (nodes m ++ [Some n1])).
  assert (Hhead2 : array m2 !! k = Some head) by exact Hhead.
  unfold bind at 1. rewrite (array_load_eq _ _ _ Hhead2).
  assert (H2 : nodes m2 !! length (nodes m) = Some (Some n1))
    by apply lookup_fresh.
  unfold bind at 1. rewrite (load_eq _ _ _ H2).
  unfold bind at 1. rewrite (store_eq _ _ _ _ H2).
  unfold m2 at 1 2. rewrite with_nodes_twice, nodes_with_nodes, insert_fresh.
  set (m3 := with_nodes m (nodes m ++ [Some (set_next n1 head)])).
  assert (H3 : nodes m3 !! length (nodes m) = Some (Some (set_next n1 head)))
    by apply lookup_fresh.
  unfold bind at 1, pthread_rwlock_unlock, bind at 1.
  rewrite (load_eq _ _ _ H3). cbn [n1 n0 set_next set_rwlock rwlock writer readers].
  rewrite (store_eq _ _ _ _ H3).
  unfold m3 at 1 2. rewrite with_nodes_twice, nodes_with_nodes, insert_fresh.
  unfold bind at 1.
  rewrite (array_store_eq _ k head) by exact Hhead.
  unfold bind, log, ret. reflexivity.
Qed.

Lemma old_node_after_add (ns : list (option cache_node_t)) v a :
  (a < length ns)%nat -> (ns ++ [v]) !! a = ns !! a.
Proof. intros H. apply lookup_app_l, H. Qed.

Lemma chain_after_add fuel ns v p l :
  chain fuel ns p = Some l -> chain fuel (ns ++ [v]) p = Some l.
Proof.
  intros H. apply (chain_transfer _ _ _ _ _ H).
  intros a n _ Ha. exists n. split; [|reflexivity].
  rewrite old_node_after_add; [exact Ha|]. eapply lookup_lt_Some, Ha.
Qed.

Lemma bucket_after_add m m' (k : nat) head new l :
  array m !! k = Some head -> next new = head ->
  nodes m' = nodes m ++ [Some new] ->
  array m' = <[k := Some (length (nodes m))]> (array m) ->
  bucket m k = Some l ->
  bucket m' k = Some (length (nodes m) :: l).
Proof.
  intros Hk Hnext Hn Ha Hb. unfold bucket in *. rewrite Hk in Hb.
  rewrite Ha, Hn.
  rewrite list_lookup_insert_eq by (eapply lookup_lt_Some, Hk).
  rewrite length_app. cbn [length]. rewrite Nat.add_1_r.
  rewrite chain_Some, lookup_fresh, Hnext.
  rewrite (chain_after_add _ _ _ _ _ Hb). reflexivity.
Qed.

Lemma bucket_after_add_other m m' (k j : nat) v lj :
  nodes m' = nodes m ++ [v] ->
  array m' = <[k := Some (length (nodes m))]> (array m) ->
  j <> k -> bucket m j = Some lj -> bucket m' j = Some lj.
Proof.
  intros Hn Ha Hjk Hb. unfold bucket in *.
  rewrite Ha, Hn. rewrite list_lookup_insert_ne by congruence.
  destruct (array m !! j) as [p|]; [|discriminate].
  apply chain_after_add.
  apply (chain_more_fuel _ _ _ _ _ Hb).
  rewrite length_app. lia.
Qed.

(** X9.  With memory for the node and a request that hashes to bucket
    [k], [cache_add] returns SUCCESS and leaves the new node, stamped with
    the clock reading and with a free lock, in front of the old chain of
    its bucket; every node that existed and every other bucket is as it
    was. *)
Theorem cache_add_heads_its_bucket now cache e m (k : nat) l :
  hash (Some (request e)) (capacity cache) = Z.of_nat k ->
  bucket m k = Some l ->
  exists m' n,
    cache_add true now (Some cache) (Some e) m = Ok (SUCCESS, m') /\
    bucket m' k = Some (length (nodes m) :: l) /\
    nodes m' !! length (nodes m) = Some (Some n) /\
    entry n = e /\ last_modified_time n = now /\
    rwlock n = {| readers := O; writer := false |} /\
    (forall a, (a < length (nodes m))%nat -> nodes m' !! a = nodes m !! a) /\
    (forall j lj, j <> k -> bucket m j = Some lj -> bucket m' j = Some lj).
Proof.
  intros Hhash Hb.
  destruct (array m !! k) as [head|] eqn:Hk;
    [|unfold bucket in Hb; rewrite Hk in Hb; discriminate].
  eexists _, {| entry := e; last_modified_time := now;
                rwlock := {| readers := O; writer := false |};
                next := head |}.
  split; [apply (cache_add_eq now cache e m k head Hhash Hk)|].
  split; [|split; [|split; [|split; [|split; [|split]]]]].
  - eapply (bucket_after_add m _ k head _ l Hk); auto; reflexivity.
  - cbn [nodes]. apply lookup_fresh.
  - reflexivity.
  - reflexivity.
  - reflexivity.
  - intros a Ha. cbn [nodes]. apply old_node_after_add, Ha.
  - intros j lj Hj Hbj.
    eapply (bucket_after_add_other m _ k j _ lj); auto; reflexivity.
Qed.

Lemma cache_add_heads_its_bucket_witness :
  exists m' n,
    cache_add true CacheExamples.late (Some CacheExamples.two_buckets)
      (Some CacheExamples.entry_A') CacheExamples.mem_two_buckets
      = Ok (SUCCESS, m') /\
    bucket m' 1 = Some [3; 2; 1]%nat /\
    nodes m' !! 3%nat = Some (Some n) /\
    entry n = CacheExamples.entry_A' /\
    last_modified_time n = CacheExamples.late /\
    rwlock n = {| readers := O; writer := false |} /\
    (forall a, (a < 3)%nat ->
               nodes m' !! a = nodes CacheExamples.mem_two_buckets !! a) /\
    (forall j lj, j <> 1%nat ->
                  bucket CacheExamples.mem_two_buckets j = Some lj ->
                  bucket m' j = Some lj).
Proof.
  apply (cache_add_heads_its_bucket CacheExamples.late
           CacheExamples.two_buckets CacheExamples.entry_A'
           CacheExamples.mem_two_buckets 1 [2; 1]%nat);
    vm_compute; reflexivity.
Defined.

Lemma cache_add_room_success now cache e m r m' :
  cache_add true now (Some cache) (Some e) m = Ok (r, m') -> r = SUCCESS.
Proof.
  intros H. unfold cache_add, cache_node_create in H.
  apply bind_ok in H as (node & m1 & Hnode & H).
  apply bind_ok in Hnode as (a & m0 & _ & Hret).
  inversion Hret; subst node m1.
  apply bind_ok in H as (? & m2 & _ & H).
  apply bind_ok in H as (? & m3 & _ & H).
  apply bind_ok in H as (? & m4 & _ & H).
  apply bind_ok in H as (? & m5 & _ & H).
  apply bind_ok in H as (? & m6 & _ & H).
  apply bind_ok in H as (? & m7 & _ & H).
  apply bind_ok in H as (? & m8 & _ & H).
  inversion H. reflexivity.
Qed.

(** X10.  [cache_add] returns SUCCESS or ERROR, never NOT_FOUND; when it
    returns ERROR (a NULL cache, a NULL entry, or no memory for the node)
    the bucket array and the nodes are as they were and one message has
    been logged. *)
Theorem cache_add_error_changes_nothing room now cache entry0 m r m' :
  cache_add room now cache entry0 m = Ok (r, m') ->
  r = SUCCESS \/
  (r = ERROR /\ array m' = array m /\ nodes m' = nodes m /\
   length (out m') = S (length (out m))).
Proof.
  intros H. destruct cache as [cache|].
  2:{ right. cbn in H. inversion H. cbn. rewrite length_app. cbn.
      repeat split; try reflexivity. lia. }
  destruct entry0 as [e|].
  2:{ right. cbn in H. inversion H. cbn. rewrite length_app. cbn.
      repeat split; try reflexivity. lia. }
  destruct room.
  - left. apply (cache_add_room_success _ _ _ _ _ _ H).
  - right. cbn in H. inversion H. cbn. rewrite length_app. cbn.
    repeat split; try reflexivity. lia.
Qed.

Lemma cache_add_error_changes_nothing_witness :
  ERROR = SUCCESS \/
  (ERROR = ERROR /\
   array (after (cache_add false CacheExamples.late
                   (Some CacheExamples.one_bucket) (Some CacheExamples.entry_B))
            CacheExamples.mem_A) = array CacheExamples.mem_A /\
   nodes (after (cache_add false CacheExamples.late
                   (Some CacheExamples.one_bucket) (Some CacheExamples.entry_B))
            CacheExamples.mem_A) = nodes CacheExamples.mem_A /\
   length (out (after (cache_add false CacheExamples.late
                         (Some CacheExamples.one_bucket)
                         (Some CacheExamples.entry_B))
                  CacheExamples.mem_A))
   = S (length (out CacheExamples.mem_A))).
Proof.
  apply (cache_add_error_changes_nothing false CacheExamples.late
           (Some CacheExamples.one_bucket) (Some CacheExamples.entry_B)
           CacheExamples.mem_A).
  vm_compute; reflexivity.
Defined.

Lemma first_match_same ns ns' req l : forall prev prev',
  (forall a, In a l -> ns' !! a = ns !! a) ->
  option_map (fun h => (snd (fst h), snd h)) (first_match ns' req prev' l) =
  option_map (fun h => (snd (fst h), snd h)) (first_match ns req prev l).
Proof.
  induction l as [|c l IH]; intros prev prev' H; [reflexivity|].
  cbn [first_match]. rewrite (H c (or_introl eq_refl)).
  destruct (ns !! c) as [[n|]|]; try reflexivity.
  destruct (same_request (entry n) req); [reflexivity|].
  apply IH. intros a Ha. apply H. right. exact Ha.
Qed.

Lemma readable_after_add m m' v l :
  nodes m' = nodes m ++ [v] ->
  forallb (readable m) l = true -> forallb (readable m') l = true.
Proof.
  intros Hn. rewrite !forallb_forall. intros H a Hin.
  specialize (H a Hin). rewrite <- H. apply readable_same.
  destruct (readable_live _ _ H) as (n & Ha & _).
  rewrite Hn. apply old_node_after_add. eapply lookup_lt_Some, Ha.
Qed.

Lemma files_under_after_add cache m m' v i l :
  nodes m' = nodes m ++ [v] ->
  forallb (files_under cache m i) l = true ->
  forallb (files_under cache m' i) l = true.
Proof.
  intros Hn. rewrite !forallb_forall. intros H a Hin.
  specialize (H a Hin). rewrite <- H. apply files_under_same.
  rewrite Hn. apply old_node_after_add.
  unfold files_under in H.
  destruct (nodes m !! a) as [[n|]|] eqn:Ha; try discriminate.
  eapply lookup_lt_Some, Ha.
Qed.

(** X11.  Adding an entry does not disturb the lookup of any request that
    does not match it: on a bucket of readable nodes, [cache_get] returns
    after the [cache_add] what it would have returned before, in the
    bucket of the new node as in every other. *)
Theorem cache_add_keeps_other_lookups now now' cache e m m' req (k : nat) l :
  cache_add true now (Some cache) (Some e) m = Ok (SUCCESS, m') ->
  same_request e req = false ->
  hash (Some req) (capacity cache) = Z.of_nat k ->
  bucket m k = Some l ->
  forallb (readable m) l = true ->
  exists r m1 m1',
    cache_get now' (Some cache) req m = Ok (r, m1) /\
    cache_get now' (Some cache) req m' = Ok (r, m1').
Proof.
  intros Hadd Hdiff Hhash Hb Hread.
  destruct (cache_add_ok _ _ _ _ _ _ Hadd) as (head & _ & Hpos & Hhead & Hm').
  set (ke := Z.to_nat (hash (Some (request e)) (capacity cache))) in *.
  set (new := {| entry := e; last_modified_time := now;
                 rwlock := {| readers := O; writer := false |};
                 next := head |}) in *.
  assert (Hn' : nodes m' = nodes m ++ [Some new]) by (rewrite Hm'; reflexivity).
  assert (Ha' : array m' = <[ke := Some (length (nodes m))]> (array m))
    by (rewrite Hm'; reflexivity).
  assert (Hold : forall a, In a l -> nodes m' !! a = nodes m !! a).
  { intros a Hin. rewrite Hn'. apply old_node_after_add.
    destruct (readable_all_live m l Hread a Hin) as (n & Ha).
    eapply lookup_lt_Some, Ha. }
  rewrite (cache_get_first_match now' cache req m k l Hhash Hb Hread).
  destruct (Nat.eq_dec k ke) as [Hk|Hk].
  - subst k.
    assert (Hb' : bucket m' ke = Some (length (nodes m) :: l))
      by (apply (bucket_after_add m m' ke head new l); auto).
    assert (Hread' : forallb (readable m') (length (nodes m) :: l) = true).
    { cbn [forallb]. rewrite (readable_after_add m m' _ l Hn' Hread).
      unfold readable. rewrite Hn', lookup_fresh. reflexivity. }
    rewrite (cache_get_first_match now' cache req m' ke _ Hhash Hb' Hread').
    assert (Hnew : nodes m' !! length (nodes m) = Some (Some new))
      by (rewrite Hn'; apply lookup_fresh).
    cbn [first_match]. rewrite Hnew.
    cbn [new entry]. rewrite Hdiff.
    assert (Heq := first_match_same (nodes m) (nodes m') req l None
                     (Some (length (nodes m))) Hold).
    destruct (first_match (nodes m') req (Some (length (nodes m))) l)
      as [[[p' a'] n']|],
             (first_match (nodes m) req None l) as [[[p a] n]|];
      cbn in Heq; inversion Heq; subst; eexists _, _, _; split; reflexivity.
  - assert (Hb' : bucket m' k = Some l)
      by (apply (bucket_after_add_other m m' ke k (Some new) l); auto).
    assert (Hread' : forallb (readable m') l = true)
      by (apply (readable_after_add m m' _ l Hn' Hread)).
    rewrite (cache_get_first_match now' cache req m' k _ Hhash Hb' Hread').
    assert (Heq := first_match_same (nodes m) (nodes m') req l None None Hold).
    destruct (first_match (nodes m') req None l) as [[[p' a'] n']|],
             (first_match (nodes m) req None l) as [[[p a] n]|];
      cbn in Heq; inversion Heq; subst; eexists _, _, _; split; reflexivity.
Qed.

Lemma cache_add_keeps_other_lookups_witness :
  exists r m1 m1',
    cache_get CacheExamples.later (Some CacheExamples.one_bucket) [x41]
      CacheExamples.mem_A = Ok (r, m1) /\
    cache_get CacheExamples.later (Some CacheExamples.one_bucket) [x41]
      CacheExamples.mem_A_then_B = Ok (r, m1').
Proof.
  apply (cache_add_keeps_other_lookups CacheExamples.early CacheExamples.later
           CacheExamples.one_bucket CacheExamples.entry_B
           CacheExamples.mem_A CacheExamples.mem_A_then_B [x41] 0 [0%nat]);
    vm_compute; reflexivity.
Defined.

(** X12.  [cache_add] keeps the cache well formed: if every bucket is a
    chain of readable nodes filed under it before the call, so it is after
    a call that returns, whatever it returns. *)
Theorem cache_add_keeps_wf room now cache entry0 m r m' :
  cache_wf cache m = true ->
  cache_add room now (Some cache) entry0 m = Ok (r, m') ->
  cache_wf cache m' = true.
Proof.
  intros Hwf H. destruct entry0 as [e|].
  2:{ cbn in H. inversion H. exact Hwf. }
  destruct room.
  2:{ cbn in H. inversion H. exact Hwf. }
  assert (Hr := cache_add_room_success _ _ _ _ _ _ H). subst r.
  destruct (cache_add_ok _ _ _ _ _ _ H) as (head & _ & Hpos & Hhead & Hm').
  set (idx := hash (Some (request e)) (capacity cache)) in *.
  set (ke := Z.to_nat idx) in *.
  set (new := {| entry := e; last_modified_time := now;
                 rwlock := {| readers := O; writer := false |};
                 next := head |}) in *.
  assert (Hn' : nodes m' = nodes m ++ [Some new]) by (rewrite Hm'; reflexivity).
  assert (Ha' : array m' = <[ke := Some (length (nodes m))]> (array m))
    by (rewrite Hm'; reflexivity).
  destruct (cache_wf_elim _ _ Hwf) as (Hcap & Hlen & Hall).
  apply cache_wf_intro; [exact Hcap | rewrite Ha', length_insert; exact Hlen |].
  intros i Hi. rewrite Ha', length_insert in Hi.
  destruct (bucket_filed_elim _ _ _ (Hall i Hi)) as (l & Hb & Hread & Hfiled).
  destruct (Nat.eq_dec i ke) as [->|Hne].
  - apply (bucket_filed_intro cache m' ke (length (nodes m) :: l)).
    + apply (bucket_after_add m m' ke head new l); auto.
    + cbn [forallb]. rewrite (readable_after_add m m' _ l Hn' Hread).
      unfold readable. rewrite Hn', lookup_fresh. reflexivity.
    + cbn [forallb]. rewrite (files_under_after_add cache m m' _ _ l Hn' Hfiled).
      unfold files_under. rewrite Hn', lookup_fresh. cbn [new entry].
      fold idx. unfold ke. rewrite Z2Nat.id by exact Hpos.
      rewrite Z.eqb_refl. reflexivity.
  - apply (bucket_filed_intro cache m' i l).
    + apply (bucket_after_add_other m m' ke i (Some new) l); auto.
    + apply (readable_after_add m m' _ l Hn' Hread).
    + apply (files_under_after_add cache m m' _ _ l Hn' Hfiled).
Qed.

Lemma cache_add_keeps_wf_witness :
  cache_wf CacheExamples.two_buckets
    (after (cache_add true CacheExamples.late (Some CacheExamples.two_buckets)
              (Some CacheExamples.entry_A')) CacheExamples.mem_two_buckets)
  = true.
Proof.
  apply (cache_add_keeps_wf true CacheExamples.late CacheExamples.two_buckets
           (Some CacheExamples.entry_A') CacheExamples.mem_two_buckets SUCCESS);
    vm_compute; reflexivity.
Defined.

(** X13.  [cache_get] keeps the cache well formed, whether it finds an
    entry or not: it changes no link, no lock and no request. *)
Theorem cache_get_keeps_wf now cache req m r m' :
  cache_wf cache m = true ->
  cache_get now (Some cache) req m = Ok (r, m') ->
  cache_wf cache m' = true.
Proof.
  intros Hwf H. destruct r as [e|].
  2:{ rewrite (cache_get_miss _ _ _ _ _ H). exact Hwf. }
  destruct (cache_get_hit _ _ _ _ _ _ H) as (a & n & Ha & _ & _ & ->).
  set (m' := with_nodes m (<[a := Some (set_last_modified_time n now)]> (nodes m))).
  assert (Ha' : nodes m' !! a = Some (Some (set_last_modified_time n now)))
    by (apply (lookup_stored _ _ _ _ Ha)).
  assert (Hother : forall b, b <> a -> nodes m' !! b = nodes m !! b).
  { intros b Hb. unfold m'. cbn. apply list_lookup_insert_ne. congruence. }
  assert (Hreadable : forall b, readable m' b = readable m b).
  { intros b. destruct (Nat.eq_dec b a) as [->|Hb].
    - unfold readable. rewrite Ha', Ha. reflexivity.
    - apply readable_same, Hother, Hb. }
  assert (Hfiles : forall i b, files_under cache m' i b = files_under cache m i b).
  { intros i b. destruct (Nat.eq_dec b a) as [->|Hb].
    - unfold files_under. rewrite Ha', Ha. reflexivity.
    - apply files_under_same, Hother, Hb. }
  destruct (cache_wf_elim _ _ Hwf) as (Hcap & Hlen & Hall).
  apply cache_wf_intro; [exact Hcap | exact Hlen |].
  intros i Hi.
  destruct (bucket_filed_elim _ _ _ (Hall i Hi)) as (l & Hb & Hread & Hfiled).
  apply (bucket_filed_intro cache m' i l).
  - unfold bucket in *. change (array m') with (array m).
    destruct (array m !! i) as [p|]; [|discriminate].
    unfold m' at 1. rewrite nodes_with_nodes, length_insert.
    apply (chain_transfer _ _ _ _ _ Hb).
    intros b nb _ Hnb. destruct (Nat.eq_dec b a) as [->|Hne].
    + rewrite Ha in Hnb. inversion Hnb; subst nb.
      exists (set_last_modified_time n now). split; [exact Ha'|reflexivity].
    + exists nb. split; [|reflexivity]. rewrite (Hother b Hne). exact Hnb.
  - rewrite forallb_forall in *. intros b Hin.
    rewrite Hreadable. apply Hread, Hin.
  - rewrite forallb_forall in *. intros b Hin.
    rewrite Hfiles. apply Hfiled, Hin.
Qed.

Lemma cache_get_keeps_wf_witness :
  cache_wf CacheExamples.two_buckets
    (after (cache_get CacheExamples.later (Some CacheExamples.two_buckets) [x41])
       CacheExamples.mem_two_buckets)
  = true.
Proof.
  apply (cache_get_keeps_wf CacheExamples.later CacheExamples.two_buckets
           [x41] CacheExamples.mem_two_buckets (Some CacheExamples.entry_A));
    vm_compute; reflexivity.
Defined.

(** ** A new cache *)

Lemma cache_get_loop_None fuel now req m :
  cache_get_loop fuel now req None m = Ok (None, m).
Proof. destruct fuel; reflexivity. Qed.

Lemma hash_below_capacity req size :
  0 < size -> hash (Some req) size < size.
Proof.
  intros Hs. unfold hash.
  assert (Hgen : forall bytes h, - size < h < size ->
            - size < fold_left (hash_step size) bytes h < size).
  { induction bytes as [|c bytes IH]; intros h Hh; simpl; [exact Hh|].
    apply IH. apply HashFacts.hash_step_magnitude. exact Hs. }
  apply (Hgen req 0). lia.
Qed.

(** X14.  [cache_create] with memory for the cache and for [capacity > 0]
    buckets returns a cache with the capacity and the expiry asked for
    and with every bucket empty: it is well formed, and for every request
    whose hash is not negative [cache_get] misses and [cache_delete]
    returns NOT_FOUND, both without a trace in memory.  When the [malloc]
    or the [calloc] fails, it returns NULL and logs one message. *)
Theorem cache_create_starts_empty capacity0 expiry m0 :
  0 < capacity0 < 2 ^ 31 ->
  (exists cache m,
     cache_create true true capacity0 expiry m0 = Ok (Some cache, m) /\
     capacity cache = capacity0 /\ entry_expired_time_ms cache = expiry /\
     garbage_collector_running cache = true /\
     nodes m = nodes m0 /\ out m = out m0 /\
     (forall i, (i < Z.to_nat capacity0)%nat -> bucket m i = Some []) /\
     cache_wf cache m = true /\
     forall now req,
       0 <= hash (Some req) capacity0 ->
       cache_get now (Some cache) req m = Ok (None, m) /\
       cache_delete (Some cache) req m = Ok (NOT_FOUND, m)) /\
  (forall room_cache room_array,
     room_cache && room_array = false ->
     cache_create room_cache room_array capacity0 expiry m0 =
       Ok (None,
           with_out m0
             (out m0 ++ ["Cache creation error: Cannot allocate memory"%string]))).
Proof.
  intros Hcap. split.
  - set (cache := {| capacity := capacity0; entry_expired_time_ms := expiry;
                     garbage_collector_running := true |}).
    set (m := with_array m0 (replicate (Z.to_nat capacity0) None)).
    assert (Hrun : cache_create true true capacity0 expiry m0 = Ok (Some cache, m)).
    { unfold cache_create. cbn [andb].
      destruct (Z.leb_spec 0 capacity0); [reflexivity|lia]. }
    assert (Hbucket : forall i, (i < Z.to_nat capacity0)%nat ->
                                bucket m i = Some []).
    { intros i Hi. unfold bucket, m. cbn [array with_array].
      rewrite lookup_replicate_2 by exact Hi. apply chain_None. }
    exists cache, m. repeat split; try reflexivity; try exact Hrun.
    + exact Hbucket.
    + apply cache_wf_intro.
      * cbn. lia.
      * unfold m. cbn [array with_array]. apply length_replicate.
      * intros i Hi. unfold m in Hi. cbn [array with_array] in Hi.
        rewrite length_replicate in Hi.
        apply (bucket_filed_intro cache m i []); [auto|reflexivity|reflexivity].
    + assert (Hlt := hash_below_capacity req capacity0 ltac:(lia)).
      unfold cache_get. cbn [capacity cache].
      unfold bind at 1, array_load.
      destruct (Z.ltb_spec (hash (Some req) capacity0) 0); [lia|].
      unfold m at 1. cbn [array with_array].
      rewrite lookup_replicate_2 by lia.
      unfold bind, node_count. apply cache_get_loop_None.
    + assert (Hlt := hash_below_capacity req capacity0 ltac:(lia)).
      unfold cache_delete. cbn [capacity cache].
      unfold bind at 1, array_load.
      destruct (Z.ltb_spec (hash (Some req) capacity0) 0); [lia|].
      unfold m at 1. cbn [array with_array].
      rewrite lookup_replicate_2 by lia. reflexivity.
  - intros rc ra Hroom. unfold cache_create.
    destruct rc; [|reflexivity]. destruct ra; [discriminate|]. reflexivity.
Qed.

Lemma cache_create_starts_empty_witness :
  (exists cache m,
     cache_create true true 4 60000 (empty_mem 0) = Ok (Some cache, m) /\
     capacity cache = 4 /\ entry_expired_time_ms cache = 60000 /\
     garbage_collector_running cache = true /\
     nodes m = nodes (empty_mem 0) /\ out m = out (empty_mem 0) /\
     (forall i, (i < Z.to_nat 4)%nat -> bucket m i = Some []) /\
     cache_wf cache m = true /\
     forall now req,
       0 <= hash (Some req) 4 ->
       cache_get now (Some cache) req m = Ok (None, m) /\
       cache_delete (Some cache) req m = Ok (NOT_FOUND, m)) /\
  (forall room_cache room_array,
     room_cache && room_array = false ->
     cache_create room_cache room_array 4 60000 (empty_mem 0) =
       Ok (None,
           with_out (empty_mem 0)
             (out (empty_mem 0) ++
              ["Cache creation error: Cannot allocate memory"%string]))).
Proof. apply (cache_create_starts_empty 4 60000 (empty_mem 0)). lia. Defined.

(** ** Deleting the only node of a bucket *)

(** X15.  [cache_delete] of the request of a node that is alone in its
    bucket returns SUCCESS, frees the node and leaves the bucket empty:
    every later [cache_get] in that bucket misses, and every other node
    and bucket is as it was. *)
Theorem cache_delete_lone_node_empties_bucket cache m (k : nat) a n :
  array m !! k = Some (Some a) ->
  nodes m !! a = Some (Some n) ->
  next n = None -> writer (rwlock n) = false ->
  hash (Some (request (entry n))) (capacity cache) = Z.of_nat k ->
  exists m',
    cache_delete (Some cache) (request (entry n)) m = Ok (SUCCESS, m') /\
    bucket m' k = Some [] /\
    nodes m' !! a = Some None /\
    (forall b, b <> a -> nodes m' !! b = nodes m !! b) /\
    (forall j, j <> k -> array m' !! j = array m !! j) /\
    (forall now req,
       hash (Some req) (capacity cache) = Z.of_nat k ->
       cache_get now (Some cache) req m' = Ok (None, m')).
Proof.
  intros Hk Ha Hnext Hw Hhash.
  eexists. split; [apply (cache_delete_single cache m k a n Hk Ha Hnext Hw Hhash)|].
  assert (Hk' : <[k:=None]> (array m) !! k = Some None)
    by (apply list_lookup_insert_eq; eapply lookup_lt_Some, Hk).
  split; [|split; [|split; [|split]]].
  - unfold bucket. cbn [array nodes]. rewrite Hk'. apply chain_None.
  - cbn [nodes]. apply list_lookup_insert_eq. eapply lookup_lt_Some, Ha.
  - intros b Hb. cbn [nodes]. apply list_lookup_insert_ne. congruence.
  - intros j Hj. cbn [array]. apply list_lookup_insert_ne. congruence.
  - intros now req Hreq. unfold cache_get. rewrite Hreq.
    unfold bind at 1. rewrite (array_load_eq _ k None) by exact Hk'.
    unfold bind, node_count. apply cache_get_loop_None.
Qed.

Lemma cache_delete_lone_node_empties_bucket_witness :
  exists m',
    cache_delete (Some CacheExamples.two_buckets) [x42]
      CacheExamples.mem_two_buckets = Ok (SUCCESS, m') /\
    bucket m' 0 = Some [] /\
    nodes m' !! 0%nat = Some None /\
    (forall b, b <> 0%nat ->
               nodes m' !! b = nodes CacheExamples.mem_two_buckets !! b) /\
    (forall j, j <> 0%nat ->
               array m' !! j = array CacheExamples.mem_two_buckets !! j) /\
    (forall now req,
       hash (Some req) (capacity CacheExamples.two_buckets) = Z.of_nat 0 ->
       cache_get now (Some CacheExamples.two_buckets) req m' = Ok (None, m')).
Proof.
  destruct (nodes CacheExamples.mem_two_buckets !! 0%nat) as [[n|]|] eqn:Hn;
    try (vm_compute in Hn; discriminate).
  assert (Hreq : request (entry n) = [x42])
    by (vm_compute in Hn; inversion Hn; reflexivity).
  rewrite <- Hreq.
  apply (cache_delete_lone_node_empties_bucket CacheExamples.two_buckets
           CacheExamples.mem_two_buckets 0 0%nat n).
  - vm_compute; reflexivity.
  - exact Hn.
  - vm_compute in Hn. inversion Hn. reflexivity.
  - vm_compute in Hn. inversion Hn. reflexivity.
  - rewrite Hreq. vm_compute; reflexivity.
Defined.

(** ** The read hold the collector leaves behind *)

(** X16.  After a round of the collector over a bucket in which no node
    has aged, the head of the bucket carries a read hold that nothing
    gives back; a [cache_delete] of a request whose first match is the
    node right behind that head then waits for ever on the write lock of
    the head. *)
Theorem collector_hold_blocks_delete_behind_head
    cache now m (k : nat) h n c nc l req :
  array m !! k = Some (Some h) ->
  nodes m !! h = Some (Some n) ->
  nodes m !! c = Some (Some nc) ->
  chain (length (nodes m)) (nodes m) (Some h) = Some (h :: c :: l) ->
  forallb (readable m) (h :: c :: l) = true ->
  forallb (fun a => negb (aged_at cache now m a)) (h :: c :: l) = true ->
  hash (Some req) (capacity cache) = Z.of_nat k ->
  same_request (entry n) req = false ->
  same_request (entry nc) req = true ->
  exists m1,
    gc_scan_bucket cache now (Z.of_nat k) m = Ok (tt, m1) /\
    nodes m1 !! h = Some (Some (read_held n)) /\
    cache_delete (Some cache) req m1 = Blocked.
Proof.
  intros Hk Hh Hc Hchain Hread Hyoung Hhash Hn Hnc.
  set (m1 := with_nodes m (<[h := Some (read_held n)]> (nodes m))).
  assert (Hw : writer (rwlock n) = false).
  { cbn [forallb] in Hread. apply andb_true_iff in Hread as [Hrh _].
    destruct (readable_live _ _ Hrh) as (n1 & Hh1 & Hw).
    rewrite Hh in Hh1. inversion Hh1; subst n1. exact Hw. }
  assert (Hh1 : nodes m1 !! h = Some (Some (read_held n)))
    by (apply (lookup_stored _ _ _ _ Hh)).
  assert (Hkept : forall a, In a (h :: c :: l) -> kept m m1 a)
    by (intros a _; apply kept_after_read_hold; assumption).
  assert (Hhc : h <> c).
  { assert (Hnd := chain_NoDup _ _ _ _ Hchain).
    apply NoDup_cons_1_1 in Hnd. intros ->. apply Hnd. left. }
  exists m1. split; [|split; [exact Hh1|]].
  - apply (gc_scan_bucket_young cache now m k h n _ Hk Hh Hchain Hread Hyoung).
  - assert (Hb1 : bucket m1 k = Some (h :: c :: l)).
    { unfold bucket. change (array m1) with (array m). rewrite Hk.
      unfold m1 at 1. rewrite nodes_with_nodes, length_insert.
      apply (chain_kept _ m); assumption. }
    assert (Hread1 : forallb (readable m1) (h :: c :: l) = true)
      by (apply (readable_all_kept m); assumption).
    rewrite (cache_delete_first_match cache req m1 k _ Hhash Hb1 Hread1).
    cbn [first_match]. rewrite Hh1. cbn [read_held set_rwlock entry].
    rewrite Hn.
    assert (Hc1 : nodes m1 !! c = Some (Some nc)).
    { unfold m1. rewrite nodes_with_nodes.
      rewrite list_lookup_insert_ne by exact Hhc. exact Hc. }
    rewrite Hc1, Hnc. cbn [delete_effect]. rewrite Hh1. reflexivity.
Qed.

Lemma collector_hold_blocks_delete_behind_head_witness :
  exists m1,
    gc_scan_bucket CacheExamples.two_buckets CacheExamples.later
      (Z.of_nat 1) CacheExamples.mem_two_buckets = Ok (tt, m1) /\
    nodes m1 !! 2%nat =
      Some (Some (read_held
                    {| entry := CacheExamples.entry_C;
                       last_modified_time := CacheExamples.late;
                       rwlock := {| readers := O; writer := false |};
                       next := Some 1%nat |})) /\
    cache_delete (Some CacheExamples.two_buckets) [x41] m1 = Blocked.
Proof.
  apply (collector_hold_blocks_delete_behind_head CacheExamples.two_buckets
           CacheExamples.later CacheExamples.mem_two_buckets 1 2%nat
           {| entry := CacheExamples.entry_C;
              last_modified_time := CacheExamples.late;
              rwlock := {| readers := O; writer := false |};
              next := Some 1%nat |}
           1%nat
           {| entry := CacheExamples.entry_A;
              last_modified_time := CacheExamples.late;
              rwlock := {| readers := O; writer := false |};
              next := None |}
           [] [x41]);
    vm_compute; reflexivity.
Defined.

(** ** Destroying the cache *)

Lemma files_under_one_bucket cache m i j a :
  files_under cache m i a = true -> files_under cache m j a = true -> i = j.
Proof.
  unfold files_under. destruct (nodes m !! a) as [[n|]|]; try discriminate.
  rewrite !Z.eqb_eq. lia.
Qed.

(** The inner loop of [cache_destroy] on a chain: every node of the chain
    is freed after one log line, nothing else is written. *)
Lemma cache_destroy_chain_frees fuel : forall l m curr,
  chain fuel (nodes m) curr = Some l ->
  exists m',
    cache_destroy_chain fuel curr m = Ok (tt, m') /\
    array m' = array m /\
    length (nodes m') = length (nodes m) /\
    (forall a, In a l -> nodes m' !! a = Some None) /\
    (forall a, ~ In a l -> nodes m' !! a = nodes m !! a) /\
    length (out m') = (length (out m) + length l)%nat.
Proof.
  induction fuel as [|f IH]; intros l m curr Hchain.
  - destruct curr; [discriminate|]. inversion Hchain. exists m.
    cbn. repeat split; auto. intros a [].
  - destruct l as [|c l].
    + rewrite (chain_nil _ _ _ Hchain). exists m.
      cbn. repeat split; auto. intros a [].
    + assert (Hnd := chain_NoDup _ _ _ _ Hchain).
      destruct (chain_cons _ _ _ _ _ Hchain) as (f' & n & Hf & -> & Hc & Hrest).
      inversion Hf; subst f'.
      apply NoDup_cons_1_1 in Hnd as Hc_notin.
      set (m2 := {| array := array m; nodes := <[c := None]> (nodes m);
                    out := out m ++
                           [("Delete entry: " ++
                             string_of_list_byte (c_string (request (entry n))))%string] |}).
      assert (Hrest2 : chain f (nodes m2) (next n) = Some l).
      { apply (chain_transfer _ _ _ _ _ Hrest).
        intros a na Hin Ha. exists na. split; [|reflexivity].
        unfold m2. cbn [nodes]. rewrite list_lookup_insert_ne; [exact Ha|].
        intros ->. apply Hc_notin, list_elem_of_In, Hin. }
      destruct (IH l m2 (next n) Hrest2)
        as (m' & Hrun & Harr & Hlen & Hfreed & Hrest' & Hout).
      exists m'. split.
      * cbn [cache_destroy_chain]. unfold bind at 1.
        rewrite (load_eq _ _ _ Hc). unfold bind at 1, log.
        unfold bind at 1, cache_node_destroy, bind at 1.
        assert (Hc1 : nodes (with_out m
                               (out m ++
                                [("Delete entry: " ++
                                  string_of_list_byte
                                    (c_string (request (entry n))))%string])) !! c
                      = Some (Some n)) by exact Hc.
        rewrite (load_eq _ _ _ Hc1).
        unfold cache_entry_destroy, bind at 1, ret at 1.
        unfold free. rewrite Hc1. exact Hrun.
      * split; [exact Harr|].
        split; [rewrite Hlen; unfold m2; cbn [nodes]; apply length_insert|].
        split; [|split].
        -- intros a [<-|Hin]; [|apply Hfreed, Hin].
           rewrite Hrest' by (intros Hin; apply Hc_notin, list_elem_of_In, Hin).
           unfold m2. cbn [nodes]. apply list_lookup_insert_eq.
           eapply lookup_lt_Some, Hc.
        -- intros a Hnot. rewrite Hrest' by (intros Hin; apply Hnot; right; exact Hin).
           unfold m2. cbn [nodes]. apply list_lookup_insert_ne.
           intros ->. apply Hnot. left. reflexivity.
        -- rewrite Hout. unfold m2. cbn [out length]. rewrite length_app.
           cbn [length]. lia.
Qed.

(** The loop of [cache_destroy] over the buckets of a well-formed cache,
    from bucket [k] on: the nodes of the buckets below [k] are freed, the
    others untouched. *)
Lemma cache_destroy_buckets_inv cache m :
  cache_wf cache m = true ->
  forall count k mk,
    (k + count = length (array m))%nat ->
    array mk = array m ->
    length (nodes mk) = length (nodes m) ->
    (forall j l a, (j < k)%nat -> bucket m j = Some l -> In a l ->
                   nodes mk !! a = Some None) ->
    (forall a, (forall j l, (j < k)%nat -> bucket m j = Some l -> ~ In a l) ->
               nodes mk !! a = nodes m !! a) ->
    exists m',
      cache_destroy_buckets count (Z.of_nat k) mk = Ok (tt, m') /\
      array m' = array m /\
      (forall j l a, bucket m j = Some l -> In a l ->
                     nodes m' !! a = Some None) /\
      (forall a, (forall j l, bucket m j = Some l -> ~ In a l) ->
                 nodes m' !! a = nodes m !! a).
Proof.
  intros Hwf. destruct (cache_wf_elim _ _ Hwf) as (Hcap & Hlen & Hall).
  induction count as [|count IH]; intros k mk Hsum Harr Hnlen Hfreed Hrest.
  - exists mk. split; [reflexivity|]. split; [exact Harr|]. split.
    + intros j l a Hb Hin. apply (Hfreed j l a); [|exact Hb|exact Hin].
      unfold bucket in Hb. destruct (array m !! j) eqn:Hj; [|discriminate].
      apply lookup_lt_Some in Hj. lia.
    + intros a Hnot. apply Hrest. intros j l _. apply Hnot.
  - assert (Hk : (k < length (array m))%nat) by lia.
    destruct (bucket_filed_elim _ _ _ (Hall k Hk)) as (lk & Hbk & Hreadk & Hfiledk).
    assert (Hdisjoint : forall j l a, j <> k -> bucket m j = Some l ->
                                      In a l -> ~ In a lk).
    { intros j l a Hjk Hb Hin Hink.
      assert (Hj : (j < length (array m))%nat).
      { unfold bucket in Hb. destruct (array m !! j) eqn:Hj; [|discriminate].
        eapply lookup_lt_Some, Hj. }
      destruct (bucket_filed_elim _ _ _ (Hall j Hj)) as (lj & Hbj & _ & Hfiledj).
      rewrite Hb in Hbj. inversion Hbj; subst lj.
      rewrite forallb_forall in Hfiledj, Hfiledk.
      apply Hjk.
      apply (files_under_one_bucket cache m j k a); auto. }
    assert (Hsame : forall a, In a lk -> nodes mk !! a = nodes m !! a).
    { intros a Hin. apply Hrest. intros j l Hj Hb Hin'.
      apply (Hdisjoint j l a ltac:(lia) Hb Hin' Hin). }
    destruct (array m !! k) as [head|] eqn:Hhead;
      [|unfold bucket in Hbk; rewrite Hhead in Hbk; discriminate].
    assert (Hchain : chain (length (nodes mk)) (nodes mk) head = Some lk).
    { rewrite Hnlen. unfold bucket in Hbk. rewrite Hhead in Hbk.
      apply (chain_transfer _ _ _ _ _ Hbk).
      intros a n Hin Ha. exists n. split; [|reflexivity].
      rewrite (Hsame a Hin). exact Ha. }
    destruct (cache_destroy_chain_frees _ _ _ _ Hchain)
      as (m1 & Hrun & Harr1 & Hlen1 & Hfreed1 & Hrest1 & _).
    destruct (IH (S k) m1) as (m' & Hloop & Hfinal).
    + lia.
    + congruence.
    + congruence.
    + intros j l a Hj Hb Hin.
      destruct (Nat.eq_dec j k) as [->|Hjk].
      * rewrite Hbk in Hb. inversion Hb; subst l. apply Hfreed1, Hin.
      * rewrite Hrest1 by (apply (Hdisjoint j l a Hjk Hb Hin)).
        apply (Hfreed j l a); [lia|exact Hb|exact Hin].
    + intros a Hnot.
      rewrite Hrest1 by (apply (Hnot k lk); [lia|exact Hbk]).
      apply Hrest. intros j l Hj. apply Hnot. lia.
    + exists m'. split; [|exact Hfinal].
      cbn [cache_destroy_buckets]. unfold bind at 1.
      assert (Hhead' : array mk !! k = Some head) by (rewrite Harr; exact Hhead).
      rewrite (array_load_eq _ _ _ Hhead').
      unfold bind at 1, node_count. unfold bind at 1. rewrite Hrun.
      rewrite CIntFacts.int_add_small
        by (unfold int_min, int_max; change (2 ^ 31) with 2147483648 in *; lia).
      replace (Z.of_nat k + 1) with (Z.of_nat (S k)) by lia.
      exact Hloop.
Qed.

(** X17.  [cache_destroy] on a well-formed cache returns after it has
    freed every node linked in a bucket and the bucket array itself; a
    node that no bucket links is left as it was. *)
Theorem cache_destroy_frees_every_linked_node cache m :
  cache_wf cache m = true ->
  exists m',
    cache_destroy (Some cache) m = Ok (tt, m') /\
    array m' = [] /\
    (forall i l a, bucket m i = Some l -> In a l ->
                   nodes m' !! a = Some None) /\
    (forall a, (forall i l, bucket m i = Some l -> ~ In a l) ->
               nodes m' !! a = nodes m !! a).
Proof.
  intros Hwf. destruct (cache_wf_elim _ _ Hwf) as (Hcap & Hlen & _).
  destruct (cache_destroy_buckets_inv cache m Hwf
              (Z.to_nat (capacity cache)) 0 m)
    as (m1 & Hrun & Harr & Hfreed & Hrest).
  - lia.
  - reflexivity.
  - reflexivity.
  - intros j l a Hj. lia.
  - intros a _. reflexivity.
  - exists (with_array m1 []). split; [|split; [reflexivity|split]].
    + unfold cache_destroy, bind. change (Z.of_nat 0) with 0 in Hrun.
      rewrite Hrun. reflexivity.
    + exact Hfreed.
    + exact Hrest.
Qed.

Lemma cache_destroy_frees_every_linked_node_witness :
  exists m',
    cache_destroy (Some CacheExamples.two_buckets)
      CacheExamples.mem_two_buckets = Ok (tt, m') /\
    array m' = [] /\
    (forall i l a, bucket CacheExamples.mem_two_buckets i = Some l -> In a l ->
                   nodes m' !! a = Some None) /\
    (forall a, (forall i l, bucket CacheExamples.mem_two_buckets i = Some l ->
                            ~ In a l) ->
               nodes m' !! a = nodes CacheExamples.mem_two_buckets !! a).
Proof.
  apply (cache_destroy_frees_every_linked_node CacheExamples.two_buckets
           CacheExamples.mem_two_buckets).
  vm_compute; reflexivity.
Defined.

(** ** Deletions that keep the cache well formed *)

Lemma buckets_disjoint cache m i j li lj a :
  cache_wf cache m = true ->
  bucket m i = Some li -> bucket m j = Some lj ->
  In a li -> In a lj -> i = j.
Proof.
  intros Hwf Hbi Hbj Hini Hinj.
  destruct (cache_wf_elim _ _ Hwf) as (_ & _ & Hall).
  assert (Hlt : forall k l, bucket m k = Some l -> (k < length (array m))%nat).
  { intros k l Hb. unfold bucket in Hb.
    destruct (array m !! k) eqn:Hk; [|discriminate].
    eapply lookup_lt_Some, Hk. }
  destruct (bucket_filed_elim _ _ _ (Hall i (Hlt _ _ Hbi))) as (li' & Hbi' & _ & Hfi).
  destruct (bucket_filed_elim _ _ _ (Hall j (Hlt _ _ Hbj))) as (lj' & Hbj' & _ & Hfj).
  rewrite Hbi in Hbi'. inversion Hbi'; subst li'.
  rewrite Hbj in Hbj'. inversion Hbj'; subst lj'.
  rewrite forallb_forall in Hfi, Hfj.
  apply (files_under_one_bucket cache m i j a); auto.
Qed.

Lemma bucket_filed_unchanged cache m m' i :
  bucket_filed cache m i = true ->
  array m' !! i = array m !! i ->
  length (nodes m') = length (nodes m) ->
  (forall l a, bucket m i = Some l -> In a l -> nodes m' !! a = nodes m !! a) ->
  bucket_filed cache m' i = true.
Proof.
  intros Hf Harr Hlen Hsame.
  destruct (bucket_filed_elim _ _ _ Hf) as (l & Hb & Hread & Hfiled).
  assert (Hs : forall a, In a l -> nodes m' !! a = nodes m !! a)
    by (intros a; apply (Hsame l a Hb)).
  clear Hsame.
  apply (bucket_filed_intro cache m' i l).
  - unfold bucket in *. rewrite Harr, Hlen.
    destruct (array m !! i) as [p|]; [|discriminate].
    apply (chain_transfer _ _ _ _ _ Hb).
    intros a n Hin Ha. exists n. split; [|reflexivity].
    rewrite (Hs a Hin). exact Ha.
  - rewrite forallb_forall in *. intros a Hin.
    rewrite (readable_same m m' a (Hs a Hin)). apply Hread, Hin.
  - rewrite forallb_forall in *. intros a Hin.
    rewrite (files_under_same cache m m' i a (Hs a Hin)).
    apply Hfiled, Hin.
Qed.

Lemma first_match_head ns req l c n :
  first_match ns req None l = Some (None, c, n) -> exists l', l = c :: l'.
Proof.
  destruct l as [|a l]; [discriminate|]. cbn.
  destruct (ns !! a) as [[na|]|]; try discriminate.
  destruct (same_request (entry na) req).
  - intros H. inversion H; subst. exists l. reflexivity.
  - intros H. exfalso.
    assert (Hgen : forall l0 q, first_match ns req (Some q) l0
                                <> Some (None, c, n)).
    { induction l0 as [|b l0 IH]; intros q; cbn; [discriminate|].
      destruct (ns !! b) as [[nb|]|]; try discriminate.
      destruct (same_request (entry nb) req); [discriminate|apply IH]. }
    apply (Hgen _ _ H).
Qed.

(** X18.  [cache_delete] keeps the cache well formed in every case but
    one: unless the node it removes is the head of a bucket with a
    successor behind it, every bucket is after the call, as before, a
    chain of readable nodes filed under it. *)
Theorem cache_delete_keeps_wf cache req m r m' :
  cache_wf cache m = true ->
  cache_delete (Some cache) req m = Ok (r, m') ->
  (forall l c n,
     bucket m (Z.to_nat (hash (Some req) (capacity cache))) = Some l ->
     first_match (nodes m) req None l = Some (None, c, n) ->
     next n = None) ->
  cache_wf cache m' = true.
Proof.
  intros Hwf H Hhead.
  destruct (cache_wf_elim _ _ Hwf) as (Hcap & Hlen & Hall).
  set (k := Z.to_nat (hash (Some req) (capacity cache))) in *.
  assert (Hk : 0 <= hash (Some req) (capacity cache) /\
               (k < length (array m))%nat).
  { unfold cache_delete in H.
    apply bind_ok in H as (curr & m1 & Hload & _).
    unfold array_load in Hload.
    destruct (Z.ltb_spec (hash (Some req) (capacity cache)) 0);
      [discriminate|].
    fold k in Hload. destruct (array m !! k) eqn:Hak; [|discriminate].
    split; [assumption|]. eapply lookup_lt_Some, Hak. }
  destruct Hk as [Hpos Hk].
  assert (Hhash : hash (Some req) (capacity cache) = Z.of_nat k)
    by (unfold k; rewrite Z2Nat.id; [reflexivity|exact Hpos]).
  destruct (bucket_filed_elim _ _ _ (Hall k Hk)) as (l & Hb & Hread & Hfiled).
  rewrite (cache_delete_first_match cache req m k l Hhash Hb Hread) in H.
  destruct (first_match (nodes m) req None l) as [[[p c] n]|] eqn:Hfm.
  2:{ inversion H; subst. exact Hwf. }
  destruct (first_match_live _ _ _ _ _ Hfm) as (Hc & _ & Hcin).
  cbn [fst snd] in Hc, Hcin.
  assert (Hnd : NoDup l).
  { unfold bucket in Hb. destruct (array m !! k); [|discriminate].
    apply (chain_NoDup _ _ _ _ Hb). }
  destruct p as [p|]; cbn [delete_effect] in H.
  - (* the node sits behind [p] *)
    destruct (nodes m !! p) as [[pn|]|] eqn:Hp; try discriminate.
    destruct (readers (rwlock pn)) eqn:Hfree; [|discriminate].
    inversion H; subst r m'. clear H.
    destruct (first_match_place _ _ _ _ _ _ _ Hfm)
      as [(Habs & _)|(l1 & l2 & ->)]; [discriminate|].
    assert (Hpc : p <> c).
    { intros ->. apply NoDup_app in Hnd as (_ & _ & Hnd).
      apply NoDup_cons_1_1 in Hnd. apply Hnd. left. }
    assert (Hc_out : ~ In c (l1 ++ p :: l2)).
    { intros Hin. apply in_app_or in Hin.
      apply NoDup_app in Hnd as (_ & Hsep & Hnd2).
      destruct Hin as [Hin|[Heq|Hin]].
      - apply (Hsep c); [apply list_elem_of_In, Hin|]. right. left.
      - congruence.
      - apply NoDup_cons_1_2, NoDup_cons_1_1 in Hnd2.
        apply Hnd2, list_elem_of_In, Hin. }
    apply cache_wf_intro; [exact Hcap | exact Hlen |].
    cbn [array nodes]. intros i Hi.
    destruct (Nat.eq_dec i k) as [->|Hik].
    + apply (bucket_filed_intro _ _ k (l1 ++ p :: l2)).
      * unfold bucket in *. cbn [array nodes].
        destruct (array m !! k) as [head|]; [|discriminate].
        rewrite !length_insert.
        apply (chain_unlink _ _ _ _ _ _ _ _ _ Hb Hp Hc).
      * rewrite forallb_forall in *. intros a Hin.
        assert (Hal : In a (l1 ++ p :: c :: l2)).
        { apply in_app_or in Hin. apply in_or_app.
          destruct Hin as [Hin|[Heq|Hin]]; [left; exact Hin| |];
            right; [left; exact Heq|right; right; exact Hin]. }
        assert (Hac : a <> c) by (intros ->; apply Hc_out, Hin).
        specialize (Hread a Hal). unfold readable in *. cbn [nodes].
        rewrite list_lookup_insert_ne by congruence.
        destruct (Nat.eq_dec a p) as [->|Hap].
        -- rewrite list_lookup_insert_eq by (eapply lookup_lt_Some, Hp).
           rewrite Hp in Hread. exact Hread.
        -- rewrite list_lookup_insert_ne by congruence. exact Hread.
      * rewrite forallb_forall in *. intros a Hin.
        assert (Hal : In a (l1 ++ p :: c :: l2)).
        { apply in_app_or in Hin. apply in_or_app.
          destruct Hin as [Hin|[Heq|Hin]]; [left; exact Hin| |];
            right; [left; exact Heq|right; right; exact Hin]. }
        assert (Hac : a <> c) by (intros ->; apply Hc_out, Hin).
        specialize (Hfiled a Hal). unfold files_under in *. cbn [nodes].
        rewrite list_lookup_insert_ne by congruence.
        destruct (Nat.eq_dec a p) as [->|Hap].
        -- rewrite list_lookup_insert_eq by (eapply lookup_lt_Some, Hp).
           rewrite Hp in Hfiled. exact Hfiled.
        -- rewrite list_lookup_insert_ne by congruence. exact Hfiled.
    + apply (bucket_filed_unchanged cache m _ i (Hall i Hi)).
      * reflexivity.
      * cbn [nodes]. rewrite !length_insert. reflexivity.
      * intros li a Hbi Hin. cbn [nodes].
        assert (Hnot : ~ In a (l1 ++ p :: c :: l2)).
        { intros Hin'. apply Hik.
          apply (buckets_disjoint cache m i k li _ a Hwf Hbi Hb Hin Hin'). }
        rewrite !list_lookup_insert_ne; [reflexivity| |].
        -- intros ->. apply Hnot, in_or_app. right. left. reflexivity.
        -- intros ->. apply Hnot, in_or_app. right. right. left. reflexivity.
  - (* the node is the head *)
    assert (Hnext := Hhead l c n Hb Hfm). rewrite Hnext in H.
    inversion H; subst r m'. clear H.
    apply cache_wf_intro;
      [exact Hcap | cbn [array]; rewrite length_insert; exact Hlen |].
    cbn [array]. rewrite length_insert. intros i Hi.
    destruct (Nat.eq_dec i k) as [->|Hik].
    + apply (bucket_filed_intro _ _ k []); [|reflexivity|reflexivity].
      unfold bucket. cbn [array nodes].
      rewrite list_lookup_insert_eq by exact Hk. apply chain_None.
    + apply (bucket_filed_unchanged cache m _ i (Hall i Hi)).
      * cbn [array]. apply list_lookup_insert_ne. congruence.
      * cbn [nodes]. apply length_insert.
      * intros li a Hbi Hin. cbn [nodes].
        apply list_lookup_insert_ne. intros ->. apply Hik.
        apply (buckets_disjoint cache m i k li l a Hwf Hbi Hb Hin Hcin).
Qed.

Lemma cache_delete_keeps_wf_witness :
  cache_wf CacheExamples.two_buckets
    (after (cache_delete (Some CacheExamples.two_buckets) [x41])
       CacheExamples.mem_two_buckets) = true.
Proof.
  apply (cache_delete_keeps_wf CacheExamples.two_buckets [x41]
           CacheExamples.mem_two_buckets SUCCESS).
  - vm_compute; reflexivity.
  - vm_compute; reflexivity.
  - intros l c n Hb Hfm. vm_compute in Hb. inversion Hb; subst l.
    vm_compute in Hfm. discriminate.
Defined.

(** ** The collector on a bucket whose head has aged *)

(** X25.  When the head of a bucket of two or more nodes has aged and the
    nodes behind it have not, the round of the collector over the bucket
    returns after [cache_delete] has freed the head, and the bucket still
    points to it: the next round of the collector over this bucket, and
    every [cache_get] in it, reads the freed node. *)
Theorem collector_expiring_head_leaves_dangling_bucket
    cache now m (k : nat) h n c l :
  array m !! k = Some (Some h) ->
  nodes m !! h = Some (Some n) ->
  chain (length (nodes m)) (nodes m) (Some h) = Some (h :: c :: l) ->
  forallb (readable m) (h :: c :: l) = true ->
  aged cache now n = true ->
  forallb (fun a => negb (aged_at cache now m a)) (c :: l) = true ->
  hash (Some (request (entry n))) (capacity cache) = Z.of_nat k ->
  exists m2,
    gc_scan_bucket cache now (Z.of_nat k) m = Ok (tt, m2) /\
    nodes m2 !! h = Some None /\
    array m2 !! k = Some (Some h) /\
    (forall a, a <> h -> nodes m2 !! a = nodes m !! a) /\
    (forall now', gc_scan_bucket cache now' (Z.of_nat k) m2 = Fault) /\
    (forall now' req,
       hash (Some req) (capacity cache) = Z.of_nat k ->
       cache_get now' (Some cache) req m2 = Fault).
Proof.
  intros Hk Hh Hchain Hread Haged Hyoung Hhash.
  assert (Hnd := chain_NoDup _ _ _ _ Hchain).
  apply NoDup_cons_1_1 in Hnd as Hh_notin.
  destruct (chain_cons _ _ _ _ _ Hchain) as (f & n0 & Hf & _ & Hh0 & Hrest).
  rewrite Hh in Hh0. inversion Hh0; subst n0. clear Hh0.
  destruct (chain_cons _ _ _ _ _ Hrest) as (f1 & nc & _ & Hnext & _ & _).
  change (readable m h && forallb (readable m) (c :: l) = true) in Hread.
  apply andb_true_iff in Hread as [Hrh Hread].
  destruct (readable_live _ _ Hrh) as (n1 & Hh1 & Hw).
  rewrite Hh in Hh1. inversion Hh1; subst n1. clear Hh1.
  set (m1 := with_nodes m (<[h := Some (read_held n)]> (nodes m))).
  assert (Hm1 : nodes m1 !! h = Some (Some (read_held n)))
    by (apply (lookup_stored _ _ _ _ Hh)).
  set (m2 := {| array := array m; nodes := <[h := None]> (nodes m);
                out := out m ++ ["Cache entry destroy"%string] |}).
  assert (Hsame : forall a, a <> h -> nodes m2 !! a = nodes m !! a).
  { intros a Ha. unfold m2. cbn [nodes].
    apply list_lookup_insert_ne. congruence. }
  assert (Hin_ne : forall a, In a (c :: l) -> a <> h).
  { intros a Hin ->. apply Hh_notin, list_elem_of_In, Hin. }
  assert (Hh2 : nodes m2 !! h = Some None).
  { unfold m2. cbn [nodes]. apply list_lookup_insert_eq.
    eapply lookup_lt_Some, Hh. }
  assert (Hk2 : array m2 !! k = Some (Some h)) by exact Hk.
  exists m2. split; [|split; [exact Hh2|split; [exact Hk2|split; [exact Hsame|split]]]].
  - unfold gc_scan_bucket, bind at 1. rewrite (array_load_eq _ _ _ Hk).
    unfold bind at 1. rewrite (rdlock_eq _ _ _ Hh Hw). fold m1.
    unfold bind at 1, node_count.
    replace (length (nodes m1)) with (S f)
      by (unfold m1; rewrite nodes_with_nodes, length_insert; exact (eq_sym Hf)).
    rewrite (gc_scan_chain_step cache now f h (read_held n) m1 Hm1 eq_refl).
    change (aged cache now (read_held n)) with (aged cache now n).
    rewrite Haged. unfold bind at 1.
    rewrite (cache_delete_head_with_successor cache m1 k h (read_held n) c
               Hk Hm1 Hnext eq_refl Hhash).
    change (next (read_held n)) with (next n). rewrite Hnext.
    unfold m1 at 1 2 3. cbn [array nodes out with_nodes].
    rewrite list_insert_insert_eq. fold m2.
    apply (gc_scan_chain_young cache now f (c :: l)).
    + rewrite <- Hnext. apply (chain_transfer _ _ _ _ _ Hrest).
      intros a na Hin Ha. exists na. split; [|reflexivity].
      rewrite (Hsame a (Hin_ne a Hin)). exact Ha.
    + rewrite forallb_forall in Hread. apply forallb_forall. intros a Hin.
      rewrite (readable_same m m2 a (Hsame a (Hin_ne a Hin))).
      apply Hread, Hin.
    + rewrite forallb_forall in Hyoung. apply forallb_forall. intros a Hin.
      unfold aged_at. rewrite (Hsame a (Hin_ne a Hin)).
      apply (Hyoung a Hin).
  - intros now'. unfold gc_scan_bucket, bind at 1.
    rewrite (array_load_eq _ _ _ Hk2).
    unfold bind at 1, pthread_rwlock_rdlock, bind at 1, load.
    rewrite Hh2. reflexivity.
  - intros now' req Hreq.
    apply (cache_get_from_freed_head now' cache m2 k h req Hk2 Hh2 Hreq).
Qed.

Lemma collector_expiring_head_leaves_dangling_bucket_witness :
  exists m2,
    gc_scan_bucket CacheExamples.one_bucket CacheExamples.early_2s
      (Z.of_nat 0) CacheExamples.mem_old_A_new_B = Ok (tt, m2) /\
    nodes m2 !! 1%nat = Some None /\
    array m2 !! 0%nat = Some (Some 1%nat) /\
    (forall a, a <> 1%nat ->
               nodes m2 !! a = nodes CacheExamples.mem_old_A_new_B !! a) /\
    (forall now',
       gc_scan_bucket CacheExamples.one_bucket now' (Z.of_nat 0) m2 = Fault) /\
    (forall now' req,
       hash (Some req) (capacity CacheExamples.one_bucket) = Z.of_nat 0 ->
       cache_get now' (Some CacheExamples.one_bucket) req m2 = Fault).
Proof.
  apply (collector_expiring_head_leaves_dangling_bucket
           CacheExamples.one_bucket CacheExamples.early_2s
           CacheExamples.mem_old_A_new_B 0 1%nat
           {| entry := CacheExamples.entry_A;
              last_modified_time := CacheExamples.early;
              rwlock := {| readers := O; writer := false |};
              next := Some 0%nat |}
           0%nat []);
    vm_compute; reflexivity.
Defined.

(** ** The [deleted] flag *)

Lemma no_entry_flagged_lookup m a n :
  no_entry_flagged m = true -> nodes m !! a = Some (Some n) ->
  deleted (entry n) = false.
Proof.
  unfold no_entry_flagged. intros Hall Ha.
  rewrite forallb_forall in Hall.
  specialize (Hall (Some n)). cbn in Hall.
  apply negb_true_iff, Hall.
  apply list_elem_of_In, list_elem_of_lookup. exists a. exact Ha.
Qed.






(** *** The operations keep the invariant *)

Lemma no_entry_flagged_unlinked m :
  no_entry_flagged m = true -> flagged_unlinked m = true.
Proof.
  intros H. unfold flagged_unlinked. apply forallb_forall. intros a _.
  destruct (nodes m !! a) as [[n|]|] eqn:Ha; try reflexivity.
  apply negb_true_iff. apply (no_entry_flagged_lookup m a n H Ha).
Qed.

Lemma no_new_entry_refl m : no_new_entry m m.
Proof. intros a n Ha. exists n. auto. Qed.

Lemma no_new_entry_trans m1 m2 m3 :
  no_new_entry m1 m2 -> no_new_entry m2 m3 -> no_new_entry m1 m3.
Proof.
  intros H12 H23 a n3 Ha. destruct (H23 a n3 Ha) as (n2 & Ha2 & He2).
  destruct (H12 a n2 Ha2) as (n1 & Ha1 & He1).
  exists n1. split; [exact Ha1|congruence].
Qed.

Lemma no_new_entry_same_nodes m m' : nodes m' = nodes m -> no_new_entry m m'.
Proof. intros Hn a n Ha. rewrite Hn in Ha. exists n. auto. Qed.

Lemma no_new_entry_flags m m' :
  no_entry_flagged m = true -> no_new_entry m m' ->
  no_entry_flagged m' = true.
Proof.
  intros Hm Hnew. unfold no_entry_flagged. apply forallb_forall.
  intros [n'|] Hin; [|reflexivity].
  apply list_elem_of_In, list_elem_of_lookup in Hin as (a & Ha).
  destruct (Hnew a n' Ha) as (n & Hn & He).
  apply negb_true_iff. rewrite He.
  apply (no_entry_flagged_lookup m a n Hm Hn).
Qed.

Lemma store_no_new a n' m r m1 :
  store a n' m = Ok (r, m1) ->
  (forall n, nodes m !! a = Some (Some n) -> entry n' = entry n) ->
  no_new_entry m m1.
Proof.
  unfold store. destruct (nodes m !! a) as [[n|]|] eqn:Ha; try discriminate.
  intros H He. inversion H; subst. intros b nb Hb. cbn in Hb.
  destruct (Nat.eq_dec b a) as [->|Hne].
  - rewrite list_lookup_insert_eq in Hb by (eapply lookup_lt_Some, Ha).
    inversion Hb; subst. exists n. auto.
  - rewrite list_lookup_insert_ne in Hb by congruence. exists nb. auto.
Qed.

Lemma free_no_new a m r m1 : free a m = Ok (r, m1) -> no_new_entry m m1.
Proof.
  unfold free. destruct (nodes m !! a) as [[n|]|] eqn:Ha; try discriminate.
  intros H. inversion H; subst. intros b nb Hb. cbn in Hb.
  destruct (Nat.eq_dec b a) as [->|Hne].
  - rewrite list_lookup_insert_eq in Hb by (eapply lookup_lt_Some, Ha).
    discriminate.
  - rewrite list_lookup_insert_ne in Hb by congruence. exists nb. auto.
Qed.

Lemma load_ok a m n m1 :
  load a m = Ok (n, m1) -> nodes m !! a = Some (Some n) /\ m1 = m.
Proof.
  unfold load. destruct (nodes m !! a) as [[n0|]|]; try discriminate.
  intros H. inversion H. auto.
Qed.

Lemma rdlock_no_new a m r m1 :
  pthread_rwlock_rdlock a m = Ok (r, m1) -> no_new_entry m m1.
Proof.
  unfold pthread_rwlock_rdlock. intros H.
  apply bind_ok in H as (n & m0 & Hload & H).
  apply load_ok in Hload as [Ha ->].
  destruct (writer (rwlock n)); [discriminate|].
  apply (store_no_new _ _ _ _ _ H). intros n0 Hn0.
  rewrite Ha in Hn0. inversion Hn0. reflexivity.
Qed.

Lemma wrlock_no_new a m r m1 :
  pthread_rwlock_wrlock a m = Ok (r, m1) -> no_new_entry m m1.
Proof.
  unfold pthread_rwlock_wrlock. intros H.
  apply bind_ok in H as (n & m0 & Hload & H).
  apply load_ok in Hload as [Ha ->].
  destruct (writer (rwlock n)); [discriminate|].
  destruct (readers (rwlock n)); [|discriminate].
  apply (store_no_new _ _ _ _ _ H). intros n0 Hn0.
  rewrite Ha in Hn0. inversion Hn0. reflexivity.
Qed.

Lemma unlock_no_new a m r m1 :
  pthread_rwlock_unlock a m = Ok (r, m1) -> no_new_entry m m1.
Proof.
  unfold pthread_rwlock_unlock. intros H.
  apply bind_ok in H as (n & m0 & Hload & H).
  apply load_ok in Hload as [Ha ->].
  assert (He : forall l n0, nodes m !! a = Some (Some n0) ->
                            entry (set_rwlock n l) = entry n0).
  { intros l n0 Hn0. rewrite Ha in Hn0. inversion Hn0. reflexivity. }
  destruct (writer (rwlock n)).
  - apply (store_no_new _ _ _ _ _ H), He.
  - destruct (readers (rwlock n)); [discriminate|].
    apply (store_no_new _ _ _ _ _ H), He.
Qed.

Lemma array_store_no_new i p m r m1 :
  array_store i p m = Ok (r, m1) -> no_new_entry m m1.
Proof.
  unfold array_store. destruct (i <? 0); [discriminate|].
  destruct (array m !! Z.to_nat i); [|discriminate].
  intros H. inversion H. apply no_new_entry_same_nodes. reflexivity.
Qed.

Lemma log_no_new msg m r m1 : log msg m = Ok (r, m1) -> no_new_entry m m1.
Proof.
  intros H. inversion H. apply no_new_entry_same_nodes. reflexivity.
Qed.

Lemma cache_node_destroy_no_new p m r m1 :
  cache_node_destroy p m = Ok (r, m1) -> no_new_entry m m1.
Proof.
  destruct p as [a|]; cbn [cache_node_destroy]; [|apply log_no_new].
  intros H. apply bind_ok in H as (n & m0 & Hload & H).
  apply load_ok in Hload as [_ ->].
  apply bind_ok in H as (? & m2 & Hd & H).
  inversion Hd; subst. apply (free_no_new _ _ _ _ H).
Qed.

Lemma cache_delete_loop_no_new fuel idx req : forall prev curr m r m',
  cache_delete_loop fuel idx req prev curr m = Ok (r, m') ->
  no_new_entry m m'.
Proof.
  induction fuel as [|fuel IH]; intros prev curr m r m' H.
  - destruct curr; [discriminate|]. inversion H. apply no_new_entry_refl.
  - destruct curr as [c|]; [|inversion H; apply no_new_entry_refl].
    cbn [cache_delete_loop] in H.
    apply bind_ok in H as (? & m1 & Hlock & H).
    apply rdlock_no_new in Hlock.
    apply (no_new_entry_trans _ _ _ Hlock).
    apply bind_ok in H as (n & m2 & Hload & H).
    apply load_ok in Hload as [Hc ->].
    destruct (same_request (entry n) req).
    + apply bind_ok in H as (? & m3 & Hunlink & H).
      assert (H13 : no_new_entry m1 m3).
      { destruct prev as [p|].
        - apply bind_ok in Hunlink as (? & m4 & Hw & Hunlink).
          apply wrlock_no_new in Hw. apply (no_new_entry_trans _ _ _ Hw).
          apply bind_ok in Hunlink as (pn & m5 & Hlp & Hunlink).
          apply load_ok in Hlp as [Hp ->].
          apply bind_ok in Hunlink as (? & m6 & Hst & Hunlink).
          apply (no_new_entry_trans _ m6).
          + apply (store_no_new _ _ _ _ _ Hst). intros n0 Hn0.
            rewrite Hp in Hn0. inversion Hn0. reflexivity.
          + apply (unlock_no_new _ _ _ _ Hunlink).
        - destruct (next n).
          + inversion Hunlink. apply no_new_entry_refl.
          + apply (array_store_no_new _ _ _ _ _ Hunlink). }
      apply (no_new_entry_trans _ _ _ H13).
      apply bind_ok in H as (? & m7 & Hu & H).
      apply unlock_no_new in Hu. apply (no_new_entry_trans _ _ _ Hu).
      apply bind_ok in H as (? & m8 & Hd & H).
      apply cache_node_destroy_no_new in Hd.
      apply (no_new_entry_trans _ _ _ Hd).
      apply bind_ok in H as (? & m9 & Hl & H).
      apply log_no_new in Hl. inversion H; subst. exact Hl.
    + apply bind_ok in H as (? & m3 & Hu & H).
      apply unlock_no_new in Hu. apply (no_new_entry_trans _ _ _ Hu).
      apply (IH _ _ _ _ _ H).
Qed.

(** [cache_delete] frees nodes and moves links; it creates no entry and
    changes none. *)
Lemma cache_delete_no_new cache req m r m' :
  cache_delete cache req m = Ok (r, m') -> no_new_entry m m'.
Proof.
  destruct cache as [cache|]; cbn [cache_delete]; intros H.
  - apply bind_ok in H as (curr & m1 & Hload & H).
    unfold array_load in Hload.
    destruct (hash (Some req) (capacity cache) <? 0); [discriminate|].
    destruct (array m !! Z.to_nat (hash (Some req) (capacity cache)));
      [|discriminate].
    inversion Hload; subst. destruct curr as [c|].
    + apply bind_ok in H as (fuel & m2 & Hcount & H).
      unfold node_count in Hcount. inversion Hcount; subst.
      apply (cache_delete_loop_no_new _ _ _ _ _ _ _ _ H).
    + inversion H. apply no_new_entry_refl.
  - apply bind_ok in H as (? & m1 & Hl & H).
    apply log_no_new in Hl. inversion H; subst. exact Hl.
Qed.

Lemma gc_scan_chain_no_new cache now fuel : forall curr m r m',
  gc_scan_chain fuel cache now curr m = Ok (r, m') -> no_new_entry m m'.
Proof.
  induction fuel as [|fuel IH]; intros curr m r m' H.
  - destruct curr; [discriminate|]. inversion H. apply no_new_entry_refl.
  - destruct curr as [c|]; [|inversion H; apply no_new_entry_refl].
    cbn [gc_scan_chain] in H.
    apply bind_ok in H as (n & m0 & Hload & H).
    apply load_ok in Hload as [_ ->].
    destruct (entry_expired_time_ms cache <=? age_ms now (last_modified_time n)).
    + apply bind_ok in H as (? & m1 & Hlock & H).
      apply rdlock_no_new in Hlock. apply (no_new_entry_trans _ _ _ Hlock).
      apply bind_ok in H as (n' & m2 & Hload & H).
      apply load_ok in Hload as [_ ->].
      apply bind_ok in H as (? & m3 & Hu & H).
      apply unlock_no_new in Hu. apply (no_new_entry_trans _ _ _ Hu).
      apply bind_ok in H as (? & m4 & Hd & H).
      apply cache_delete_no_new in Hd. apply (no_new_entry_trans _ _ _ Hd).
      apply (IH _ _ _ _ H).
    + apply bind_ok in H as (? & m1 & Hlock & H).
      apply rdlock_no_new in Hlock. apply (no_new_entry_trans _ _ _ Hlock).
      apply bind_ok in H as (n' & m2 & Hload & H).
      apply load_ok in Hload as [_ ->].
      apply bind_ok in H as (? & m3 & Hu & H).
      apply unlock_no_new in Hu. apply (no_new_entry_trans _ _ _ Hu).
      apply (IH _ _ _ _ H).
Qed.

Lemma gc_scan_buckets_no_new cache now count : forall i m r m',
  gc_scan_buckets count cache now i m = Ok (r, m') -> no_new_entry m m'.
Proof.
  induction count as [|count IH]; intros i m r m' H.
  - inversion H. apply no_new_entry_refl.
  - cbn [gc_scan_buckets] in H.
    apply bind_ok in H as (? & m1 & Hb & H).
    apply (no_new_entry_trans _ m1); [|apply (IH _ _ _ _ H)].
    unfold gc_scan_bucket in Hb.
    apply bind_ok in Hb as (curr & m2 & Hload & Hb).
    unfold array_load in Hload. destruct (i <? 0); [discriminate|].
    destruct (array m !! Z.to_nat i); [|discriminate].
    inversion Hload; subst. destruct curr as [c|].
    + apply bind_ok in Hb as (? & m3 & Hlock & Hb).
      apply rdlock_no_new in Hlock. apply (no_new_entry_trans _ _ _ Hlock).
      apply bind_ok in Hb as (fuel & m4 & Hcount & Hb).
      unfold node_count in Hcount. inversion Hcount; subst.
      apply (gc_scan_chain_no_new _ _ _ _ _ _ _ Hb).
    + inversion Hb. apply no_new_entry_refl.
Qed.

(** No code of the cache raises the flag: a cache in which no node holds a
    flagged entry stays so through [cache_create], through [cache_add] of
    an entry whose flag is down, through [cache_get], [cache_delete] and a
    tick of the collector; and in such a cache no bucket references a
    flagged entry. *)
Lemma cache_operations_keep_flags_down m :
  no_entry_flagged m = true ->
  flagged_unlinked m = true /\
  (forall rc ra capacity0 expiry r m',
     cache_create rc ra capacity0 expiry m = Ok (r, m') ->
     no_entry_flagged m' = true) /\
  (forall room now cache e r m',
     deleted e = false ->
     cache_add room now cache (Some e) m = Ok (r, m') ->
     no_entry_flagged m' = true) /\
  (forall now cache req r m',
     cache_get now cache req m = Ok (r, m') -> no_entry_flagged m' = true) /\
  (forall cache req r m',
     cache_delete cache req m = Ok (r, m') -> no_entry_flagged m' = true) /\
  (forall cache now r m',
     garbage_collector_tick cache now m = Ok (r, m') ->
     no_entry_flagged m' = true).
Proof.
  intros Hm. split; [apply no_entry_flagged_unlinked, Hm|].
  split; [|split; [|split; [|split]]].
  - intros rc ra capacity0 expiry r m' H.
    apply (no_new_entry_flags m); [exact Hm|].
    apply no_new_entry_same_nodes.
    unfold cache_create in H.
    destruct rc; [destruct (ra && (0 <=? capacity0))|];
      cbn in H; inversion H; reflexivity.
  - intros room now cache e r m' He H.
    destruct cache as [cache|].
    2:{ cbn in H. inversion H. exact Hm. }
    destruct room.
    2:{ cbn in H. inversion H. exact Hm. }
    assert (Hr := cache_add_room_success _ _ _ _ _ _ H). subst r.
    destruct (cache_add_ok _ _ _ _ _ _ H) as (head & _ & _ & _ & ->).
    unfold no_entry_flagged in *. cbn [nodes].
    rewrite forallb_app, Hm. cbn. rewrite He. reflexivity.
  - intros now cache req r m' H.
    destruct cache as [cache|].
    2:{ cbn in H. inversion H. exact Hm. }
    destruct r as [e|].
    + destruct (cache_get_hit _ _ _ _ _ _ H) as (a & n & Ha & _ & _ & ->).
      apply (no_new_entry_flags m); [exact Hm|].
      apply (store_no_new a (set_last_modified_time n now) m tt).
      * apply (store_eq _ _ _ _ Ha).
      * intros n0 Hn0. rewrite Ha in Hn0. inversion Hn0. reflexivity.
    + rewrite (cache_get_miss _ _ _ _ _ H). exact Hm.
  - intros cache req r m' H.
    apply (no_new_entry_flags m m' Hm), (cache_delete_no_new _ _ _ _ _ H).
  - intros cache now r m' H. unfold garbage_collector_tick in H.
    apply bind_ok in H as (? & m1 & Hscan & H). inversion H; subst.
    apply (no_new_entry_flags m m' Hm), (gc_scan_buckets_no_new _ _ _ _ _ _ _ Hscan).
Qed.

(** ** The collector and the read hold it takes on a bucket head *)

(** [cache_delete] of a node right behind a head whose lock carries a
    read hold waits for the write lock of that head. *)
Lemma cache_delete_blocked_behind_held_head cache req m (k : nat) h hn r c nc l :
  hash (Some req) (capacity cache) = Z.of_nat k ->
  bucket m k = Some (h :: c :: l) ->
  forallb (readable m) (h :: c :: l) = true ->
  nodes m !! h = Some (Some hn) -> readers (rwlock hn) = S r ->
  same_request (entry hn) req = false ->
  nodes m !! c = Some (Some nc) ->
  same_request (entry nc) req = true ->
  cache_delete (Some cache) req m = Blocked.
Proof.
  intros Hhash Hb Hread Hh Hr Hhn Hc Hnc.
  rewrite (cache_delete_first_match cache req m k _ Hhash Hb Hread).
  cbn [first_match]. rewrite Hh, Hhn, Hc, Hnc.
  cbn [delete_effect]. rewrite Hh, Hr. reflexivity.
Qed.

(** The round of the collector over a bucket whose head is young and
    whose second node has aged never returns: the collector asks for the
    write lock of the head while its own read hold is on it. *)
Lemma gc_scan_bucket_blocks_behind_head cache now m (k : nat) h n c nc l :
  array m !! k = Some (Some h) ->
  nodes m !! h = Some (Some n) ->
  nodes m !! c = Some (Some nc) ->
  chain (length (nodes m)) (nodes m) (Some h) = Some (h :: c :: l) ->
  forallb (readable m) (h :: c :: l) = true ->
  aged cache now n = false ->
  aged cache now nc = true ->
  hash (Some (request (entry nc))) (capacity cache) = Z.of_nat k ->
  same_request (entry n) (request (entry nc)) = false ->
  gc_scan_bucket cache now (Z.of_nat k) m = Blocked.
Proof.
  intros Hk Hh Hc Hchain Hread Hyoung Haged Hhash Hdiff.
  assert (Hnd := chain_NoDup _ _ _ _ Hchain).
  assert (Hhc : h <> c).
  { apply NoDup_cons_1_1 in Hnd. intros ->. apply Hnd. left. }
  destruct (chain_cons _ _ _ _ _ Hchain) as (f & n0 & Hf & _ & Hh0 & Hrest).
  rewrite Hh in Hh0. inversion Hh0; subst n0. clear Hh0.
  destruct (chain_cons _ _ _ _ _ Hrest) as (f1 & nc0 & Hf1 & Hnext & Hc0 & _).
  rewrite Hc in Hc0. inversion Hc0; subst nc0. clear Hc0.
  assert (Hrh : readable m h = true /\ readable m c = true).
  { cbn [forallb] in Hread. rewrite !andb_true_iff in Hread. tauto. }
  destruct Hrh as [Hrh Hrc].
  destruct (readable_live _ _ Hrh) as (n1 & Hh1 & Hw).
  rewrite Hh in Hh1. inversion Hh1; subst n1. clear Hh1.
  destruct (readable_live _ _ Hrc) as (n1 & Hc1 & Hwc).
  rewrite Hc in Hc1. inversion Hc1; subst n1. clear Hc1.
  set (m1 := with_nodes m (<[h := Some (read_held n)]> (nodes m))).
  assert (Hm1h : nodes m1 !! h = Some (Some (read_held n)))
    by (apply (lookup_stored _ _ _ _ Hh)).
  assert (Hm1c : nodes m1 !! c = Some (Some nc)).
  { unfold m1. rewrite nodes_with_nodes.
    rewrite list_lookup_insert_ne by exact Hhc. exact Hc. }
  assert (Hkept : forall a, In a (h :: c :: l) -> kept m m1 a)
    by (intros a _; apply kept_after_read_hold; assumption).
  assert (Hb1 : bucket m1 k = Some (h :: c :: l)).
  { unfold bucket. change (array m1) with (array m). rewrite Hk.
    unfold m1 at 1. rewrite nodes_with_nodes, length_insert.
    apply (chain_kept _ m); assumption. }
  assert (Hread1 : forallb (readable m1) (h :: c :: l) = true)
    by (apply (readable_all_kept m); assumption).
  unfold gc_scan_bucket, bind at 1. rewrite (array_load_eq _ _ _ Hk).
  unfold bind at 1. rewrite (rdlock_eq _ _ _ Hh Hw). fold m1.
  unfold bind at 1, node_count.
  replace (length (nodes m1)) with (S (S f1))
    by (unfold m1; rewrite nodes_with_nodes, length_insert; congruence).
  rewrite (gc_scan_chain_step cache now (S f1) h (read_held n) m1 Hm1h eq_refl).
  change (aged cache now (read_held n)) with (aged cache now n).
  rewrite Hyoung.
  change (next (read_held n)) with (next n). rewrite Hnext.
  rewrite (gc_scan_chain_step cache now f1 c nc m1 Hm1c Hwc).
  rewrite Haged. unfold bind at 1.
  rewrite (cache_delete_blocked_behind_held_head cache (request (entry nc))
             m1 k h (read_held n) (readers (rwlock n)) c nc l);
    auto.
  apply same_request_refl.
Qed.

(** C5.  The collector misses the claim on a well-formed cache without
    duplicates.  Bucket 0 holds B (500 ms old) in front of A (2000 ms
    old), the expiry is 1000 ms: A must go.  The collector takes a read
    hold on the head B before it scans the bucket and never gives it
    back; when it reaches A and calls [cache_delete], that call asks for
    the write lock of the predecessor B and waits for the hold of its own
    thread: the tick never returns and A stays.  So it goes whenever the
    node behind a young head has aged (third part).  Two links behind the
    head the same code does what the claim says: with X aged behind B and
    A, the tick naps 500 ms, returns, and has unlinked and freed X
    alone. *)
Theorem collector_waits_on_its_own_read_hold :
  (CacheExamples.mem_aged_behind_head =
     after (cache_add true CacheExamples.early_1500ms
              (Some CacheExamples.one_bucket) (Some CacheExamples.entry_B))
       (after (cache_add true CacheExamples.early
                 (Some CacheExamples.one_bucket) (Some CacheExamples.entry_A))
          (after (cache_create true true 1 1000) (empty_mem 0))) /\
   cache_wf CacheExamples.one_bucket CacheExamples.mem_aged_behind_head = true /\
   bucket CacheExamples.mem_aged_behind_head 0 = Some [1%nat; 0%nat] /\
   aged_at CacheExamples.one_bucket CacheExamples.early_2s
     CacheExamples.mem_aged_behind_head 1%nat = false /\
   aged_at CacheExamples.one_bucket CacheExamples.early_2s
     CacheExamples.mem_aged_behind_head 0%nat = true /\
   garbage_collector_tick CacheExamples.one_bucket CacheExamples.early_2s
     CacheExamples.mem_aged_behind_head = Blocked) /\
  (forall cache now m (k : nat) h n c nc l,
     array m !! k = Some (Some h) ->
     nodes m !! h = Some (Some n) ->
     nodes m !! c = Some (Some nc) ->
     chain (length (nodes m)) (nodes m) (Some h) = Some (h :: c :: l) ->
     forallb (readable m) (h :: c :: l) = true ->
     aged cache now n = false ->
     aged cache now nc = true ->
     hash (Some (request (entry nc))) (capacity cache) = Z.of_nat k ->
     same_request (entry n) (request (entry nc)) = false ->
     gc_scan_bucket cache now (Z.of_nat k) m = Blocked) /\
  (bucket CacheExamples.mem_aged_third 0 = Some [2%nat; 1%nat; 0%nat] /\
   aged_at CacheExamples.one_bucket CacheExamples.early_2s
     CacheExamples.mem_aged_third 2%nat = false /\
   aged_at CacheExamples.one_bucket CacheExamples.early_2s
     CacheExamples.mem_aged_third 1%nat = false /\
   aged_at CacheExamples.one_bucket CacheExamples.early_2s
     CacheExamples.mem_aged_third 0%nat = true /\
   exists m',
     garbage_collector_tick CacheExamples.one_bucket CacheExamples.early_2s
       CacheExamples.mem_aged_third = Ok (500000, m') /\
     bucket m' 0 = Some [2%nat; 1%nat] /\
     nodes m' !! 0%nat = Some None /\
     cache_get CacheExamples.early_2s (Some CacheExamples.one_bucket) [x58] m'
       = Ok (None, m')).
Proof.
  split; [|split].
  - repeat split; vm_compute; reflexivity.
  - intros cache now m k h n c nc l.
    apply gc_scan_bucket_blocks_behind_head.
  - split; [vm_compute; reflexivity|].
    split; [vm_compute; reflexivity|].
    split; [vm_compute; reflexivity|].
    split; [vm_compute; reflexivity|].
    eexists. split; [vm_compute; reflexivity|].
    repeat split; vm_compute; reflexivity.
Qed.

End CacheFacts.

(** * Facts about the worker pool *)

Module ThreadPoolFacts.
Import ThreadPool.

Lemma wait_not_full_view pool views p :
  wait_not_full pool views = Ok p -> p = pool \/ In p views.
Proof.
  revert pool. induction views as [|v views IH]; intros pool; cbn.
  - destruct ((size pool =? capacity pool) && negb (shutdown pool));
      [discriminate|]. intros H. inversion H. auto.
  - destruct ((size pool =? capacity pool) && negb (shutdown pool)).
    + intros H. destruct (IH _ H) as [->|Hin]; auto.
    + intros H. inversion H. auto.
Qed.

Lemma deciding_view_origin pool views p :
  deciding_view pool views = Ok p -> p = pool \/ In p views.
Proof.
  unfold deciding_view. destruct (shutdown pool).
  - intros H. inversion H. auto.
  - destruct views as [|locked views]; [discriminate|].
    intros H. destruct (wait_not_full_view _ _ _ H) as [->|Hin]; cbn; auto.
Qed.

(** C8.  When the submitter reads the shutdown flag as set, be it on entry
    or once the mutex is held and the wait on [not_full] is over, the call
    returns, and it has written nothing: the pool is left as the submitter
    found it at that reading ([p]), no task id was drawn, and the only trace
    is the message logged when the flag was already up on entry.  If the
    other threads have left the queue alone in the meantime, count, front,
    rear and the stored tasks are those of before the call. *)
Theorem execute_under_shutdown_enqueues_nothing pool views routine arg w p :
  deciding_view pool views = Ok p ->
  shutdown p = true ->
  thread_pool_execute (Some pool) views routine arg w =
    Ok (p, if shutdown pool
           then log w "Thread pool execution error: thread pool was shutdown"
           else w) /\
  (p = pool \/ In p views) /\
  (Forall (same_queue pool) views -> same_queue pool p).
Proof.
  intros Hview Hdown. split; [|split].
  - unfold thread_pool_execute. unfold deciding_view in Hview.
    destruct (shutdown pool).
    + inversion Hview. reflexivity.
    + destruct views as [|locked views]; [discriminate|].
      rewrite Hview, Hdown. reflexivity.
  - apply (deciding_view_origin _ _ _ Hview).
  - intros Hall. destruct (deciding_view_origin _ _ _ Hview) as [->|Hin].
    + unfold same_queue. auto.
    + rewrite Forall_forall in Hall. apply Hall, list_elem_of_In, Hin.
Qed.

Lemma execute_under_shutdown_enqueues_nothing_witness :
  deciding_view PoolExamples.full_pool
    [PoolExamples.full_pool; PoolExamples.full_pool_down]
    = Ok PoolExamples.full_pool_down /\
  shutdown PoolExamples.full_pool_down = true /\
  thread_pool_execute (Some PoolExamples.full_pool)
    [PoolExamples.full_pool; PoolExamples.full_pool_down] 5%nat 6%nat
    PoolExamples.some_world
  = Ok (PoolExamples.full_pool_down,
        if shutdown PoolExamples.full_pool
        then log PoolExamples.some_world
               "Thread pool execution error: thread pool was shutdown"
        else PoolExamples.some_world) /\
  (PoolExamples.full_pool_down = PoolExamples.full_pool \/
   In PoolExamples.full_pool_down
     [PoolExamples.full_pool; PoolExamples.full_pool_down]) /\
  (Forall (same_queue PoolExamples.full_pool)
     [PoolExamples.full_pool; PoolExamples.full_pool_down] ->
   same_queue PoolExamples.full_pool PoolExamples.full_pool_down).
Proof.
  split; [reflexivity|]. split; [reflexivity|].
  apply (execute_under_shutdown_enqueues_nothing PoolExamples.full_pool
           [PoolExamples.full_pool; PoolExamples.full_pool_down] 5%nat 6%nat
           PoolExamples.some_world PoolExamples.full_pool_down);
    reflexivity.
Defined.

(** C3.  The four entry points of the cache guard their pointers: a NULL
    cache, and for [cache_add] a NULL entry, gets one message logged and
    the error value (or nothing, for the [void] [cache_destroy]) returned,
    memory untouched.  [thread_pool_execute] has no such guard: its first
    statement reads [pool->shutdown], so with a NULL pool the call is a
    NULL access instead of a logged error. *)
Theorem null_pool_is_dereferenced :
  (forall now req m,
     Cache.cache_get now None req m =
       Ok (None, Cache.with_out m
                   (Cache.out m ++ ["Cache getting error: cache is NULL"%string]))) /\
  (forall room now e m,
     Cache.cache_add room now None e m =
       Ok (Cache.ERROR,
           Cache.with_out m
             (Cache.out m ++ ["Cache adding error: cache is NULL"%string]))) /\
  (forall room now cache m,
     Cache.cache_add room now (Some cache) None m =
       Ok (Cache.ERROR,
           Cache.with_out m
             (Cache.out m ++ ["Cache adding error: cache entry is NULL"%string]))) /\
  (forall req m,
     Cache.cache_delete None req m =
       Ok (Cache.ERROR,
           Cache.with_out m
             (Cache.out m ++ ["Cache deleting error: cache is NULL"%string]))) /\
  (forall m,
     Cache.cache_destroy None m =
       Ok (tt, Cache.with_out m
                 (Cache.out m ++ ["Cache destroying error: cache is NULL"%string]))) /\
  (forall views routine arg w,
     thread_pool_execute None views routine arg w = Fault).
Proof.
  repeat split; reflexivity.
Qed.

(** ** The ring of tasks *)

Import CInt.

Lemma mod_shift_distinct f i j c :
  0 < c -> 0 <= i < j -> j < c -> (f + i) mod c <> (f + j) mod c.
Proof.
  intros Hc Hij Hj Heq.
  assert (H : (j - i) mod c = 0).
  { replace (j - i) with ((f + j) - (f + i)) by lia.
    rewrite Zminus_mod, Heq, Z.sub_diag. apply Z.mod_0_l. lia. }
  rewrite Z.mod_small in H by lia. lia.
Qed.

Lemma wait_not_full_exit pool views p :
  wait_not_full pool views = Ok p ->
  size p <> capacity p \/ shutdown p = true.
Proof.
  revert pool. induction views as [|v views IH]; intros pool; cbn.
  - destruct (Z.eqb_spec (size pool) (capacity pool)) as [He|Hne];
      destruct (shutdown pool) eqn:Hs; cbn; try discriminate;
      intros H; inversion H; subst; auto.
  - destruct (Z.eqb_spec (size pool) (capacity pool)) as [He|Hne];
      destruct (shutdown pool) eqn:Hs; cbn;
      try (intros H; inversion H; subst; auto; fail).
    apply IH.
Qed.

Lemma wait_not_empty_exit pool views p :
  wait_not_empty pool views = Ok p ->
  (size p <> 0 \/ shutdown p = true) /\ (p = pool \/ In p views).
Proof.
  revert pool. induction views as [|v views IH]; intros pool; cbn.
  - destruct (Z.eqb_spec (size pool) 0) as [He|Hne];
      destruct (shutdown pool) eqn:Hs; cbn; try discriminate;
      intros H; inversion H; subst; auto.
  - destruct (Z.eqb_spec (size pool) 0) as [He|Hne];
      destruct (shutdown pool) eqn:Hs; cbn;
      try (intros H; inversion H; subst; auto; fail).
    intros H. destruct (IH _ H) as [H1 [->|Hin]]; auto.
Qed.

Lemma int_rem_next z c :
  0 <= z < c -> c < 2 ^ 31 -> Z.rem (int_add z 1) c = (z + 1) mod c.
Proof.
  intros Hz Hc.
  rewrite CIntFacts.int_add_small
    by (unfold int_min, int_max; change (2 ^ 31) with 2147483648 in *; lia).
  apply Z.rem_mod_nonneg; lia.
Qed.

(** X19.  A submission that finds room and no shutdown appends its task
    to the queue: the tasks already waiting keep their order, the new one
    comes last with the current value of [id_counter] as its id, the
    counter goes up by one, and the ring stays consistent. *)
Theorem execute_appends_to_queue pool views routine0 arg0 w p :
  shutdown pool = false ->
  deciding_view pool views = Ok p ->
  shutdown p = false ->
  ring_ok p ->
  exists p',
    thread_pool_execute (Some pool) views routine0 arg0 w =
      Ok (p', {| id_counter := long_add (id_counter w) 1; out := out w |}) /\
    queue p' =
      queue p ++ [{| id := id_counter w; routine := routine0; arg := arg0 |}] /\
    ring_ok p' /\
    size p' = size p + 1 /\ front p' = front p /\
    capacity p' = capacity p /\ shutdown p' = false.
Proof.
  intros Hup Hview Hp (Hcap & Hlen & Hsize & Hfront & Hrear).
  unfold deciding_view in Hview. rewrite Hup in Hview.
  destruct views as [|locked views]; [discriminate|].
  destruct (wait_not_full_exit _ _ _ Hview) as [Hroom|Hdown]; [|congruence].
  assert (Hr : 0 <= rear p < capacity p)
    by (rewrite Hrear; apply Z.mod_pos_bound; lia).
  assert (Hslot : (Z.to_nat (rear p) < length (tasks p))%nat) by lia.
  destruct (lookup_lt_is_Some_2 _ _ Hslot) as (old & Hold).
  set (task := {| id := id_counter w; routine := routine0; arg := arg0 |}).
  set (p' := {| tasks := <[Z.to_nat (rear p) := task]> (tasks p);
                capacity := capacity p;
                size := int_add (size p) 1;
                front := front p;
                rear := Z.rem (int_add (rear p) 1) (capacity p);
                num_executors := num_executors p;
                shutdown := shutdown p |}).
  assert (Hsz : int_add (size p) 1 = size p + 1).
  { apply CIntFacts.int_add_small.
    unfold int_min, int_max. change (2 ^ 31) with 2147483648 in *. lia. }
  exists p'. split; [|split; [|split; [|split; [|split; [|split]]]]].
  - unfold thread_pool_execute. rewrite Hup, Hview, Hp. unfold enqueue.
    destruct (Z.ltb_spec (rear p) 0); [lia|]. rewrite Hold. reflexivity.
  - unfold queue. cbn [p' size front capacity tasks]. rewrite Hsz.
    replace (Z.to_nat (size p + 1)) with (S (Z.to_nat (size p))) by lia.
    rewrite seq_S, map_app. cbn [map Nat.add]. f_equal.
    + apply map_ext_in. intros i Hi. apply in_seq in Hi.
      rewrite !nth_lookup. rewrite list_lookup_insert_ne; [reflexivity|].
      intros Heq. apply Z2Nat.inj in Heq.
      * rewrite Hrear in Heq. symmetry in Heq. revert Heq.
        apply mod_shift_distinct; lia.
      * lia.
      * apply Z.mod_pos_bound. lia.
    + f_equal. rewrite Z2Nat.id by lia. rewrite <- Hrear.
      rewrite nth_lookup, list_lookup_insert_eq by exact Hslot. reflexivity.
  - unfold ring_ok. cbn [p' size front capacity tasks rear].
    rewrite Hsz, length_insert.
    rewrite int_rem_next by lia.
    repeat split; try lia.
    rewrite Hrear, Zplus_mod_idemp_l. f_equal. lia.
  - exact Hsz.
  - reflexivity.
  - reflexivity.
  - exact Hp.
Qed.

Lemma execute_appends_to_queue_witness :
  exists p',
    thread_pool_execute (Some PoolExamples.ring_of_two)
      [PoolExamples.ring_of_two] 3%nat 30%nat PoolExamples.some_world =
      Ok (p', {| id_counter := long_add (id_counter PoolExamples.some_world) 1;
                 out := out PoolExamples.some_world |}) /\
    queue p' =
      queue PoolExamples.ring_of_two ++
      [{| id := id_counter PoolExamples.some_world;
          routine := 3%nat; arg := 30%nat |}] /\
    ring_ok p' /\
    size p' = size PoolExamples.ring_of_two + 1 /\
    front p' = front PoolExamples.ring_of_two /\
    capacity p' = capacity PoolExamples.ring_of_two /\
    shutdown p' = false.
Proof.
  apply (execute_appends_to_queue PoolExamples.ring_of_two
           [PoolExamples.ring_of_two] 3%nat 30%nat PoolExamples.some_world
           PoolExamples.ring_of_two);
    try reflexivity.
  unfold ring_ok. simpl. repeat split; try reflexivity; lia.
Defined.

(** X20.  An executor that finds a task waiting and no shutdown takes the
    oldest one: what it goes on to run is the head of the queue, the rest
    of the queue keeps its order, and the ring stays consistent. *)
Theorem executor_takes_oldest_task locked views p :
  wait_not_empty locked views = Ok p ->
  shutdown p = false ->
  ring_ok p ->
  exists task p',
    executor_round (locked :: views) = Ok (Some task, p') /\
    queue p = task :: queue p' /\
    ring_ok p' /\
    size p' = size p - 1 /\ rear p' = rear p /\ tasks p' = tasks p /\
    capacity p' = capacity p /\ shutdown p' = false.
Proof.
  intros Hview Hp (Hcap & Hlen & Hsize & Hfront & Hrear).
  destruct (wait_not_empty_exit _ _ _ Hview) as [[Hsome|Hdown] _];
    [|congruence].
  assert (Hslot : (Z.to_nat (front p) < length (tasks p))%nat) by lia.
  destruct (lookup_lt_is_Some_2 _ _ Hslot) as (task & Htask).
  set (p' := {| tasks := tasks p;
                capacity := capacity p;
                size := int_sub (size p) 1;
                front := Z.rem (int_add (front p) 1) (capacity p);
                rear := rear p;
                num_executors := num_executors p;
                shutdown := shutdown p |}).
  assert (Hsz : int_sub (size p) 1 = size p - 1).
  { unfold int_sub. apply CIntFacts.int_small.
    change (2 ^ 31) with 2147483648 in *. lia. }
  assert (Hfr : Z.rem (int_add (front p) 1) (capacity p)
                = (front p + 1) mod capacity p) by (apply int_rem_next; lia).
  exists task, p'. split; [|split; [|split; [|split; [|split; [|split; [|split]]]]]].
  - unfold executor_round. rewrite Hview, Hp. unfold dequeue.
    destruct (Z.ltb_spec (front p) 0); [lia|]. rewrite Htask. reflexivity.
  - unfold queue. cbn [p' size front capacity tasks]. rewrite Hsz, Hfr.
    replace (Z.to_nat (size p)) with (S (Z.to_nat (size p - 1))) by lia.
    cbn [seq map]. f_equal.
    + rewrite Z.add_0_r, Z.mod_small by lia.
      rewrite nth_lookup, Htask. reflexivity.
    + rewrite <- seq_shift, map_map. apply map_ext. intros i.
      rewrite Zplus_mod_idemp_l. do 3 f_equal. lia.
  - unfold ring_ok. cbn [p' size front capacity tasks rear].
    rewrite Hsz, Hfr.
    repeat split; try lia.
    + apply Z.mod_pos_bound. lia.
    + apply Z.mod_pos_bound. lia.
    + rewrite Hrear, Zplus_mod_idemp_l. f_equal. lia.
  - exact Hsz.
  - reflexivity.
  - reflexivity.
  - reflexivity.
  - exact Hp.
Qed.

Lemma executor_takes_oldest_task_witness :
  exists task p',
    executor_round [PoolExamples.ring_of_two] = Ok (Some task, p') /\
    queue PoolExamples.ring_of_two = task :: queue p' /\
    ring_ok p' /\
    size p' = size PoolExamples.ring_of_two - 1 /\
    rear p' = rear PoolExamples.ring_of_two /\
    tasks p' = tasks PoolExamples.ring_of_two /\
    capacity p' = capacity PoolExamples.ring_of_two /\
    shutdown p' = false.
Proof.
  apply (executor_takes_oldest_task PoolExamples.ring_of_two []
           PoolExamples.ring_of_two);
    try reflexivity.
  unfold ring_ok. simpl. repeat split; try reflexivity; lia.
Defined.

(** X21.  A round of an executor ends in [pthread_exit] exactly when the
    pool it finds, once its wait is over, has the shutdown flag up; it
    then leaves that pool as it found it, tasks still waiting included. *)
Theorem executor_exits_exactly_at_shutdown views r p' :
  executor_round views = Ok (r, p') ->
  (r = None <-> shutdown p' = true) /\
  (r = None -> In p' views).
Proof.
  unfold executor_round. destruct views as [|locked views]; [discriminate|].
  destruct (wait_not_empty locked views) as [p| | |] eqn:Hview;
    try discriminate.
  destruct (wait_not_empty_exit _ _ _ Hview) as [_ Hin].
  destruct (shutdown p) eqn:Hp.
  - intros H. inversion H; subst. split; [tauto|].
    intros _. destruct Hin as [->|Hin]; [left; reflexivity|right; exact Hin].
  - unfold dequeue. destruct (front p <? 0); [discriminate|].
    destruct (tasks p !! Z.to_nat (front p)); [|discriminate].
    intros H. inversion H; subst. cbn [shutdown]. rewrite Hp.
    split; [split; discriminate|discriminate].
Qed.

Lemma executor_exits_exactly_at_shutdown_witness :
  (@None task_t = None <-> shutdown PoolExamples.full_pool_down = true) /\
  (@None task_t = None ->
   In PoolExamples.full_pool_down [PoolExamples.full_pool_down]).
Proof.
  apply (executor_exits_exactly_at_shutdown [PoolExamples.full_pool_down]
           None PoolExamples.full_pool_down).
  reflexivity.
Defined.

Lemma wait_on_full_views pool views :
  Forall (fun v => size v = capacity v) (pool :: views) ->
  wait_not_full pool views = Blocked \/
  exists p, wait_not_full pool views = Ok p /\ shutdown p = true /\
            In p (pool :: views).
Proof.
  revert pool. induction views as [|v views IH]; intros pool Hall.
  - apply Forall_cons_1 in Hall as [Hfull _]. cbn.
    rewrite Hfull, Z.eqb_refl. destruct (shutdown pool) eqn:Hs; cbn.
    + right. exists pool. auto.
    + left. reflexivity.
  - apply Forall_cons_1 in Hall as [Hfull Hall]. cbn [wait_not_full].
    rewrite Hfull, Z.eqb_refl. destruct (shutdown pool) eqn:Hs; cbn [andb negb].
    + right. exists pool. split; [reflexivity|]. split; [exact Hs|left; reflexivity].
    + destruct (IH v Hall) as [Hb|(p & Hp & Hdown & Hin)].
      * left. exact Hb.
      * right. exists p. split; [exact Hp|]. split; [exact Hdown|].
        right. exact Hin.
Qed.

(** X22.  A submitter that finds the queue full each time it looks never
    enqueues: it waits on [not_full], for ever if nothing changes, and
    returns only once it reads the shutdown flag, with the pool and
    [id_counter] untouched.  A pool created with a capacity of zero is in
    this state from the start. *)
Theorem execute_on_full_queue_waits pool views routine0 arg0 w :
  shutdown pool = false ->
  Forall (fun v => size v = capacity v) views ->
  thread_pool_execute (Some pool) views routine0 arg0 w = Blocked \/
  exists p,
    thread_pool_execute (Some pool) views routine0 arg0 w = Ok (p, w) /\
    shutdown p = true /\ In p views.
Proof.
  intros Hup Hall. unfold thread_pool_execute. rewrite Hup.
  destruct views as [|locked views]; [left; reflexivity|].
  destruct (wait_on_full_views locked views Hall)
    as [Hb|(p & Hp & Hdown & Hin)].
  - left. rewrite Hb. reflexivity.
  - right. exists p. rewrite Hp, Hdown. auto.
Qed.

Lemma execute_on_full_queue_waits_witness :
  thread_pool_execute (Some PoolExamples.full_pool)
    [PoolExamples.full_pool; PoolExamples.full_pool] 1%nat 2%nat
    PoolExamples.some_world = Blocked \/
  exists p,
    thread_pool_execute (Some PoolExamples.full_pool)
      [PoolExamples.full_pool; PoolExamples.full_pool] 1%nat 2%nat
      PoolExamples.some_world = Ok (p, PoolExamples.some_world) /\
    shutdown p = true /\
    In p [PoolExamples.full_pool; PoolExamples.full_pool].
Proof.
  apply (execute_on_full_queue_waits PoolExamples.full_pool
           [PoolExamples.full_pool; PoolExamples.full_pool] 1%nat 2%nat
           PoolExamples.some_world).
  - reflexivity.
  - repeat constructor.
Defined.

(** X23.  [thread_pool_create] with memory for the pool, for
    [task_queue_capacity > 0] slots and for the executor handles returns
    a pool whose ring is consistent and whose queue is empty, so that an
    executor that looks at it waits; when one of the three allocations
    fails it returns NULL and logs one message. *)
Theorem thread_pool_create_starts_empty executor_count capacity0 w :
  0 < capacity0 < 2 ^ 31 -> 0 <= executor_count ->
  (exists p,
     thread_pool_create true true true executor_count capacity0 w = (Some p, w) /\
     ring_ok p /\ queue p = [] /\ shutdown p = false /\
     capacity p = capacity0 /\ num_executors p = executor_count /\
     executor_round [p] = Blocked) /\
  (forall room_pool room_tasks room_executors,
     room_pool && room_tasks && room_executors = false ->
     thread_pool_create room_pool room_tasks room_executors
       executor_count capacity0 w =
       (None, log w "Thread pool creation error: Cannot allocate memory")).
Proof.
  intros Hcap Hexec. split.
  - eexists. split.
    + unfold thread_pool_create. cbn [andb].
      destruct (Z.leb_spec 0 capacity0); [|lia].
      destruct (Z.leb_spec 0 executor_count); [|lia]. reflexivity.
    + split; [|repeat split].
      * unfold ring_ok. cbn [capacity tasks size front rear].
        rewrite length_replicate, Z.add_0_r, Z.mod_0_l by lia.
        repeat split; lia.
  - intros rp rt re Hroom. unfold thread_pool_create.
    destruct rp; [|reflexivity]. destruct rt; cbn [andb]; [|reflexivity].
    destruct (0 <=? capacity0); [|reflexivity].
    destruct re; [discriminate|reflexivity].
Qed.

Lemma thread_pool_create_starts_empty_witness :
  (exists p,
     thread_pool_create true true true 4 16 PoolExamples.some_world
       = (Some p, PoolExamples.some_world) /\
     ring_ok p /\ queue p = [] /\ shutdown p = false /\
     capacity p = 16 /\ num_executors p = 4 /\
     executor_round [p] = Blocked) /\
  (forall room_pool room_tasks room_executors,
     room_pool && room_tasks && room_executors = false ->
     thread_pool_create room_pool room_tasks room_executors 4 16
       PoolExamples.some_world =
       (None, log PoolExamples.some_world
                "Thread pool creation error: Cannot allocate memory")).
Proof.
  apply (thread_pool_create_starts_empty 4 16 PoolExamples.some_world); lia.
Defined.

End ThreadPoolFacts.

(** * Facts about the log sink *)

Module LogFacts.
Import CInt CString Log.

Lemma free_of_app c s1 s2 :
  free_of c (s1 ++ s2) = free_of c s1 && free_of c s2.
Proof. apply forallb_app. Qed.

Lemma free_of_repeat c x n :
  Byte.eqb x c = false -> free_of c (repeat x n) = true.
Proof.
  intros H. induction n as [|n IH]; cbn; [reflexivity|].
  rewrite H. exact IH.
Qed.

Lemma digit_not_line_break d : Byte.eqb (digit d) LF = false.
Proof.
  destruct d as [|p|p]; try reflexivity.
  do 4 (try destruct p as [p|p|]; try reflexivity).
Qed.

Lemma digits_free_of_LF fuel z acc :
  free_of LF acc = true -> free_of LF (digits fuel z acc) = true.
Proof.
  revert z acc. induction fuel as [|fuel IH]; intros z acc Hacc; cbn [digits].
  - exact Hacc.
  - assert (Hcons : free_of LF (digit (z mod 10) :: acc) = true).
    { cbn. rewrite digit_not_line_break. exact Hacc. }
    destruct (z <? 10); [exact Hcons | apply IH, Hcons].
Qed.

Lemma printf_0d_free_of_LF width z : free_of LF (printf_0d width z) = true.
Proof.
  unfold printf_0d. destruct (z <? 0).
  - cbn [free_of forallb]. change (forallb _ ?s) with (free_of LF s).
    rewrite free_of_app, free_of_repeat by reflexivity.
    rewrite digits_free_of_LF by reflexivity. reflexivity.
  - rewrite free_of_app, free_of_repeat by reflexivity.
    rewrite digits_free_of_LF by reflexivity. reflexivity.
Qed.

Lemma time_stamp_free_of_LF usec t : free_of LF (time_stamp usec t) = true.
Proof.
  unfold time_stamp.
  repeat (rewrite free_of_app; rewrite ?printf_0d_free_of_LF).
  reflexivity.
Qed.

Lemma line_head_free_of_LF usec t thread_name :
  free_of LF (c_string thread_name) = true ->
  free_of LF (line_head usec t thread_name) = true.
Proof.
  intros Hname. unfold line_head, printf_s.
  rewrite !free_of_app, time_stamp_free_of_LF, Hname.
  rewrite free_of_repeat by reflexivity. reflexivity.
Qed.

Lemma free_of_map c (f : byte -> byte) text :
  (forall x, Byte.eqb (f x) c = false) -> free_of c (map f text) = true.
Proof.
  intros Hf. induction text as [|x text IH]; [reflexivity|].
  cbn [map free_of forallb]. rewrite Hf. exact IH.
Qed.

Lemma blank_line_breaks_free_of_LF text :
  free_of LF (blank_line_breaks text) = true.
Proof.
  apply free_of_map. intros x.
  destruct (Byte.eqb x LF) eqn:E; [reflexivity|].
  destruct (Byte.eqb x CR); [reflexivity | exact E].
Qed.

Lemma blank_line_breaks_free_of_CR text :
  free_of CR (blank_line_breaks text) = true.
Proof.
  apply free_of_map. intros x.
  destruct (Byte.eqb x LF); [reflexivity|].
  destruct (Byte.eqb x CR) eqn:E; [reflexivity | exact E].
Qed.

Lemma c_string_length s : (length (c_string s) <= length s)%nat.
Proof.
  induction s as [|c s IH]; cbn; [lia|].
  destruct (Byte.eqb c x00); cbn; lia.
Qed.

Lemma vsnprintf_length size rendered :
  (length (vsnprintf size rendered) <= size - 1)%nat.
Proof.
  unfold vsnprintf. etransitivity; [apply c_string_length|].
  rewrite length_take. lia.
Qed.

Lemma digits_length fuel : forall (k : nat) z acc,
  (1 <= k <= fuel)%nat -> 0 <= z < 10 ^ Z.of_nat k ->
  (length acc + 1 <= length (digits fuel z acc) <= length acc + k)%nat.
Proof.
  induction fuel as [|fuel IH]; intros k z acc Hk Hz; [lia|].
  cbn [digits]. destruct (Z.ltb_spec z 10) as [Hlt|Hge].
  - cbn [length]. lia.
  - destruct k as [|k]; [lia|]. destruct k as [|k].
    + change (10 ^ Z.of_nat 1) with 10 in Hz. lia.
    + assert (Hdiv : 0 <= z / 10 < 10 ^ Z.of_nat (S k)).
      { split; [apply Z.div_pos; lia|].
        apply Z.div_lt_upper_bound; [lia|].
        rewrite <- Z.pow_succ_r by lia.
        replace (Z.succ (Z.of_nat (S k))) with (Z.of_nat (S (S k))) by lia.
        lia. }
      assert (Hk' : (1 <= S k <= fuel)%nat) by lia.
      specialize (IH (S k) (z / 10) (digit (z mod 10) :: acc) Hk' Hdiv).
      cbn [length] in IH. lia.
Qed.

Lemma printf_0d_length (width : nat) z :
  (1 <= width <= 10)%nat -> 0 <= z < 10 ^ Z.of_nat width ->
  length (printf_0d width z) = width.
Proof.
  intros Hw Hz. unfold printf_0d.
  destruct (Z.ltb_spec z 0) as [Hneg|Hpos]; [lia|].
  assert (Hlen := digits_length 10 width z [] ltac:(lia) Hz).
  cbn [length] in Hlen.
  rewrite length_app, repeat_length. lia.
Qed.

Lemma time_stamp_length usec t :
  tm_ok t -> 0 <= usec < 1000000 -> length (time_stamp usec t) = 23%nat.
Proof.
  unfold tm_ok. intros (Hy & Hmo & Hd & Hh & Hmi & Hs) Hu.
  assert (Hq : 0 <= Z.quot usec 1000 < 1000).
  { split; [apply Z.quot_pos; lia|]. apply Z.quot_lt_upper_bound; lia. }
  unfold time_stamp, int_cast.
  rewrite CIntFacts.int_small by (change (2 ^ 31) with 2147483648; lia).
  rewrite !length_app. cbn [length].
  rewrite CIntFacts.int_add_small by (unfold int_min, int_max; lia).
  rewrite CIntFacts.int_add_small by (unfold int_min, int_max; lia).
  rewrite (printf_0d_length 4) by (change (10 ^ Z.of_nat 4) with 10000; lia).
  rewrite !(printf_0d_length 2) by (change (10 ^ Z.of_nat 2) with 100; lia).
  rewrite (printf_0d_length 3) by (change (10 ^ Z.of_nat 3) with 1000; lia).
  reflexivity.
Qed.

Lemma printf_s_length width s :
  length (printf_s width s) = Nat.max width (length (c_string s)).
Proof.
  unfold printf_s. rewrite length_app, repeat_length. lia.
Qed.

Lemma blank_line_breaks_lookup text i c :
  text !! i = Some c ->
  blank_line_breaks text !! i =
    Some (if Byte.eqb c LF || Byte.eqb c CR then SP else c).
Proof.
  intros H. unfold blank_line_breaks.
  change (map ?f text) with (f <$> text).
  rewrite list_lookup_fmap, H. reflexivity.
Qed.

(** ** The line that [log] writes *)

Lemma digit_value_digit d : 0 <= d <= 9 -> digit_value (digit d) = Some d.
Proof.
  intros H.
  assert (Hd : d = 0 \/ d = 1 \/ d = 2 \/ d = 3 \/ d = 4 \/ d = 5 \/ d = 6 \/
               d = 7 \/ d = 8 \/ d = 9) by lia.
  repeat (destruct Hd as [->|Hd]; [reflexivity|]). subst. reflexivity.
Qed.

Lemma decimal_from_app s1 : forall acc s2,
  decimal_from acc (s1 ++ s2) =
    match decimal_from acc s1 with
    | Some b => decimal_from b s2
    | None => None
    end.
Proof.
  induction s1 as [|c s1 IH]; intros acc s2; cbn; [reflexivity|].
  destruct (digit_value c); [apply IH|reflexivity].
Qed.

(** The digits that [digits] puts in front of [acc] read as [z]. *)
Lemma digits_decimal fuel : forall (k : nat) z acc,
  (1 <= k <= fuel)%nat -> 0 <= z < 10 ^ Z.of_nat k ->
  exists ds, digits fuel z acc = ds ++ acc /\ ds <> [] /\
             forall a, decimal_from a ds
                       = Some (a * 10 ^ Z.of_nat (length ds) + z).
Proof.
  induction fuel as [|fuel IH]; intros k z acc Hk Hz; [lia|].
  cbn [digits]. destruct (Z.ltb_spec z 10) as [Hlt|Hge].
  - exists [digit (z mod 10)]. split; [reflexivity|]. split; [discriminate|].
    intros a. cbn. rewrite Z.mod_small by lia.
    rewrite digit_value_digit by lia. f_equal. lia.
  - destruct k as [|k]; [lia|]. destruct k as [|k].
    + change (10 ^ Z.of_nat 1) with 10 in Hz. lia.
    + assert (Hdiv : 0 <= z / 10 < 10 ^ Z.of_nat (S k)).
      { split; [apply Z.div_pos; lia|].
        apply Z.div_lt_upper_bound; [lia|].
        rewrite <- Z.pow_succ_r by lia.
        replace (Z.succ (Z.of_nat (S k))) with (Z.of_nat (S (S k))) by lia.
        lia. }
      assert (Hk' : (1 <= S k <= fuel)%nat) by lia.
      destruct (IH (S k) (z / 10) (digit (z mod 10) :: acc) Hk' Hdiv)
        as (ds & Heq & Hne & Hval).
      exists (ds ++ [digit (z mod 10)]). split; [|split].
      * rewrite Heq, <- app_assoc. reflexivity.
      * destruct ds; discriminate.
      * intros a. rewrite decimal_from_app, Hval. cbn.
        assert (Hm := Z.mod_pos_bound z 10 ltac:(lia)).
        rewrite digit_value_digit by lia. f_equal.
        rewrite length_app. cbn [length].
        rewrite Nat.add_1_r, Nat2Z.inj_succ, Z.pow_succ_r by lia.
        pose proof (Z.div_mod z 10 ltac:(lia)) as Hdm. lia.
Qed.

Lemma decimal_from_zeros n s :
  decimal_from 0 (repeat x30 n ++ s) = decimal_from 0 s.
Proof. induction n as [|n IH]; cbn; [reflexivity|exact IH]. Qed.

(** A field printed with [%0<width>d] reads back as the number printed. *)
Lemma printf_0d_decimal (width : nat) z :
  (1 <= width <= 10)%nat -> 0 <= z < 10 ^ Z.of_nat width ->
  decimal (printf_0d width z) = Some z.
Proof.
  intros Hw Hz. unfold printf_0d.
  destruct (Z.ltb_spec z 0) as [Hneg|Hpos]; [lia|].
  destruct (digits_decimal 10 width z [] ltac:(lia) Hz) as (ds & Heq & Hne & Hval).
  rewrite Heq, app_nil_r.
  assert (Hdec : decimal (repeat x30 (width - length ds) ++ ds)
                 = decimal_from 0 (repeat x30 (width - length ds) ++ ds)).
  { destruct (repeat x30 (width - length ds) ++ ds) eqn:E; [|reflexivity].
    apply app_eq_nil in E as [_ E]. contradiction. }
  rewrite Hdec, decimal_from_zeros, Hval. f_equal; lia.
Qed.

Lemma printf_0d_field (width : nat) z :
  (1 <= width <= 10)%nat -> 0 <= z < 10 ^ Z.of_nat width ->
  length (printf_0d width z) = width /\ decimal (printf_0d width z) = Some z.
Proof.
  intros Hw Hz. split; [apply printf_0d_length|apply printf_0d_decimal]; auto.
Qed.

(** C9, as stated, fails: a tab is a control character and reaches the
    line as it is. *)
Lemma tab_is_not_blanked : ~ blanks_every_control.
Proof.
  intros Hclaim.
  specialize (Hclaim [x61; x09; x62] x09).
  assert (H : is_control x09 = false)
    by (apply Hclaim; vm_compute; auto).
  discriminate H.
Qed.

(** C9, amended.  When the thread name holds no line feed, [log] writes
    one line, ended by the only line feed in it.  The line reads, in this
    order: the year, a dash, the month, a dash, the day, a blank, the hour,
    the minute and the second with a colon between them, a point, and the
    milliseconds; then the separator " --- [", the thread name behind as
    many blanks as it takes to fill 15 columns (none when the name is
    longer), the separator "] : " and the message.  Each number that fits
    its field is there in decimal digits, filled with zeros on the left:
    four digits for a year from 0 to 9999, two for the month, the day, the
    hour, the minute and the second, three for the milliseconds of a
    [tv_usec] below 1000000.  The message is the rendered text, cut after
    1023 bytes and at its first NUL, in which every line feed and every
    carriage return, and no other byte, is replaced by a blank. *)
Theorem log_writes_one_line usec t thread_name rendered :
  free_of LF (c_string thread_name) = true ->
  exists year month day hour minute second milli line,
    line =
      year ++ list_byte_of_string "-" ++ month ++ list_byte_of_string "-" ++
      day ++ list_byte_of_string " " ++
      hour ++ list_byte_of_string ":" ++ minute ++ list_byte_of_string ":" ++
      second ++ list_byte_of_string "." ++ milli ++
      list_byte_of_string " --- [" ++
      repeat SP (15 - length (c_string thread_name)) ++ c_string thread_name ++
      list_byte_of_string "] : " ++
      map (fun c => if Byte.eqb c LF || Byte.eqb c CR then SP else c)
          (c_string (take 1023 rendered)) /\
    log usec t thread_name rendered = line ++ [LF] /\
    free_of LF line = true /\
    (0 <= tm_year t + 1900 <= 9999 ->
     length year = 4%nat /\ decimal year = Some (tm_year t + 1900)) /\
    (0 <= tm_mon t + 1 <= 99 ->
     length month = 2%nat /\ decimal month = Some (tm_mon t + 1)) /\
    (0 <= tm_mday t <= 99 ->
     length day = 2%nat /\ decimal day = Some (tm_mday t)) /\
    (0 <= tm_hour t <= 99 ->
     length hour = 2%nat /\ decimal hour = Some (tm_hour t)) /\
    (0 <= tm_min t <= 99 ->
     length minute = 2%nat /\ decimal minute = Some (tm_min t)) /\
    (0 <= tm_sec t <= 99 ->
     length second = 2%nat /\ decimal second = Some (tm_sec t)) /\
    (0 <= usec < 1000000 ->
     length milli = 3%nat /\ decimal milli = Some (usec / 1000)).
Proof.
  intros Hname.
  exists (printf_0d 4 (int_add (tm_year t) 1900)),
         (printf_0d 2 (int_add (tm_mon t) 1)),
         (printf_0d 2 (tm_mday t)), (printf_0d 2 (tm_hour t)),
         (printf_0d 2 (tm_min t)), (printf_0d 2 (tm_sec t)),
         (printf_0d 3 (int_cast (Z.quot usec 1000))),
         (line_head usec t thread_name ++ message_text rendered).
  split.
  { unfold line_head, time_stamp, printf_s, message_text, vsnprintf,
      blank_line_breaks, MAX_LOG_MESSAGE_LENGTH.
    change (1024 - 1)%nat with 1023%nat.
    cbn [list_byte_of_string]. rewrite <- !app_assoc. reflexivity. }
  split; [unfold log; rewrite app_assoc; reflexivity|].
  split.
  { rewrite free_of_app, (line_head_free_of_LF _ _ _ Hname).
    apply blank_line_breaks_free_of_LF. }
  split; [|split; [|split; [|split; [|split; [|split]]]]].
  - intros Hy.
    rewrite CIntFacts.int_add_small by (unfold int_min, int_max; lia).
    apply printf_0d_field; [lia|]. change (10 ^ Z.of_nat 4) with 10000. lia.
  - intros Hmo.
    rewrite CIntFacts.int_add_small by (unfold int_min, int_max; lia).
    apply printf_0d_field; [lia|]. change (10 ^ Z.of_nat 2) with 100. lia.
  - intros Hd.
    apply printf_0d_field; [lia|]. change (10 ^ Z.of_nat 2) with 100. lia.
  - intros Hh.
    apply printf_0d_field; [lia|]. change (10 ^ Z.of_nat 2) with 100. lia.
  - intros Hmi.
    apply printf_0d_field; [lia|]. change (10 ^ Z.of_nat 2) with 100. lia.
  - intros Hs.
    apply printf_0d_field; [lia|]. change (10 ^ Z.of_nat 2) with 100. lia.
  - intros Hu.
    assert (Hq : 0 <= usec / 1000 < 1000).
    { split; [apply Z.div_pos; lia|]. apply Z.div_lt_upper_bound; lia. }
    assert (Hquot : int_cast (Z.quot usec 1000) = usec / 1000).
    { rewrite Z.quot_div_nonneg by lia. unfold int_cast.
      apply CIntFacts.int_small. change (2 ^ 31) with 2147483648. lia. }
    rewrite Hquot.
    apply printf_0d_field; [lia|]. change (10 ^ Z.of_nat 3) with 1000. lia.
Qed.

Lemma log_writes_one_line_witness :
  free_of LF (c_string LogExamples.pool_name) = true /\
  log 42999 LogExamples.a_morning LogExamples.pool_name
    LogExamples.three_controls =
    list_byte_of_string "2026-10-30 07:05:09.042 --- [  thread-pool-0] : " ++
    [x61; x09; x62; x20; x63; x20] ++ [x0a] /\
  exists year month day hour minute second milli line,
    line =
      year ++ list_byte_of_string "-" ++ month ++ list_byte_of_string "-" ++
      day ++ list_byte_of_string " " ++
      hour ++ list_byte_of_string ":" ++ minute ++ list_byte_of_string ":" ++
      second ++ list_byte_of_string "." ++ milli ++
      list_byte_of_string " --- [" ++
      repeat SP (15 - length (c_string LogExamples.pool_name)) ++
      c_string LogExamples.pool_name ++
      list_byte_of_string "] : " ++
      map (fun c => if Byte.eqb c LF || Byte.eqb c CR then SP else c)
          (c_string (take 1023 LogExamples.three_controls)) /\
    log 42999 LogExamples.a_morning LogExamples.pool_name
      LogExamples.three_controls = line ++ [LF] /\
    free_of LF line = true /\
    (0 <= tm_year LogExamples.a_morning + 1900 <= 9999 ->
     length year = 4%nat /\
     decimal year = Some (tm_year LogExamples.a_morning + 1900)) /\
    (0 <= tm_mon LogExamples.a_morning + 1 <= 99 ->
     length month = 2%nat /\
     decimal month = Some (tm_mon LogExamples.a_morning + 1)) /\
    (0 <= tm_mday LogExamples.a_morning <= 99 ->
     length day = 2%nat /\ decimal day = Some (tm_mday LogExamples.a_morning)) /\
    (0 <= tm_hour LogExamples.a_morning <= 99 ->
     length hour = 2%nat /\ decimal hour = Some (tm_hour LogExamples.a_morning)) /\
    (0 <= tm_min LogExamples.a_morning <= 99 ->
     length minute = 2%nat /\
     decimal minute = Some (tm_min LogExamples.a_morning)) /\
    (0 <= tm_sec LogExamples.a_morning <= 99 ->
     length second = 2%nat /\
     decimal second = Some (tm_sec LogExamples.a_morning)) /\
    (0 <= 42999 < 1000000 ->
     length milli = 3%nat /\ decimal milli = Some (42999 / 1000)).
Proof.
  split; [reflexivity|].
  split; [vm_compute; reflexivity|].
  apply (log_writes_one_line 42999 LogExamples.a_morning
           LogExamples.pool_name LogExamples.three_controls).
  reflexivity.
Defined.

(** A name longer than 15 bytes is written whole, and pushes the message
    to the right. *)
Example log_line_of_long_name :
  log 42999 LogExamples.a_morning LogExamples.collector_name
    LogExamples.plain_text =
    list_byte_of_string
      "2026-10-30 07:05:09.042 --- [garbage-collector] : Add new cache entry" ++
    [x0a].
Proof. vm_compute; reflexivity. Qed.

(** The name is printed as it is: a line feed in it splits the line. *)
Example thread_name_line_feed_splits_line :
  log 42999 LogExamples.a_morning [x61; x0a; x62] LogExamples.plain_text =
    list_byte_of_string "2026-10-30 07:05:09.042 --- [            a" ++ [x0a] ++
    list_byte_of_string "b] : Add new cache entry" ++ [x0a].
Proof. vm_compute; reflexivity. Qed.

(** ** The line of a plain message *)

Lemma c_string_free_of_nul s : free_of x00 s = true -> c_string s = s.
Proof.
  induction s as [|c s IH]; cbn; [reflexivity|].
  destruct (Byte.eqb c x00); cbn; [discriminate|].
  intros H. f_equal. apply IH, H.
Qed.

Lemma free_of_take c n s : free_of c s = true -> free_of c (take n s) = true.
Proof.
  revert n. induction s as [|x s IH]; intros [|n]; cbn; try reflexivity.
  rewrite !andb_true_iff. intros [Hx Hs]. split; [exact Hx|apply IH, Hs].
Qed.

Lemma blank_line_breaks_plain s :
  free_of LF s = true -> free_of CR s = true -> blank_line_breaks s = s.
Proof.
  induction s as [|c s IH]; cbn; [reflexivity|].
  rewrite !andb_true_iff. intros [Hc Hs] [Hc' Hs'].
  apply negb_true_iff in Hc, Hc'. rewrite Hc, Hc'. cbn.
  f_equal. apply IH; assumption.
Qed.

Lemma line_head_length usec t thread_name :
  tm_ok t -> 0 <= usec < 1000000 ->
  (length (c_string thread_name) <= 15)%nat ->
  length (line_head usec t thread_name) = 48%nat.
Proof.
  intros Ht Hu Hn. unfold line_head.
  rewrite !length_app, (time_stamp_length _ _ Ht Hu), printf_s_length.
  cbn [length list_byte_of_string]. 
  change (length (list_byte_of_string " --- [")) with 6%nat.
  change (length (list_byte_of_string "] : ")) with 4%nat. lia.
Qed.

(** X24.  With a thread name of at most 15 bytes the message starts at
    byte 48 of the line.  The message of a text without a NUL byte is its
    first 1023 bytes with line feeds and carriage returns blanked, and a
    text of at most 1023 bytes without NUL, line feed or carriage return
    is written as it is, followed by the line feed that ends the line. *)
Theorem log_line_of_plain_text usec t thread_name rendered :
  tm_ok t -> 0 <= usec < 1000000 ->
  (length (c_string thread_name) <= 15)%nat ->
  free_of x00 rendered = true ->
  drop 48 (log usec t thread_name rendered) = message_text rendered ++ [LF] /\
  message_text rendered = blank_line_breaks (take 1023 rendered) /\
  length (log usec t thread_name rendered)
    = (49 + Nat.min 1023 (length rendered))%nat /\
  (free_of LF rendered = true -> free_of CR rendered = true ->
   (length rendered <= 1023)%nat ->
   drop 48 (log usec t thread_name rendered) = rendered ++ [LF]).
Proof.
  intros Ht Hu Hn Hnul.
  assert (Hhead := line_head_length usec t thread_name Ht Hu Hn).
  assert (Hdrop : drop 48 (log usec t thread_name rendered)
                  = message_text rendered ++ [LF]).
  { unfold log. rewrite <- Hhead. apply drop_app_length. }
  assert (Hmsg : message_text rendered = blank_line_breaks (take 1023 rendered)).
  { unfold message_text, vsnprintf, MAX_LOG_MESSAGE_LENGTH.
    change (1024 - 1)%nat with 1023%nat.
    rewrite (c_string_free_of_nul _ (free_of_take _ _ _ Hnul)). reflexivity. }
  split; [exact Hdrop|]. split; [exact Hmsg|]. split.
  - unfold log. rewrite !length_app, Hhead, Hmsg.
    unfold blank_line_breaks. rewrite length_map, length_take.
    cbn [length]. lia.
  - intros HLF HCR Hlen. rewrite Hdrop, Hmsg.
    rewrite take_ge by exact Hlen.
    rewrite (blank_line_breaks_plain _ HLF HCR). reflexivity.
Qed.

Lemma log_line_of_plain_text_witness :
  drop 48 (log 42999 LogExamples.a_morning LogExamples.pool_name
             LogExamples.plain_text)
  = message_text LogExamples.plain_text ++ [LF] /\
  message_text LogExamples.plain_text
  = blank_line_breaks (take 1023 LogExamples.plain_text) /\
  length (log 42999 LogExamples.a_morning LogExamples.pool_name
            LogExamples.plain_text)
  = (49 + Nat.min 1023 (length LogExamples.plain_text))%nat /\
  (free_of LF LogExamples.plain_text = true ->
   free_of CR LogExamples.plain_text = true ->
   (length LogExamples.plain_text <= 1023)%nat ->
   drop 48 (log 42999 LogExamples.a_morning LogExamples.pool_name
              LogExamples.plain_text)
   = LogExamples.plain_text ++ [LF]).
Proof.
  apply (log_line_of_plain_text 42999 LogExamples.a_morning
           LogExamples.pool_name LogExamples.plain_text).
  - unfold tm_ok. simpl. lia.
  - lia.
  - simpl. lia.
  - reflexivity.
Defined.

End LogFacts.
